(** * ObsFind: the indexing and search pipeline, embedded in Rocq

    A shallow embedding of the parts of the obsfind daemon that its
    specification makes claims about: the Markdown parser and chunker
    (pkg/markdown/parser.go), the Ollama and cached embedders (pkg/model),
    the indexer service and its search (pkg/indexer), and the reindex
    endpoint of the HTTP API (pkg/api).

    Go strings and byte slices are lists of bytes ([list ascii]).  Go [int]
    values that hold lengths, indices and counters are integers in [Z]:
    they count bytes and files and stay far below 2^63, so their
    arithmetic is exact.  A [time.Duration] is a number of nanoseconds
    with its 64-bit wrap-around written out. *)

From Stdlib Require Import Ascii String List ZArith Lia Bool Arith.
From Stdlib Require Import DecimalString Permutation Sorted.
Import ListNotations.

Set Implicit Arguments.
Open Scope list_scope.

(* ================================================================= *)
(** ** Go strings: the functions of package [strings] the code calls  *)
(* ================================================================= *)

Module GoStrings.

(** A Go string is an immutable sequence of bytes. *)
Definition str := list ascii.

(** A literal. *)
Definition lit (s : string) : str := list_ascii_of_string s.

Definition nl : ascii := ascii_of_nat 10.
Definition cr : ascii := ascii_of_nat 13.

(** [len(s)]: the number of bytes. *)
Definition len (s : str) : Z := Z.of_nat (length s).

Definition byte_eqb (a b : ascii) : bool := Ascii.eqb a b.

Fixpoint str_eqb (a b : str) : bool :=
  match a, b with
  | [], [] => true
  | x :: a', y :: b' => byte_eqb x y && str_eqb a' b'
  | _, _ => false
  end.

(** [s[i:j]] on offsets that are in range. *)
Definition slice (s : str) (i j : nat) : str := firstn (j - i) (skipn i s).

Fixpoint HasPrefix (s prefix : str) : bool :=
  match prefix, s with
  | [], _ => true
  | p :: ps, c :: cs => byte_eqb c p && HasPrefix cs ps
  | _ :: _, [] => false
  end.

Definition HasSuffix (s suffix : str) : bool :=
  HasPrefix (rev s) (rev suffix).

(** [strings.Split(s, sep)] for a non-empty separator: the pieces between
    the leftmost non-overlapping occurrences of [sep].  [skip] counts the
    bytes of an occurrence still to be passed over, [cur] holds the
    current piece in reverse. *)
Fixpoint Split_aux (sep s : str) (skip : nat) (cur : str) : list str :=
  match s with
  | [] => [rev cur]
  | c :: s' =>
      match skip with
      | S k => Split_aux sep s' k cur
      | O =>
          if HasPrefix s sep
          then rev cur :: Split_aux sep s' (length sep - 1) []
          else Split_aux sep s' 0 (c :: cur)
      end
  end.

Definition Split (s sep : str) : list str := Split_aux sep s 0 [].

(** [strings.SplitN(s, sep, 2)] for a one-byte separator: cut at the
    first occurrence, or the whole string when there is none. *)
Fixpoint SplitN2_aux (sep : ascii) (s cur : str) : list str :=
  match s with
  | [] => [rev cur]
  | c :: s' =>
      if byte_eqb c sep then [rev cur; s'] else SplitN2_aux sep s' (c :: cur)
  end.

Definition SplitN2 (s : str) (sep : ascii) : list str := SplitN2_aux sep s [].

(** [strings.Join]. *)
Fixpoint Join (parts : list str) (sep : str) : str :=
  match parts with
  | [] => []
  | [p] => p
  | p :: ps => p ++ sep ++ Join ps sep
  end.

(** The ASCII white space of [strings.TrimSpace]:
    tab, newline, vertical tab, form feed, carriage return, space. *)
Definition asciiSpace (c : ascii) : bool :=
  let n := nat_of_ascii c in
  ((9 <=? n) && (n <=? 13)) || (n =? 32).

Definition is_byte (c : ascii) (n : nat) : bool := nat_of_ascii c =? n.

(** Width in bytes of a white-space rune at the head of [s] (0 when the
    head is not one): [unicode.IsSpace] over the UTF-8 encodings of
    U+0085, U+00A0, U+1680, U+2000..U+200A, U+2028, U+2029, U+202F,
    U+205F and U+3000, besides the ASCII ones. *)
Definition space_width (s : str) : nat :=
  match s with
  | [] => 0
  | c :: r =>
      if asciiSpace c then 1
      else match r with
           | d :: r' =>
               if is_byte c 194 && (is_byte d 133 || is_byte d 160) then 2
               else match r' with
                    | e :: _ =>
                        let n := nat_of_ascii e in
                        if is_byte c 225 && is_byte d 154 && is_byte e 128 then 3
                        else if is_byte c 226 && is_byte d 128 &&
                                (((128 <=? n) && (n <=? 138)) ||
                                 (n =? 168) || (n =? 169) || (n =? 175)) then 3
                        else if is_byte c 226 && is_byte d 129 && is_byte e 159 then 3
                        else if is_byte c 227 && is_byte d 128 && is_byte e 128 then 3
                        else 0
                    | [] => 0
                    end
           | [] => 0
           end
  end.

(** The same for a white-space rune at the end of a string, read on the
    reversed string. *)
Definition space_width_rev (r : str) : nat :=
  match r with
  | [] => 0
  | c :: _ =>
      if asciiSpace c then 1
      else if 2 =? space_width (rev (firstn 2 r)) then 2
      else if 3 =? space_width (rev (firstn 3 r)) then 3
      else 0
  end.

Fixpoint trim_left (fuel : nat) (s : str) : str :=
  match fuel with
  | O => s
  | S f =>
      match space_width s with
      | O => s
      | w => trim_left f (skipn w s)
      end
  end.

Fixpoint trim_right_rev (fuel : nat) (r : str) : str :=
  match fuel with
  | O => r
  | S f =>
      match space_width_rev r with
      | O => r
      | w => trim_right_rev f (skipn w r)
      end
  end.

Definition TrimLeftSpace (s : str) : str := trim_left (length s) s.
Definition TrimRightSpace (s : str) : str :=
  rev (trim_right_rev (length s) (rev s)).

(** [strings.TrimSpace]: leading and trailing white space removed. *)
Definition TrimSpace (s : str) : str := TrimRightSpace (TrimLeftSpace s).

(** [strings.Trim(s, cutset)] for a cutset of ASCII bytes. *)
Fixpoint drop_while (p : ascii -> bool) (s : str) : str :=
  match s with
  | c :: s' => if p c then drop_while p s' else s
  | [] => []
  end.

Definition in_cutset (cutset : str) (c : ascii) : bool :=
  existsb (byte_eqb c) cutset.

Definition Trim (s cutset : str) : str :=
  rev (drop_while (in_cutset cutset) (rev (drop_while (in_cutset cutset) s))).

(** The decimal form of an [int], as [fmt.Sprintf] prints it for the verb d. *)
Definition Itoa (i : Z) : str := lit (NilEmpty.string_of_int (Z.to_int i)).

(** [strings.ToLower] on the ASCII letters; the code only tests the result
    for the ASCII suffix of a Markdown file name. *)
Definition lower (c : ascii) : ascii :=
  let n := nat_of_ascii c in
  if (65 <=? n) && (n <=? 90) then ascii_of_nat (n + 32) else c.

Definition ToLower (s : str) : str := map lower s.

(** [contains] of parser.go: membership in a slice of strings. *)
Fixpoint contains (slice : list str) (item : str) : bool :=
  match slice with
  | [] => false
  | s :: rest => if str_eqb s item then true else contains rest item
  end.

End GoStrings.

Import GoStrings.

(* ================================================================= *)
(** ** Regular expressions: the fragment of Go's [regexp] the code uses *)
(* ================================================================= *)

(** Go's [regexp] returns the match a backtracking engine finds first
    (leftmost, then by the preference order of the pattern).  The matcher
    below is that backtracking search, in continuation-passing style, for
    the syntax the three patterns of parser.go need: byte classes, the
    anchors with and without [(?m)], sequence, alternation, capture groups
    and greedy or lazy repetition of a byte class.  All classes of those
    patterns are ASCII or "any byte", so matching bytes agrees with
    matching runes. *)

Module Regexp.

(** A position in the input: the byte before it (none at the beginning of
    the text), the bytes from it on, and its offset. *)
Record cursor := Cursor { prev : option ascii; rest : str; pos : nat }.

(** Capture groups set so far, the most recent first. *)
Definition caps := list (nat * (nat * nat)).

Inductive re :=
| Eps
| Cls (p : ascii -> bool)
| BeginText
| EndText
| BeginLine
| EndLine
| Seq (r1 r2 : re)
| Alt (r1 r2 : re)
| Rep (greedy : bool) (p : ascii -> bool) (lo : nat) (hi : option nat)
| Cap (i : nat) (r : re).

Definition dec (hi : option nat) : option nat := option_map pred hi.

Definition room (hi : option nat) : bool :=
  match hi with Some O => false | _ => true end.

Section Exec.
Variable A : Type.

(** [p{lo,hi}] (greedy) or [p{lo,hi}?] (lazy) followed by [k]. *)
Fixpoint rep (greedy : bool) (p : ascii -> bool) (lo : nat) (hi : option nat)
    (pv : option ascii) (rs : str) (ps : nat) (k : cursor -> option A)
    {struct rs} : option A :=
  if greedy then
    match
      match rs with
      | c :: rs' =>
          if p c && room hi
          then rep greedy p (pred lo) (dec hi) (Some c) rs' (S ps) k
          else None
      | [] => None
      end
    with
    | Some a => Some a
    | None => match lo with O => k (Cursor pv rs ps) | S _ => None end
    end
  else
    match match lo with O => k (Cursor pv rs ps) | S _ => None end with
    | Some a => Some a
    | None =>
        match rs with
        | c :: rs' =>
            if p c && room hi
            then rep greedy p (pred lo) (dec hi) (Some c) rs' (S ps) k
            else None
        | [] => None
        end
    end.

Fixpoint exec (r : re) (cur : cursor) (cs : caps)
    (k : cursor -> caps -> option A) : option A :=
  match r with
  | Eps => k cur cs
  | Cls p =>
      match rest cur with
      | c :: rs' =>
          if p c then k (Cursor (Some c) rs' (S (pos cur))) cs else None
      | [] => None
      end
  | BeginText =>
      match prev cur with None => k cur cs | Some _ => None end
  | EndText =>
      match rest cur with [] => k cur cs | _ :: _ => None end
  | BeginLine =>
      match prev cur with
      | None => k cur cs
      | Some c => if byte_eqb c nl then k cur cs else None
      end
  | EndLine =>
      match rest cur with
      | [] => k cur cs
      | c :: _ => if byte_eqb c nl then k cur cs else None
      end
  | Seq r1 r2 => exec r1 cur cs (fun cur' cs' => exec r2 cur' cs' k)
  | Alt r1 r2 =>
      match exec r1 cur cs k with
      | Some a => Some a
      | None => exec r2 cur cs k
      end
  | Rep g p lo hi =>
      rep g p lo hi (prev cur) (rest cur) (pos cur) (fun cur' => k cur' cs)
  | Cap i r1 =>
      exec r1 cur cs (fun cur' cs' => k cur' ((i, (pos cur, pos cur')) :: cs'))
  end.

End Exec.

(** A match: the offset it starts at, the position it ends at, its groups. *)
Definition found := (nat * cursor * caps)%type.

Definition f_start (m : found) : nat := fst (fst m).
Definition f_end (m : found) : nat := pos (snd (fst m)).
Definition f_caps (m : found) : caps := snd m.

(** The bounds of group [i], [(0, 0)] when it took no part in the match. *)
Fixpoint group (cs : caps) (i : nat) : nat * nat :=
  match cs with
  | [] => (0, 0)
  | (j, se) :: cs' => if j =? i then se else group cs' i
  end.

(** The leftmost match that starts at or after the position given. *)
Fixpoint search_from (r : re) (pv : option ascii) (rs : str) (ps : nat)
    {struct rs} : option found :=
  match exec r (Cursor pv rs ps) [] (fun c cs => Some (c, cs)) with
  | Some (c, cs) => Some (ps, c, cs)
  | None =>
      match rs with
      | [] => None
      | c :: rs' => search_from r (Some c) rs' (S ps)
      end
  end.

(** [FindSubmatch]: the first match in the text. *)
Definition Find (r : re) (text : str) : option found :=
  search_from r None text 0.

(** The loop of [FindAll...(text, -1)]: successive non-overlapping matches.
    After an empty match the search moves on by one position (one rune in
    Go; the patterns used with it here match no empty string), and an
    empty match right after the previous match is not delivered. *)
Fixpoint find_all_from (fuel : nat) (r : re) (cur : cursor)
    (prevEnd : option nat) : list found :=
  match fuel with
  | O => []
  | S fuel' =>
      match search_from r (prev cur) (rest cur) (pos cur) with
      | None => []
      | Some m =>
          if f_end m =? pos cur then
            let tail :=
              match rest cur with
              | [] => []
              | c :: rs' =>
                  find_all_from fuel' r (Cursor (Some c) rs' (S (pos cur)))
                                (Some (f_end m))
              end in
            if match prevEnd with Some pe => f_start m =? pe | None => false end
            then tail
            else m :: tail
          else m :: find_all_from fuel' r (snd (fst m)) (Some (f_end m))
      end
  end.

Definition FindAll (r : re) (text : str) : list found :=
  find_all_from (S (length text)) r (Cursor None text 0) None.

(** Pattern building blocks. *)
Fixpoint seqs (rs : list re) : re :=
  match rs with
  | [] => Eps
  | [r] => r
  | r :: rs' => Seq r (seqs rs')
  end.

Definition Chr (c : ascii) : re := Cls (byte_eqb c).
Definition Lit (s : string) : re := seqs (map Chr (lit s)).

(** [\s] is [\t\n\f\r ] in Go's syntax. *)
Definition perl_space (c : ascii) : bool :=
  let n := nat_of_ascii c in
  (n =? 9) || (n =? 10) || (n =? 12) || (n =? 13) || (n =? 32).

(** [.] without and with the [s] flag. *)
Definition dot (c : ascii) : bool := negb (byte_eqb c nl).
Definition dot_all (c : ascii) : bool := true.

Definition alpha (c : ascii) : bool :=
  let n := nat_of_ascii c in
  ((97 <=? n) && (n <=? 122)) || ((65 <=? n) && (n <=? 90)).

Definition tag_char (c : ascii) : bool :=
  let n := nat_of_ascii c in
  alpha c || ((48 <=? n) && (n <=? 57)) || (n =? 95) || (n =? 45).

Definition star (p : ascii -> bool) : re := Rep true p 0 None.
Definition plus (p : ascii -> bool) : re := Rep true p 1 None.
Definition lazy_star (p : ascii -> bool) : re := Rep false p 0 None.

End Regexp.

(* ================================================================= *)
(** ** pkg/markdown/parser.go                                         *)
(* ================================================================= *)

Module Markdown.
Import Regexp.

(** A frontmatter value: the parser stores a string, or for [tags] in
    array form a slice whose elements are all strings. *)
Inductive FmValue :=
| FmString (s : str)
| FmList (l : list str).

(** [map[string]interface{}]: an association list with one entry per key. *)
Definition FmMap := list (str * FmValue).

Fixpoint fm_get (m : FmMap) (k : str) : option FmValue :=
  match m with
  | [] => None
  | (k', v) :: m' => if str_eqb k' k then Some v else fm_get m' k
  end.

Fixpoint fm_set (m : FmMap) (k : str) (v : FmValue) : FmMap :=
  match m with
  | [] => [(k, v)]
  | (k', v') :: m' =>
      if str_eqb k' k then (k, v) :: m' else (k', v') :: fm_set m' k v
  end.

Record MdSection := {
  sec_Title : str;
  sec_Level : Z;
  sec_Content : str;
  sec_StartLine : Z;
  sec_EndLine : Z;
  sec_StartOffset : Z;
  sec_EndOffset : Z
}.

Record Document := {
  doc_Title : str;
  doc_Path : str;
  doc_Content : str;
  doc_Frontmatter : option FmMap;
  doc_Sections : list MdSection;
  doc_Tags : list str
}.

Record Chunk := {
  ch_ID : str;
  ch_Content : str;
  ch_ContentOnly : str;
  ch_Title : str;
  ch_Section : str;
  ch_SectionPath : str;
  ch_Tags : list str;
  ch_Path : str;
  ch_StartLine : Z;
  ch_EndLine : Z;
  ch_StartOffset : Z;
  ch_EndOffset : Z
}.

Record ParseOptions := {
  ExtractTags : bool;
  ExtractFrontmatter : bool;
  IncludeTitle : bool
}.

Definition DefaultParseOptions : ParseOptions :=
  {| ExtractTags := true; ExtractFrontmatter := true; IncludeTitle := true |}.

(** *** extractFrontmatter *)

(** The pattern, and its syntax tree. *)
Definition frontmatterPattern : string :=
  "(?s)^---\s*\n(.*?)\n---\s*\n(.*)$".

Definition frontmatterRegex : re :=
  seqs [BeginText; Lit "---"; star perl_space; Chr nl;
        Cap 1 (lazy_star dot_all);
        Chr nl; Lit "---"; star perl_space; Chr nl;
        Cap 2 (star dot_all); EndText].

(** [bufio.Scanner] with the default [ScanLines]: the lines without their
    end-of-line marker (one optional carriage return, one newline); a last
    line without newline is delivered when it is not empty.  A line of
    [MaxScanTokenSize] bytes or more makes [Scan] return false, and the
    caller does not look at the scanner's error. *)
Definition MaxScanTokenSize : N := 65536.

Definition dropCR (line : str) : str :=
  match rev line with
  | c :: r => if byte_eqb c cr then rev r else line
  | [] => line
  end.

Fixpoint scan_lines_aux (s cur : str) (n : N) : list str :=
  match s with
  | [] =>
      if (n =? 0)%N then []
      else if (n <? MaxScanTokenSize)%N then [dropCR (rev cur)] else []
  | c :: s' =>
      if byte_eqb c nl then
        if (n <? MaxScanTokenSize)%N
        then dropCR (rev cur) :: scan_lines_aux s' [] 0
        else []
      else scan_lines_aux s' (c :: cur) (n + 1)
  end.

Definition scan_lines (s : str) : list str := scan_lines_aux s [] 0%N.

Definition quote_cutset : str := [ascii_of_nat 34; ascii_of_nat 39].

(** The body of the scanner loop for one line. *)
Definition frontmatter_line (fm : FmMap) (line : str) : FmMap :=
  match SplitN2 line ":"%char with
  | [k; v] =>
      let key := TrimSpace k in
      let value := TrimSpace v in
      if str_eqb key (lit "tags") then
        if HasPrefix value (lit "[") && HasSuffix value (lit "]") then
          let tagsStr := slice value 1 (length value - 1) in
          let tags :=
            map (fun tag => Trim (TrimSpace tag) quote_cutset)
                (Split tagsStr (lit ",")) in
          fm_set fm key (FmList tags)
        else fm_set fm key (FmString value)
      else fm_set fm key (FmString value)
  | _ => fm
  end.

(** Returns the frontmatter ([None] for nil), the remaining content and
    the error ([None] for nil). *)
Definition extractFrontmatter (content : str)
    : option FmMap * str * option str :=
  match Find frontmatterRegex content with
  | None => (None, content, None)
  | Some m =>
      let '(s1, e1) := group (f_caps m) 1 in
      let '(s2, e2) := group (f_caps m) 2 in
      let frontmatterYAML := slice content s1 e1 in
      let remainingContent := slice content s2 e2 in
      let frontmatter :=
        fold_left frontmatter_line (scan_lines frontmatterYAML) [] in
      (Some frontmatter, remainingContent, None)
  end.

(** *** parseSections *)

Definition is_hash (c : ascii) : bool := byte_eqb c "#"%char.

(** The pattern, and its syntax tree. *)
Definition headerPattern : string := "(?m)^(#{1,6})\s+(.+)$".

Definition headerRegex : re :=
  seqs [BeginLine; Cap 1 (Rep true is_hash 1 (Some 6)); plus perl_space;
        Cap 2 (plus dot); EndLine].

(** [bytes.Count(b, []byte{'\n'})] *)
Definition count_nl (b : str) : Z :=
  Z.of_nat (length (filter (byte_eqb nl) b)).

(** The loop over the header matches; [contentEnd] is the start of the
    next match, or the length of the content for the last one. *)
Fixpoint sections_of (content : str) (matches : list found)
    : list MdSection :=
  match matches with
  | [] => []
  | m :: rest =>
      let headerStart := f_start m in
      let headerEnd := f_end m in
      let '(levelStart, levelEnd) := group (f_caps m) 1 in
      let '(titleStart, titleEnd) := group (f_caps m) 2 in
      let contentStart := headerEnd in
      let contentEnd :=
        match rest with
        | m' :: _ => f_start m'
        | [] => length content
        end in
      {| sec_Title := slice content titleStart titleEnd;
         sec_Level := Z.of_nat levelEnd - Z.of_nat levelStart;
         sec_Content := slice content contentStart contentEnd;
         sec_StartLine := count_nl (firstn headerStart content) + 1;
         sec_EndLine := count_nl (firstn contentEnd content) + 1;
         sec_StartOffset := Z.of_nat headerStart;
         sec_EndOffset := Z.of_nat contentEnd |}
      :: sections_of content rest
  end.

Definition parseSections (content : str) : list MdSection :=
  let matches := FindAll headerRegex content in
  match sections_of content matches with
  | [] =>
      [ {| sec_Title := [];
           sec_Level := 0;
           sec_Content := content;
           sec_StartLine := 1;
           sec_EndLine := count_nl content + 1;
           sec_StartOffset := 0;
           sec_EndOffset := len content |} ]
  | sections => sections
  end.

(** *** extractInlineTags *)

(** The pattern, and its syntax tree. *)
Definition tagPattern : string := "(?:^|\s)#([a-zA-Z][a-zA-Z0-9_-]*)".

Definition tagRegex : re :=
  seqs [Alt BeginText (Cls perl_space); Chr "#"%char;
        Cap 1 (Seq (Cls alpha) (star tag_char))].

Definition extractInlineTags (content : str) : list str :=
  fold_left
    (fun tags m =>
       let '(s, e) := group (f_caps m) 1 in
       let tag := slice content s e in
       if contains tags tag then tags else tags ++ [tag])
    (FindAll tagRegex content) [].

(** *** Parse *)

Definition frontmatter_tags (fm : FmMap) : list str :=
  match fm_get fm (lit "tags") with
  | Some (FmList t) => t
  | Some (FmString t) => [t]
  | None => []
  end.

Definition frontmatter_title (fm : FmMap) : str :=
  match fm_get fm (lit "title") with
  | Some (FmString titleStr) => titleStr
  | _ => []
  end.

(** Returns the document ([None] for nil) and the error ([None] for nil). *)
Definition Parse (p : ParseOptions) (content : str)
    : option Document * option str :=
  let doc :=
    {| doc_Title := []; doc_Path := []; doc_Content := content;
       doc_Frontmatter := None; doc_Sections := []; doc_Tags := [] |} in
  let extracted : (Document * str) + str :=
    if ExtractFrontmatter p then
      match extractFrontmatter content with
      | (_, _, Some err) =>
          inr (lit "failed to extract frontmatter: " ++ err)
      | (Some frontmatter, contentWithoutFrontmatter, None) =>
          inl ({| doc_Title := frontmatter_title frontmatter;
                  doc_Path := doc_Path doc;
                  doc_Content := doc_Content doc;
                  doc_Frontmatter := Some frontmatter;
                  doc_Sections := doc_Sections doc;
                  doc_Tags :=
                    if ExtractTags p then frontmatter_tags frontmatter
                    else [] |},
               contentWithoutFrontmatter)
      | (None, _, None) => inl (doc, content)
      end
    else inl (doc, content) in
  match extracted with
  | inr err => (None, Some err)
  | inl (doc, content) =>
      let sections := parseSections content in
      let title :=
        match doc_Title doc, sections with
        | [], s :: _ => if IncludeTitle p then sec_Title s else []
        | t, _ => t
        end in
      let tags :=
        if ExtractTags p then
          fold_left
            (fun tags tag => if contains tags tag then tags else tags ++ [tag])
            (extractInlineTags content) (doc_Tags doc)
        else doc_Tags doc in
      (Some {| doc_Title := title;
               doc_Path := doc_Path doc;
               doc_Content := doc_Content doc;
               doc_Frontmatter := doc_Frontmatter doc;
               doc_Sections := sections;
               doc_Tags := tags |},
       None)
  end.

(** *** Chunking *)

(** [fmt.Sprintf("%s:%d", path, i)] and [fmt.Sprintf("%s:chunk_%d", path, i)] *)
Definition section_chunk_id (path : str) (i : Z) : str :=
  path ++ lit ":" ++ Itoa i.

Definition window_chunk_id (path : str) (i : Z) : str :=
  path ++ lit ":chunk_" ++ Itoa i.

(** ChunkByHeaders: one chunk per section that is not empty after
    trimming; [i] is the index of the section. *)
Fixpoint header_chunks (doc : Document) (sections : list MdSection) (i : Z)
    : list Chunk :=
  match sections with
  | [] => []
  | section :: rest =>
      if (len (TrimSpace (sec_Content section)) =? 0)%Z
      then header_chunks doc rest (i + 1)
      else
        {| ch_ID := section_chunk_id (doc_Path doc) i;
           ch_Content := sec_Content section;
           ch_ContentOnly := sec_Content section;
           ch_Title := doc_Title doc;
           ch_Section := sec_Title section;
           ch_SectionPath := [];
           ch_Tags := doc_Tags doc;
           ch_Path := doc_Path doc;
           ch_StartLine := sec_StartLine section;
           ch_EndLine := sec_EndLine section;
           ch_StartOffset := sec_StartOffset section;
           ch_EndOffset := sec_EndOffset section |}
        :: header_chunks doc rest (i + 1)
  end.

Definition ChunkByHeaders (doc : Document) : list Chunk :=
  header_chunks doc (doc_Sections doc) 0.

(** The state of the sliding-window loop: the chunks appended so far,
    the [strings.Builder], [currentSize] and [chunkIndex]. *)
Record window := {
  w_chunks : list Chunk;
  w_currentChunk : str;
  w_currentSize : Z;
  w_chunkIndex : Z
}.

Definition window_init : window :=
  {| w_chunks := []; w_currentChunk := []; w_currentSize := 0;
     w_chunkIndex := 0 |}.

(** One iteration of the loop over the paragraphs, shared by
    ChunkBySlidingWindow and slidingWindowChunking.  The two differ in the
    chunk they build ([mk]) and in the bounds of the flush test:
    [currentSize+paragraphSize > maxSize && currentSize >= minSize]. *)
Definition window_step (mk : Z -> str -> Chunk) (maxSize minSize : Z)
    (count : Z) (st : window) (i : Z) (paragraph : str) : window :=
  let paragraph := TrimSpace paragraph in
  if str_eqb paragraph [] then st            (* continue *)
  else
    let paragraphSize := len paragraph in
    let st1 :=
      if ((w_currentSize st + paragraphSize >? maxSize) &&
          (w_currentSize st >=? minSize))%Z
      then {| w_chunks :=
                w_chunks st ++ [mk (w_chunkIndex st) (w_currentChunk st)];
              w_currentChunk := [];
              w_currentSize := 0;
              w_chunkIndex := w_chunkIndex st + 1 |}
      else st in
    let st2 :=
      if (w_currentSize st1 >? 0)%Z
      then {| w_chunks := w_chunks st1;
              w_currentChunk := w_currentChunk st1 ++ [nl; nl];
              w_currentSize := w_currentSize st1 + 2;
              w_chunkIndex := w_chunkIndex st1 |}
      else st1 in
    let st3 :=
      {| w_chunks := w_chunks st2;
         w_currentChunk := w_currentChunk st2 ++ paragraph;
         w_currentSize := w_currentSize st2 + paragraphSize;
         w_chunkIndex := w_chunkIndex st2 |} in
    if ((i =? count - 1) && (w_currentSize st3 >? 0))%Z
    then {| w_chunks :=
              w_chunks st3 ++ [mk (w_chunkIndex st3) (w_currentChunk st3)];
            w_currentChunk := w_currentChunk st3;
            w_currentSize := w_currentSize st3;
            w_chunkIndex := w_chunkIndex st3 |}
    else st3.

Fixpoint window_loop (mk : Z -> str -> Chunk) (maxSize minSize count : Z)
    (paragraphs : list str) (i : Z) (st : window) : window :=
  match paragraphs with
  | [] => st
  | paragraph :: rest =>
      window_loop mk maxSize minSize count rest (i + 1)
                  (window_step mk maxSize minSize count st i paragraph)
  end.

Definition window_run (mk : Z -> str -> Chunk) (maxSize minSize : Z)
    (text : str) : window :=
  let paragraphs := Split text [nl; nl] in
  window_loop mk maxSize minSize (Z.of_nat (length paragraphs))
              paragraphs 0 window_init.

(** ChunkBySlidingWindow (the method the indexer calls). *)
Definition window_chunk (doc : Document) (chunkIndex : Z) (content : str)
    : Chunk :=
  {| ch_ID := window_chunk_id (doc_Path doc) chunkIndex;
     ch_Content := content;
     ch_ContentOnly := content;
     ch_Title := doc_Title doc;
     ch_Section := [];
     ch_SectionPath := [];
     ch_Tags := doc_Tags doc;
     ch_Path := doc_Path doc;
     ch_StartLine := 0; ch_EndLine := 0;
     ch_StartOffset := 0; ch_EndOffset := 0 |}.

Definition ChunkBySlidingWindow (doc : Document) (windowSize overlap : Z)
    : list Chunk :=
  w_chunks (window_run (window_chunk doc) windowSize (windowSize - overlap)
                       (doc_Content doc)).

(** ChunkHybrid: header chunks, and the sliding window over the content
    of each one longer than [windowSize]. *)
Fixpoint relabel (parent : Chunk) (subChunks : list Chunk) (i : Z)
    : list Chunk :=
  match subChunks with
  | [] => []
  | subChunk :: rest =>
      {| ch_ID := section_chunk_id (ch_ID parent) i;
         ch_Content := ch_Content subChunk;
         ch_ContentOnly := ch_ContentOnly subChunk;
         ch_Title := ch_Title subChunk;
         ch_Section := ch_Section parent;
         ch_SectionPath := ch_SectionPath parent;
         ch_Tags := ch_Tags subChunk;
         ch_Path := ch_Path subChunk;
         ch_StartLine := ch_StartLine subChunk;
         ch_EndLine := ch_EndLine subChunk;
         ch_StartOffset := ch_StartOffset subChunk;
         ch_EndOffset := ch_EndOffset subChunk |}
      :: relabel parent rest (i + 1)
  end.

Definition ChunkHybrid (doc : Document) (windowSize overlap : Z)
    : list Chunk :=
  flat_map
    (fun chunk =>
       if (len (ch_Content chunk) <=? windowSize)%Z then [chunk]
       else
         let tempDoc :=
           {| doc_Title := ch_Title chunk; doc_Path := doc_Path doc;
              doc_Content := ch_Content chunk; doc_Frontmatter := None;
              doc_Sections := []; doc_Tags := ch_Tags chunk |} in
         relabel chunk (ChunkBySlidingWindow tempDoc windowSize overlap) 0)
    (ChunkByHeaders doc).

(** The chunking strategies. *)
Record ChunkOptions := {
  Strategy : str;
  MaxChunkSize : Z;
  MinChunkSize : Z;
  ChunkOverlap : Z;
  IncludeSectionTitle : bool;
  IncludeDocTitle : bool
}.

(** slidingWindowChunking of the sliding_window strategy; its error is
    nil on every path. *)
Definition strategy_chunk (doc : Document) (chunkIndex : Z) (content : str)
    : Chunk :=
  {| ch_ID := window_chunk_id (doc_Path doc) chunkIndex;
     ch_Content := content;
     ch_ContentOnly := [];
     ch_Title := doc_Title doc;
     ch_Section := [];
     ch_SectionPath := [];
     ch_Tags := doc_Tags doc;
     ch_Path := doc_Path doc;
     ch_StartLine := 0; ch_EndLine := 0;
     ch_StartOffset := 0; ch_EndOffset := 0 |}.

Definition slidingWindowChunking (doc : Document) (options : ChunkOptions)
    : list Chunk * option str :=
  (w_chunks (window_run (strategy_chunk doc) (MaxChunkSize options)
                        (MinChunkSize options) (doc_Content doc)),
   None).

End Markdown.

(* ================================================================= *)
(** ** SHA-1 and name-based UUIDs (crypto/sha1, github.com/google/uuid) *)
(* ================================================================= *)

Module UUID.
Open Scope Z_scope.

(** Bytes as numbers in [0, 256), 32-bit words as numbers in [0, 2^32). *)
Definition byte_val (c : ascii) : Z := Z.of_N (N_of_ascii c).

Definition w32 (x : Z) : Z := Z.land x 0xFFFFFFFF.
Definition add32 (a b : Z) : Z := w32 (a + b).
Definition not32 (a : Z) : Z := Z.lxor a 0xFFFFFFFF.
Definition rotl (n x : Z) : Z :=
  w32 (Z.lor (Z.shiftl x n) (Z.shiftr x (32 - n))).

(** Big-endian bytes of a number, [n] of them. *)
Fixpoint be_bytes (n : nat) (x : Z) : list Z :=
  match n with
  | O => []
  | S n' => Z.land (Z.shiftr x (8 * Z.of_nat n')) 0xFF :: be_bytes n' x
  end.

(** The padded message: a one bit, zeros up to 56 modulo 64, and the
    length in bits as 64 bits. *)
Definition pad (msg : list Z) : list Z :=
  let l := Z.of_nat (length msg) in
  msg ++ [0x80] ++ repeat 0 (Z.to_nat ((55 - l) mod 64)) ++ be_bytes 8 (8 * l).

Fixpoint words (fuel : nat) (bs : list Z) : list Z :=
  match fuel with
  | O => []
  | S f =>
      match bs with
      | b0 :: b1 :: b2 :: b3 :: rest =>
          (b0 * 0x1000000 + b1 * 0x10000 + b2 * 0x100 + b3) :: words f rest
      | _ => []
      end
  end.

(** The message schedule, most recent word first: [rev] of W(0..t). *)
Fixpoint schedule (n : nat) (ws : list Z) : list Z :=
  match n with
  | O => ws
  | S n' =>
      let w := rotl 1 (Z.lxor (Z.lxor (nth 2 ws 0) (nth 7 ws 0))
                              (Z.lxor (nth 13 ws 0) (nth 15 ws 0))) in
      schedule n' (w :: ws)
  end.

Record state := { ha : Z; hb : Z; hc : Z; hd : Z; he : Z }.

Definition round (t : nat) (s : state) (w : Z) : state :=
  let '(f, k) :=
    if (t <? 20)%nat then
      (Z.lor (Z.land (hb s) (hc s)) (Z.land (not32 (hb s)) (hd s)), 0x5A827999)
    else if (t <? 40)%nat then
      (Z.lxor (Z.lxor (hb s) (hc s)) (hd s), 0x6ED9EBA1)
    else if (t <? 60)%nat then
      (Z.lor (Z.lor (Z.land (hb s) (hc s)) (Z.land (hb s) (hd s)))
             (Z.land (hc s) (hd s)), 0x8F1BBCDC)
    else (Z.lxor (Z.lxor (hb s) (hc s)) (hd s), 0xCA62C1D6) in
  {| ha := add32 (add32 (add32 (add32 (rotl 5 (ha s)) f) (he s)) k) w;
     hb := ha s; hc := rotl 30 (hb s); hd := hc s; he := hd s |}.

Fixpoint rounds (t : nat) (ws : list Z) (s : state) : state :=
  match ws with
  | [] => s
  | w :: ws' => rounds (S t) ws' (round t s w)
  end.

Definition block (h : state) (ws16 : list Z) : state :=
  let s := rounds 0 (rev (schedule 64 (rev ws16))) h in
  {| ha := add32 (ha h) (ha s); hb := add32 (hb h) (hb s);
     hc := add32 (hc h) (hc s); hd := add32 (hd h) (hd s);
     he := add32 (he h) (he s) |}.

Fixpoint blocks (fuel : nat) (ws : list Z) (h : state) : state :=
  match fuel with
  | O => h
  | S f =>
      match ws with
      | [] => h
      | _ => blocks f (skipn 16 ws) (block h (firstn 16 ws))
      end
  end.

Definition sha1 (msg : list Z) : list Z :=
  let ws := words (length msg + 72) (pad msg) in
  let h := blocks (length ws) ws
             {| ha := 0x67452301; hb := 0xEFCDAB89; hc := 0x98BADCFE;
                hd := 0x10325476; he := 0xC3D2E1F0 |} in
  be_bytes 4 (ha h) ++ be_bytes 4 (hb h) ++ be_bytes 4 (hc h) ++
  be_bytes 4 (hd h) ++ be_bytes 4 (he h).

(** A UUID is 16 bytes. *)
Definition uuid := list Z.

(** [uuid.NewSHA1(space, data)]: the first 16 bytes of the SHA-1 of the
    name space followed by the data, with version 5 and the RFC 4122
    variant set. *)
Definition set_version (u : uuid) (version : Z) : uuid :=
  match u with
  | b0 :: b1 :: b2 :: b3 :: b4 :: b5 :: b6 :: b7 :: b8 :: rest =>
      b0 :: b1 :: b2 :: b3 :: b4 :: b5
         :: Z.lor (Z.land b6 0x0f) (Z.land (Z.shiftl (Z.land version 0xf) 4) 0xFF)
         :: b7 :: Z.lor (Z.land b8 0x3f) 0x80 :: rest
  | _ => u
  end.

Definition NewSHA1 (space : uuid) (data : str) : uuid :=
  set_version (firstn 16 (sha1 (space ++ map byte_val data))) 5.

(** [UUID.String()]: lower-case hexadecimal, in groups of 4, 2, 2, 2 and
    6 bytes. *)
Definition hex_digit (d : Z) : ascii :=
  ascii_of_N (Z.to_N (if d <? 10 then 48 + d else 87 + d)).

Definition hex_byte (b : Z) : str := [hex_digit (b / 16); hex_digit (b mod 16)].

Definition hex (bs : list Z) : str := flat_map hex_byte bs.

Definition String (u : uuid) : str :=
  hex (firstn 4 u) ++ lit "-" ++ hex (firstn 2 (skipn 4 u)) ++ lit "-" ++
  hex (firstn 2 (skipn 6 u)) ++ lit "-" ++ hex (firstn 2 (skipn 8 u)) ++
  lit "-" ++ hex (skipn 10 u).

(** [uuid.MustParse] on the 36-byte form. *)
Definition unhex_digit (c : ascii) : option Z :=
  let n := byte_val c in
  if (48 <=? n) && (n <=? 57) then Some (n - 48)
  else if (97 <=? n) && (n <=? 102) then Some (n - 87)
  else if (65 <=? n) && (n <=? 70) then Some (n - 55)
  else None.

Fixpoint unhex (fuel : nat) (s : str) : option (list Z) :=
  match fuel with
  | O => match s with [] => Some [] | _ => None end
  | S f =>
      match s with
      | [] => Some []
      | a :: b :: rest =>
          match unhex_digit a, unhex_digit b, unhex f rest with
          | Some x, Some y, Some r => Some (x * 16 + y :: r)
          | _, _, _ => None
          end
      | [_] => None
      end
  end.

Definition Parse (s : str) : option uuid :=
  if (length s =? 36)%nat &&
     forallb (fun i => byte_eqb (nth i s "0"%char) "-"%char) [8; 13; 18; 23]%nat
  then unhex 16 (slice s 0 8 ++ slice s 9 13 ++ slice s 14 18 ++
                 slice s 19 23 ++ slice s 24 36)
  else None.

End UUID.

(* ================================================================= *)
(** ** pkg/model: HashString and the embedders                        *)
(* ================================================================= *)

Module Model.
Open Scope Z_scope.

(** *** util.go *)

(** The name space of HashString (the RFC 4122 name space for DNS). *)
Definition namespaceUUID : UUID.uuid :=
  match UUID.Parse (lit "6ba7b810-9dad-11d1-80b4-00c04fd430c8") with
  | Some u => u
  | None => []
  end.

Definition HashString (input : str) : str :=
  UUID.String (UUID.NewSHA1 namespaceUUID input).

(** *** ollama.go *)

(** A [float32] is carried as its IEEE-754 bit pattern; the embedders move
    vectors around and never compute on their entries.  A nil slice and an
    empty slice are both the empty list. *)
Definition float32 := Z.
Definition vector := list float32.

(** Signed 64-bit wrap-around, for [time.Duration] (nanoseconds). *)
Definition wrap64 (x : Z) : Z := (x + 2 ^ 63) mod 2 ^ 64 - 2 ^ 63.

Definition Second : Z := 1000000000.

Record OllamaConfig := {
  cfg_ModelName : str;
  cfg_ServerURL : str;
  cfg_Dimensions : Z;
  cfg_BatchSize : Z;
  cfg_MaxAttempts : Z;
  cfg_Timeout : Z
}.

Record OllamaEmbedder := {
  modelName : str;
  dimensions : Z;
  batchSize : Z;
  maxAttempts : Z;
  timeout : Z
}.

(** NewOllamaEmbedder, once the client is created. *)
Definition NewOllamaEmbedder (config : OllamaConfig) : OllamaEmbedder :=
  {| modelName := cfg_ModelName config;
     dimensions := cfg_Dimensions config;
     batchSize := cfg_BatchSize config;
     maxAttempts := cfg_MaxAttempts config;
     timeout := wrap64 (wrap64 (cfg_Timeout config) * Second) |}.

(** The embedding defaults of the configuration: [timeout_seconds] is 60,
    the batch size 8, the attempts 5, the dimensions 768. *)
Definition DefaultOllamaConfig : OllamaConfig :=
  {| cfg_ModelName := lit "nomic-embed-text";
     cfg_ServerURL := lit "http://localhost:11434";
     cfg_Dimensions := 768;
     cfg_BatchSize := 8;
     cfg_MaxAttempts := 5;
     cfg_Timeout := 60 |}.

(** The timeout of a request, from the configured one and the byte
    length of the (longest) text. *)
Definition dynamicTimeout (timeout longestText : Z) : Z :=
  if longestText >? 5000 then
    let additionalTime :=
      wrap64 (wrap64 ((longestText - 5000) / 5000 + 1) * Second) in
    wrap64 (timeout + additionalTime)
  else timeout.

(** One call of [client.CreateEmbedding] under a timeout context, as the
    embedder sees it: the vectors and error returned, and the error of the
    parent context when the call is over ([None] while it is live). *)
Record reply := {
  r_embeddings : list vector;
  r_err : option str;
  r_ctx_err : option str
}.

(** The remote provider: what the [n]-th request answers, given its
    timeout and texts.  Any behaviour is such a function. *)
Definition provider := nat -> Z -> list str -> reply.

(** A request as issued: its timeout and its texts. *)
Record request := { q_timeout : Z; q_texts : list str }.

(** The log of requests issued so far, the most recent last. *)
Definition log := list request.

Inductive result (A : Type) :=
| Ok (a : A)
| Err (msg : str)
| NoReturn.
Arguments Ok {A} a.
Arguments Err {A} msg.
Arguments NoReturn {A}.

(** The outcome of a retry loop. *)
Inductive attempted :=
| Looped (embeddings : list vector) (err : option str)
| Canceled (ctxErr : str).

(** [for attempt := 0; attempt < e.maxAttempts; attempt++] with [n]
    iterations left; [accept] is the test that breaks out of the loop, and
    [last] the values of [embeddings] and [err] before the iteration. *)
Fixpoint retry (p : provider) (accept : list vector -> bool) (n : nat)
    (tmo : Z) (batch : list str) (last : list vector * option str)
    (l : log) : attempted * log :=
  match n with
  | O => (Looped (fst last) (snd last), l)
  | S n' =>
      let r := p (length l) tmo batch in
      let l' := l ++ [{| q_timeout := tmo; q_texts := batch |}] in
      match r_err r with
      | None =>
          if accept (r_embeddings r) then (Looped (r_embeddings r) None, l')
          else
            match r_ctx_err r with
            | Some ce => (Canceled ce, l')
            | None => retry p accept n' tmo batch (r_embeddings r, None) l'
            end
      | Some e =>
          match r_ctx_err r with
          | Some ce => (Canceled ce, l')
          | None => retry p accept n' tmo batch (r_embeddings r, Some e) l'
          end
      end
  end.

Definition attempts_msg (what : string) (e : OllamaEmbedder) (err : str)
    : str :=
  lit "failed to create " ++ lit what ++ lit " after " ++
  Itoa (maxAttempts e) ++ lit " attempts: " ++ err.

(** OllamaEmbedder.Embed *)
Definition Embed (e : OllamaEmbedder) (p : provider) (text : str) (l : log)
    : result vector * log :=
  if str_eqb text [] then
    if dimensions e <? 0 then (NoReturn, l)      (* make panics *)
    else (Ok (repeat 0 (Z.to_nat (dimensions e))), l)
  else
    let tmo := dynamicTimeout (timeout e) (len text) in
    let accept embeddings :=
      match embeddings with
      | v :: _ => negb (length v =? 0)%nat
      | [] => false
      end in
    match retry p accept (Z.to_nat (maxAttempts e)) tmo [text] ([], None) l with
    | (Canceled ce, l') =>
        (Err (lit "embedding canceled by parent context: " ++ ce), l')
    | (Looped _ (Some err), l') => (Err (attempts_msg "embedding" e err), l')
    | (Looped embeddings None, l') =>
        match embeddings with
        | v :: _ =>
            if (length v =? 0)%nat
            then (Err (lit "ollama returned empty embedding"), l')
            else (Ok v, l')
        | [] => (Err (lit "ollama returned empty embedding"), l')
        end
    end.

(** The loop over the batches of EmbedBatch: [texts] are the texts from
    index [i] on, [allEmbeddings] what was appended so far.  The batch size
    is at least 1 here. *)
Fixpoint embed_batches (e : OllamaEmbedder) (p : provider) (tmo : Z)
    (fuel : nat) (texts : list str) (allEmbeddings : list vector) (l : log)
    : result (list vector) * log :=
  match fuel with
  | O => (Ok allEmbeddings, l)
  | S fuel' =>
      match texts with
      | [] => (Ok allEmbeddings, l)
      | _ :: _ =>
          let batch := firstn (Z.to_nat (batchSize e)) texts in
          let accept embeddings := (length embeddings =? length batch)%nat in
          match retry p accept (Z.to_nat (maxAttempts e)) tmo batch
                      ([], None) l with
          | (Canceled ce, l') =>
              (Err (lit "embedding canceled by parent context: " ++ ce), l')
          | (Looped _ (Some err), l') =>
              (Err (attempts_msg "batch embeddings" e err), l')
          | (Looped embeddings None, l') =>
              embed_batches e p tmo fuel'
                            (skipn (Z.to_nat (batchSize e)) texts)
                            (allEmbeddings ++ embeddings) l'
          end
      end
  end.

Definition longest (texts : list str) : Z :=
  fold_left (fun longestText text =>
               if len text >? longestText then len text else longestText)
            texts 0.

(** OllamaEmbedder.EmbedBatch.  With a batch size below 1 the Go loop
    slices out of range or does not advance; that is [NoReturn] here. *)
Definition EmbedBatch (e : OllamaEmbedder) (p : provider)
    (texts : list str) (l : log) : result (list vector) * log :=
  match texts with
  | [] => (Ok [], l)
  | _ :: _ =>
      if batchSize e <? 1 then (NoReturn, l)
      else
        embed_batches e p (dynamicTimeout (timeout e) (longest texts))
                      (length texts) texts [] l
  end.

(** *** embedder.go: the cache *)

Record CacheKey := { Text : str; ModelName : str; Dimensions : Z }.

Definition key_eqb (a b : CacheKey) : bool :=
  str_eqb (Text a) (Text b) && str_eqb (ModelName a) (ModelName b) &&
  (Dimensions a =? Dimensions b).

(** [map[CacheKey][]float32] *)
Definition cache := list (CacheKey * vector).

Fixpoint cache_Get (c : cache) (key : CacheKey) : option vector :=
  match c with
  | [] => None
  | (k, v) :: c' => if key_eqb k key then Some v else cache_Get c' key
  end.

Fixpoint cache_Set (c : cache) (key : CacheKey) (embedding : vector) : cache :=
  match c with
  | [] => [(key, embedding)]
  | (k, v) :: c' =>
      if key_eqb k key then (key, embedding) :: c'
      else (k, v) :: cache_Set c' key embedding
  end.

(** [results[i] = v] on a slice; out of range it panics in Go, and the
    callers below keep [i] in range where they return. *)
Fixpoint set_nth (results : list vector) (i : nat) (v : vector)
    : option (list vector) :=
  match results, i with
  | [], _ => None
  | _ :: r, O => Some (v :: r)
  | x :: r, S i' => option_map (cons x) (set_nth r i' v)
  end.

Section Cached.
(** The wrapped embedder: its name, its dimensions and its EmbedBatch,
    which runs on a state of type [S]. *)
Variable S : Type.
Variable name : str.
Variable dims : Z.
Variable inner : list str -> S -> result (list vector) * S.

Definition key_of (text : str) : CacheKey :=
  {| Text := text; ModelName := name; Dimensions := dims |}.

(** The first loop of CachedEmbedder.EmbedBatch: the results filled from
    the cache, the texts that miss and their indices. *)
Fixpoint lookup_all (c : cache) (texts : list str) (i : nat)
    : list vector * list str * list nat :=
  match texts with
  | [] => ([], [], [])
  | text :: rest =>
      let '(results, uncachedTexts, uncachedIndices) :=
        lookup_all c rest (Datatypes.S i) in
      match cache_Get c (key_of text) with
      | Some embedding => (embedding :: results, uncachedTexts, uncachedIndices)
      | None => ([] :: results, text :: uncachedTexts, i :: uncachedIndices)
      end
  end.

(** The second loop: each embedding returned is stored in the cache and
    at its index of the results.  An index out of range panics: reading
    [uncachedTexts[i]] or [uncachedIndices[i]] before the cache is set,
    writing [results[resultIndex]] after it.  The results are [None] then,
    and the cache is the one the panic leaves behind. *)
Fixpoint store_all (c : cache) (results : list vector)
    (embeddings : list vector) (uncachedTexts : list str)
    (uncachedIndices : list nat) : option (list vector) * cache :=
  match embeddings with
  | [] => (Some results, c)
  | embedding :: es =>
      match uncachedTexts, uncachedIndices with
      | text :: ts, resultIndex :: is_ =>
          let c' := cache_Set c (key_of text) embedding in
          match set_nth results resultIndex embedding with
          | Some results' => store_all c' results' es ts is_
          | None => (None, c')
          end
      | _, _ => (None, c)
      end
  end.

(** CachedEmbedder.EmbedBatch *)
Definition Cached_EmbedBatch (texts : list str) (st : cache * S)
    : result (list vector) * (cache * S) :=
  let '(c, s) := st in
  let '(results, uncachedTexts, uncachedIndices) := lookup_all c texts 0 in
  match uncachedTexts with
  | [] => (Ok results, (c, s))
  | _ :: _ =>
      match inner uncachedTexts s with
      | (Err msg, s') => (Err msg, (c, s'))
      | (NoReturn, s') => (NoReturn, (c, s'))
      | (Ok embeddings, s') =>
          match store_all c results embeddings uncachedTexts uncachedIndices with
          | (Some results', c') => (Ok results', (c', s'))
          | (None, c') => (NoReturn, (c', s'))
          end
      end
  end.

End Cached.

(** *** qdrant.go: payload values and their accessors *)

#[warnings="-register-all"]
Inductive Value :=
| NullValue
| BoolValue (b : bool)
| IntegerValue (i : Z)
| DoubleValue (bits : Z)
| StringValue (s : str)
| ListValue (values : list Value)
| StructValue (fields : list (str * Value)).

(** [map[string]*pb.Value] *)
Definition payload := list (str * Value).

Fixpoint payload_get (p : payload) (key : str) : option Value :=
  match p with
  | [] => None
  | (k, v) :: p' => if str_eqb k key then Some v else payload_get p' key
  end.

Fixpoint payload_set (p : payload) (key : str) (v : Value) : payload :=
  match p with
  | [] => [(key, v)]
  | (k, v') :: p' =>
      if str_eqb k key then (key, v) :: p' else (k, v') :: payload_set p' key v
  end.

Definition GetPayloadString (p : payload) (key : str) : str * bool :=
  match payload_get p key with
  | Some (StringValue s) => (s, true)
  | _ => ([], false)
  end.

Definition GetPayloadInt (p : payload) (key : str) : Z * bool :=
  match payload_get p key with
  | Some (IntegerValue i) => (i, true)
  | _ => (0, false)
  end.

Definition GetPayloadStringSlice (p : payload) (key : str)
    : list str * bool :=
  match payload_get p key with
  | Some (ListValue values) =>
      (flat_map (fun v => match v with StringValue s => [s] | _ => [] end)
                values, true)
  | _ => ([], false)
  end.

End Model.

(* ================================================================= *)
(** ** pkg/indexer                                                    *)
(* ================================================================= *)

Module Indexer.
Import Model Markdown.
Open Scope Z_scope.

(** *** The configuration the indexer reads *)

Record Config := {
  Paths_VaultPaths : list str;
  Paths_VaultPath : str;
  Indexing_ChunkStrategy : str;
  Indexing_MaxChunkSize : Z;
  Indexing_WindowOverlap : Z;
  Qdrant_Collection : str
}.

Definition GetVaultPaths (c : Config) : list str :=
  match Paths_VaultPaths c with
  | _ :: _ => Paths_VaultPaths c
  | [] =>
      if negb (str_eqb (Paths_VaultPath c) []) then [Paths_VaultPath c]
      else []
  end.

(** *** findBaseVaultPath *)

(** The loop that looks for the longest vault path that is a prefix of
    the file path. *)
Fixpoint best_match (path : str) (vaultPaths : list str)
    (bestMatch : str) (bestMatchLen : Z) : str :=
  match vaultPaths with
  | [] => bestMatch
  | vaultPath :: rest =>
      if HasPrefix path vaultPath && (len vaultPath >? bestMatchLen)
      then best_match path rest vaultPath (len vaultPath)
      else best_match path rest bestMatch bestMatchLen
  end.

Definition findBaseVaultPath (c : Config) (path : str) : str :=
  let vaultPaths := GetVaultPaths c in
  match vaultPaths with
  | [only] => only
  | _ =>
      let bestMatch := best_match path vaultPaths [] 0 in
      if negb (str_eqb bestMatch []) then bestMatch
      else
        match vaultPaths with
        | first :: _ => first
        | [] => []
        end
  end.

(** *** indexFile *)

Record PointStruct := {
  pt_Id : str;
  pt_Vector : vector;
  pt_Payload : payload
}.

(** [fmt.Sprintf("%s:%s#%d", vaultName, relPath, i)] *)
Definition chunk_name (vaultName relPath : str) (i : Z) : str :=
  vaultName ++ lit ":" ++ relPath ++ lit "#" ++ Itoa i.

Definition fm_value (v : FmValue) : Value :=
  match v with
  | FmString s => StringValue s
  | FmList l => ListValue (map StringValue l)
  end.

(** The payload of the point of chunk [i]. *)
Definition point_payload (doc : Document) (path basePath relPath vaultName : str)
    (chunk : Chunk) (i total : Z) : payload :=
  let base :=
    [ (lit "path", StringValue relPath);
      (lit "full_path", StringValue path);
      (lit "vault_path", StringValue basePath);
      (lit "vault_name", StringValue vaultName);
      (lit "text", StringValue (ch_Content chunk));
      (lit "content", StringValue (ch_ContentOnly chunk));
      (lit "title", StringValue (doc_Title doc));
      (lit "section", StringValue (ch_Section chunk));
      (lit "tags", ListValue (map StringValue (doc_Tags doc)));
      (lit "chunk_index", IntegerValue i);
      (lit "total_chunks", IntegerValue total) ] in
  fold_left (fun p kv => payload_set p (lit "fm_" ++ fst kv) (fm_value (snd kv)))
            (match doc_Frontmatter doc with Some fm => fm | None => [] end)
            base.

(** The loop that builds the points: chunk [i] gets the id hashed from
    the vault name, the relative path and [i], and the vector [i]. *)
Fixpoint build_points (doc : Document) (path basePath relPath vaultName : str)
    (total : Z) (chunks : list Chunk) (embeddings : list vector) (i : Z)
    : list PointStruct :=
  match chunks, embeddings with
  | chunk :: chunks', vector :: embeddings' =>
      {| pt_Id := HashString (chunk_name vaultName relPath i);
         pt_Vector := vector;
         pt_Payload :=
           point_payload doc path basePath relPath vaultName chunk i total |}
      :: build_points doc path basePath relPath vaultName total
                      chunks' embeddings' (i + 1)
  | _, _ => []
  end.

Definition chunks_for (c : Config) (doc : Document) : list Chunk :=
  if str_eqb (Indexing_ChunkStrategy c) (lit "header") then ChunkByHeaders doc
  else if str_eqb (Indexing_ChunkStrategy c) (lit "sliding_window") then
    ChunkBySlidingWindow doc (Indexing_MaxChunkSize c) (Indexing_WindowOverlap c)
  else ChunkHybrid doc (Indexing_MaxChunkSize c) (Indexing_WindowOverlap c).

(** What indexFile meets outside the process: the file read, the relative
    path and base name that [path/filepath] computes, and what the
    embedder and the store answer (vectors or an error; an error or nil). *)
Record file_env := {
  env_read : str + str;
  env_rel : str -> str -> str;
  env_base : str -> str;
  env_embed : list str -> list vector + str;
  env_upsert : list PointStruct -> option str
}.

(** Returns the error ([None] for nil) and the points sent to the store. *)
Definition indexFile (c : Config) (env : file_env) (path basePath : str)
    : option str * list PointStruct :=
  match env_read env with
  | inr err => (Some (lit "failed to read file: " ++ err), [])
  | inl content =>
      match Parse DefaultParseOptions content with
      | (_, Some err) => (Some (lit "failed to parse markdown: " ++ err), [])
      | (None, None) => (None, [])              (* not reached *)
      | (Some doc, None) =>
          let chunks := chunks_for c doc in
          match chunks with
          | [] => (None, [])
          | _ :: _ =>
              match env_embed env (map ch_Content chunks) with
              | inr err =>
                  (Some (lit "failed to generate embeddings: " ++ err), [])
              | inl embeddings =>
                  if negb (length embeddings =? length chunks)%nat then
                    (Some (lit "failed to generate embeddings: expected " ++
                           Itoa (Z.of_nat (length chunks)) ++
                           lit " embeddings, got " ++
                           Itoa (Z.of_nat (length embeddings))), [])
                  else
                    let basePath :=
                      if str_eqb basePath [] then findBaseVaultPath c path
                      else basePath in
                    let relPath := env_rel env basePath path in
                    let vaultName := env_base env basePath in
                    let points :=
                      build_points doc path basePath relPath vaultName
                                   (Z.of_nat (length chunks)) chunks embeddings 0 in
                    match env_upsert env points with
                    | Some err =>
                        (Some (lit "failed to store embeddings: " ++ err), points)
                    | None => (None, points)
                    end
              end
          end
      end
  end.

(** *** IndexVault and its statistics *)

Record DocumentStatus := {
  ds_Path : str;
  ds_Indexed : bool;
  ds_Error : str
}.

Record Stats := {
  TotalDocuments : Z;
  IndexedDocuments : Z;
  FailedDocuments : Z;
  Status : str;
  Documents : list DocumentStatus;
  LastError : str
}.

Record Service := {
  isIndexing : bool;
  stats : Stats
}.

Definition NewService : Service :=
  {| isIndexing := false;
     stats := {| TotalDocuments := 0; IndexedDocuments := 0;
                 FailedDocuments := 0; Status := lit "idle";
                 Documents := []; LastError := [] |} |}.

Definition ErrIndexingInProgress : str := lit "indexing is already in progress".

(** One call of the function given to [filepath.WalkDir]: the entry, the
    error the walk passes in, the error of the indexing context at the
    time of the check, and the result of indexFile for the entry. *)
Record visit := {
  v_path : str;
  v_name : str;
  v_isDir : bool;
  v_walkErr : option str;
  v_ctxErr : option str;
  v_indexErr : option str
}.

Definition with_counts (st : Stats) (total indexed failed : Z) : Stats :=
  {| TotalDocuments := total; IndexedDocuments := indexed;
     FailedDocuments := failed; Status := Status st;
     Documents := Documents st; LastError := LastError st |}.

Definition with_document (st : Stats) (d : DocumentStatus) : Stats :=
  {| TotalDocuments := TotalDocuments st;
     IndexedDocuments := IndexedDocuments st;
     FailedDocuments := FailedDocuments st; Status := Status st;
     Documents := Documents st ++ [d]; LastError := LastError st |}.

Definition with_status (st : Stats) (status : str) : Stats :=
  {| TotalDocuments := TotalDocuments st;
     IndexedDocuments := IndexedDocuments st;
     FailedDocuments := FailedDocuments st; Status := status;
     Documents := Documents st; LastError := LastError st |}.

(** The walk function.  Returns the statistics, the snapshots after each
    update made under the mutex, and the error handed back to the walk. *)
Definition walk_fn (st : Stats) (v : visit)
    : Stats * list Stats * option str :=
  match v_walkErr v with
  | Some err => (st, [], Some (lit "invalid path: " ++ err))
  | None =>
      match v_ctxErr v with
      | Some err => (st, [], Some err)
      | None =>
          if v_isDir v || negb (HasSuffix (ToLower (v_name v)) (lit ".md"))
          then (st, [], None)
          else
            let st1 :=
              with_counts st (TotalDocuments st + 1) (IndexedDocuments st)
                          (FailedDocuments st) in
            let st2 :=
              match v_indexErr v with
              | Some _ =>
                  with_counts st1 (TotalDocuments st1) (IndexedDocuments st1)
                              (FailedDocuments st1 + 1)
              | None =>
                  with_counts st1 (TotalDocuments st1)
                              (IndexedDocuments st1 + 1) (FailedDocuments st1)
              end in
            let st3 :=
              with_document st2
                {| ds_Path := v_path v;
                   ds_Indexed :=
                     match v_indexErr v with None => true | Some _ => false end;
                   ds_Error :=
                     match v_indexErr v with None => [] | Some e => e end |} in
            (st3, [st1; st2; st3], None)
      end
  end.

(** [filepath.WalkDir] over one vault: the walk stops at the first error
    the function returns. *)
Fixpoint walk_dir (st : Stats) (visits : list visit) : Stats * list Stats :=
  match visits with
  | [] => (st, [])
  | v :: rest =>
      match walk_fn st v with
      | (st', snaps, Some _) => (st', snaps)
      | (st', snaps, None) =>
          let '(st'', snaps') := walk_dir st' rest in
          (st'', snaps ++ snaps')
      end
  end.

(** The loop over the vault paths: an error of one walk is logged and the
    next vault is walked. *)
Fixpoint walk_vaults (st : Stats) (vaults : list (list visit))
    : Stats * list Stats :=
  match vaults with
  | [] => (st, [])
  | visits :: rest =>
      let '(st', snaps) := walk_dir st visits in
      let '(st'', snaps') := walk_vaults st' rest in
      (st'', snaps ++ snaps')
  end.

(** IndexVault: the error returned, the service afterwards, and the
    snapshots of the statistics taken during the run. *)
Definition IndexVault (s : Service) (vaults : list (list visit))
    : option str * Service * list Stats :=
  if isIndexing s then (Some ErrIndexingInProgress, s, [])
  else
    let st0 :=
      {| TotalDocuments := TotalDocuments (stats s);
         IndexedDocuments := IndexedDocuments (stats s);
         FailedDocuments := FailedDocuments (stats s);
         Status := lit "indexing"; Documents := [];
         LastError := LastError (stats s) |} in
    let '(st1, snaps) := walk_vaults st0 vaults in
    let st2 :=
      with_status st1
        (if FailedDocuments st1 >? 0 then lit "error" else lit "idle") in
    (None, {| isIndexing := false; stats := st2 |}, st0 :: snaps).

(** Successive full runs of a service, from the first one on: for each
    run its snapshots and the statistics it ends with. *)
Fixpoint run_all (s : Service) (runs : list (list (list visit)))
    : list (list Stats * Stats) :=
  match runs with
  | [] => []
  | vaults :: rest =>
      let '(_, s', snaps) := IndexVault s vaults in
      (snaps, stats s') :: run_all s' rest
  end.

(** *** search.go *)

Section Search.
(** The scores of the store are [float32]; the search compares them and
    converts them to [float64], which keeps their order.  [score_lt] is
    that order and [score_zero] the constant 0. *)
Variable score : Type.
Variable score_lt : score -> score -> bool.
Variable score_zero : score.

Record ScoredPoint := {
  sp_Score : score;
  sp_Payload : payload
}.

Record SearchResult := {
  res_Path : str;
  res_Section : str;
  res_Title : str;
  res_Content : str;
  res_Tags : list str;
  res_Score : score;
  res_Metadata : payload;
  res_ChunkIndex : Z
}.

Record SearchOptions := {
  Limit : Z;
  Offset : Z;
  MinScore : score;
  Tags : list str;
  PathPrefix : str
}.

(** [uint64(i)] of an [int]. *)
Definition to_uint64 (i : Z) : Z := i mod 2 ^ 64.

(** The tag filter: some requested tag is a tag of the point. *)
Definition tag_matched (wanted tags : list str) : bool :=
  existsb (fun tag => existsb (fun docTag => str_eqb tag docTag) tags) wanted.

(** The body of the loop over the scored points: the result kept for a
    point, or nothing when a filter skips it. *)
Definition to_result (options : SearchOptions) (point : ScoredPoint)
    : option SearchResult :=
  if score_lt score_zero (MinScore options) &&
     score_lt (sp_Score point) (MinScore options) then None
  else
    let p := sp_Payload point in
    let path := fst (GetPayloadString p (lit "path")) in
    let content := fst (GetPayloadString p (lit "content")) in
    let title := fst (GetPayloadString p (lit "title")) in
    let section := fst (GetPayloadString p (lit "section")) in
    let tags := fst (GetPayloadStringSlice p (lit "tags")) in
    let chunkIndex := fst (GetPayloadInt p (lit "chunk_index")) in
    if negb (str_eqb (PathPrefix options) []) &&
       negb (HasPrefix path (PathPrefix options)) then None
    else if (0 <? Z.of_nat (length (Tags options))) &&
            negb (tag_matched (Tags options) tags) then None
    else
      Some {| res_Path := path; res_Section := section; res_Title := title;
              res_Content := content; res_Tags := tags;
              res_Score := sp_Score point; res_Metadata := [];
              res_ChunkIndex := chunkIndex |}.

Fixpoint filter_results (options : SearchOptions) (points : list ScoredPoint)
    : list SearchResult :=
  match points with
  | [] => []
  | point :: rest =>
      match to_result options point with
      | Some r => r :: filter_results options rest
      | None => filter_results options rest
      end
  end.

(** [sort.Slice] with the comparison [less]: the library sorts in place
    and keeps no order among elements that compare equal; an insertion
    sort stands for it. *)
Fixpoint insert_by (less : SearchResult -> SearchResult -> bool)
    (x : SearchResult) (l : list SearchResult) : list SearchResult :=
  match l with
  | [] => [x]
  | y :: l' => if less y x then y :: insert_by less x l' else x :: y :: l'
  end.

Fixpoint sort_Slice (less : SearchResult -> SearchResult -> bool)
    (l : list SearchResult) : list SearchResult :=
  match l with
  | [] => []
  | x :: l' => insert_by less x (sort_Slice less l')
  end.

(** Highest score first: [results[i].Score > results[j].Score]. *)
Definition by_score (a b : SearchResult) : bool :=
  score_lt (res_Score b) (res_Score a).

(** Service.Search, given what the embedder answers for the query and
    what the store answers for a vector, a limit and an offset. *)
Definition Search (embed : list str -> list vector + str)
    (qdrant_Search : vector -> Z -> Z -> list ScoredPoint + str)
    (query : str) (options : SearchOptions) : list SearchResult + str :=
  match embed [query] with
  | inr err => inr (lit "failed to generate embedding for query: " ++ err)
  | inl [] => inr (lit "empty embedding generated for query")
  | inl (queryVector :: _) =>
      let limit :=
        if to_uint64 (Limit options) <=? 0 then 10
        else to_uint64 (Limit options) in
      let offset := to_uint64 (Offset options) in
      match qdrant_Search queryVector limit offset with
      | inr err => inr (lit "search failed: " ++ err)
      | inl searchPoints =>
          inl (sort_Slice by_score (filter_results options searchPoints))
      end
  end.

End Search.

End Indexer.

(* ================================================================= *)
(** ** pkg/api: the reindex endpoint                                  *)
(* ================================================================= *)

Module Api.
Open Scope Z_scope.

Definition StatusOK : Z := 200.
Definition StatusBadRequest : Z := 400.
Definition StatusMethodNotAllowed : Z := 405.
Definition StatusInternalServerError : Z := 500.

(** What the handlers and the service read and write: whether an indexer
    is configured, the indexer's [isIndexing] flag, the [IsIndexing] field
    of the service status, and the background reindex goroutines started
    and not yet arrived at IndexVault (each with its [force]). *)
Record Daemon := {
  has_indexer : bool;
  indexer_isIndexing : bool;
  status_IsIndexing : bool;
  pending : list bool
}.

(** Service.ReindexAll: the error ([None] for nil). *)
Definition ReindexAll (d : Daemon) (force : bool) : option str * Daemon :=
  if negb (has_indexer d) then (Some (lit "no indexer configured"), d)
  else if indexer_isIndexing d
  then (Some (lit "indexing is already in progress"), d)
  else
    (None,
     {| has_indexer := has_indexer d;
        indexer_isIndexing := indexer_isIndexing d;
        status_IsIndexing := true;
        pending := pending d ++ [force] |}).

(** A request: its method, and what decoding its JSON body gives (the
    [force] field, or the decoder's error). *)
Record Request := {
  Method : str;
  Decoded : bool + str
}.

(** A response: the status code and the JSON object written. *)
Record Response := {
  StatusCode : Z;
  Body : list (str * str)
}.

Definition WriteJSON (data : list (str * str)) (statusCode : Z) : Response :=
  {| StatusCode := statusCode; Body := data |}.

Definition WriteError (message : str) (statusCode : Z) : Response :=
  WriteJSON [(lit "error", message)] statusCode.

(** Server.handleIndexAll *)
Definition handleIndexAll (d : Daemon) (r : Request) : Response * Daemon :=
  if negb (str_eqb (Method r) (lit "POST")) then
    (WriteError (lit "Method not allowed") StatusMethodNotAllowed, d)
  else
    match Decoded r with
    | inr err =>
        (WriteError (lit "invalid request body: " ++ err) StatusBadRequest, d)
    | inl force =>
        match ReindexAll d force with
        | (Some err, d') =>
            (WriteError (lit "Reindexing failed: " ++ err)
                        StatusInternalServerError, d')
        | (None, d') =>
            (WriteJSON [(lit "status", lit "reindexing_started")] StatusOK, d')
        end
    end.

(** A background goroutine reaches IndexVault: the run starts and sets the
    flag unless a run is in progress, in which case it gives up. *)
Definition background_start (d : Daemon) : Daemon :=
  match pending d with
  | [] => d
  | _ :: rest =>
      {| has_indexer := has_indexer d;
         indexer_isIndexing := true;
         status_IsIndexing := status_IsIndexing d;
         pending := rest |}
  end.

End Api.

(* ================================================================= *)
(** ** pkg/config: the vault paths                                    *)
(* ================================================================= *)

Module ConfigPaths.
Import Indexer.

Definition with_paths (c : Config) (vaultPaths : list str) (vaultPath : str)
    : Config :=
  {| Paths_VaultPaths := vaultPaths;
     Paths_VaultPath := vaultPath;
     Indexing_ChunkStrategy := Indexing_ChunkStrategy c;
     Indexing_MaxChunkSize := Indexing_MaxChunkSize c;
     Indexing_WindowOverlap := Indexing_WindowOverlap c;
     Qdrant_Collection := Qdrant_Collection c |}.

(** Config.AddVaultPath; [absPath] is what [filepath.Abs] makes of the
    path given (the path itself when it fails). *)
Definition AddVaultPath (c : Config) (absPath : str) : Config :=
  if existsb (fun existingPath => str_eqb existingPath absPath)
             (Paths_VaultPaths c)
  then c
  else
    let vaultPaths := Paths_VaultPaths c ++ [absPath] in
    with_paths c vaultPaths
               (if (length vaultPaths =? 1)%nat then absPath
                else Paths_VaultPath c).

(** migrateConfiguration *)
Definition migrateConfiguration (config : Config) : Config :=
  let config :=
    if negb (str_eqb (Paths_VaultPath config) []) &&
       (length (Paths_VaultPaths config) =? 0)%nat
    then with_paths config [Paths_VaultPath config] (Paths_VaultPath config)
    else config in
  match Paths_VaultPaths config with
  | first :: _ =>
      if str_eqb (Paths_VaultPath config) []
      then with_paths config (Paths_VaultPaths config) first
      else config
  | [] => config
  end.

(** Service.RemoveWatchedDirectory on a service with a configuration:
    the error ([None] for nil) and the configuration afterwards. *)
Definition RemoveWatchedDirectory (c : Config) (path : str)
    : option str * Config :=
  let currentPaths := GetVaultPaths c in
  if (length currentPaths <=? 1)%nat then
    (Some (lit "cannot remove the last watched directory; at least one directory must be monitored"),
     c)
  else
    let newPaths := filter (fun dir => negb (str_eqb dir path)) currentPaths in
    (None,
     with_paths c newPaths
                match newPaths with
                | first :: _ => first
                | [] => Paths_VaultPath c
                end).

End ConfigPaths.

(* ================================================================= *)
(** ** pkg/model: the cached single embedding and the fallback        *)
(* ================================================================= *)

Module Embedders.
Import Model.
Open Scope Z_scope.

Section CachedSingle.
Variable S : Type.
Variable name : str.
Variable dims : Z.
Variable inner : str -> S -> result vector * S.

(** CachedEmbedder.Embed *)
Definition Cached_Embed (text : str) (st : cache * S)
    : result vector * (cache * S) :=
  let '(c, s) := st in
  let key := key_of name dims text in
  match cache_Get c key with
  | Some embedding => (Ok embedding, (c, s))
  | None =>
      match inner text s with
      | (Ok embedding, s') => (Ok embedding, (cache_Set c key embedding, s'))
      | (Err msg, s') => (Err msg, (c, s'))
      | (NoReturn, s') => (NoReturn, (c, s'))
      end
  end.

End CachedSingle.

(** *** fallback.go *)

(** One of the embedders a HybridEmbedder holds: its name and dimensions. *)
Record backend := { b_Name : str; b_Dimensions : Z }.

(** The fields of a HybridEmbedder that change. *)
Record Hybrid := {
  current : nat;
  h_dimensions : Z;
  h_modelName : str
}.

Definition hybrid_name (b : backend) : str :=
  lit "hybrid(" ++ b_Name b ++ lit ")".

(** NewHybridEmbedder: an error when no embedder is given. *)
Definition NewHybridEmbedder (embedders : list backend) : Hybrid + str :=
  match embedders with
  | [] => inr (lit "no embedders provided")
  | first :: _ =>
      inl {| current := 0; h_dimensions := b_Dimensions first;
             h_modelName := hybrid_name first |}
  end.

Section Fallback.
(** The value a call returns: a vector for Embed, vectors for EmbedBatch. *)
Variable A : Type.
Variable embedders : list backend.
(** What embedder [i] answers to this call: a value or an error. *)
Variable answer : nat -> A + str.

(** The loop over the other embedders, from index [i] on: the indices
    called, and the first one that answers with its value. *)
Fixpoint try_others (cur : nat) (rest : list backend) (i : nat)
    : list nat * option (nat * backend * A) :=
  match rest with
  | [] => ([], None)
  | b :: rest' =>
      if (i =? cur)%nat then try_others cur rest' (Datatypes.S i)
      else
        match answer i with
        | inl a => ([i], Some (i, b, a))
        | inr _ =>
            let '(called, r) := try_others cur rest' (Datatypes.S i) in
            (i :: called, r)
        end
  end.

(** HybridEmbedder.Embed and HybridEmbedder.EmbedBatch ([failure] is
    the message of the one or the other): the result, the embedder
    afterwards and the indices of the embedders called, in order.
    Indexing the slice out of range panics ([NoReturn]). *)
Definition Hybrid_call (failure : str) (h : Hybrid)
    : result A * Hybrid * list nat :=
  match nth_error embedders (current h) with
  | None => (NoReturn, h, [])
  | Some _ =>
      match answer (current h) with
      | inl a => (Ok a, h, [current h])
      | inr _ =>
          match try_others (current h) embedders 0 with
          | (called, Some (i, b, a)) =>
              (Ok a,
               {| current := i; h_dimensions := b_Dimensions b;
                  h_modelName := hybrid_name b |},
               current h :: called)
          | (called, None) => (Err failure, h, current h :: called)
          end
      end
  end.

End Fallback.

End Embedders.

(* ================================================================= *)
(** ** pkg/indexer/search.go: FindSimilar                             *)
(* ================================================================= *)

Module Similar.
Import Model Indexer.
Open Scope Z_scope.

Section FindSimilar.
Variable score : Type.
Variable score_lt : score -> score -> bool.
Variable score_zero : score.

(** A point as GetPointsByPath returns it: its vector, when it has one,
    and its payload. *)
Record RetrievedPoint := {
  rp_Vector : option vector;
  rp_Payload : payload
}.

(** The body of the loop over the scored points. *)
Definition to_similar (path : str) (options : SearchOptions score)
    (point : ScoredPoint score) : option (SearchResult score) :=
  if score_lt score_zero (MinScore options) &&
     score_lt (sp_Score point) (MinScore options) then None
  else
    let p := sp_Payload point in
    let pointPath := fst (GetPayloadString p (lit "path")) in
    if str_eqb pointPath path then None
    else if negb (str_eqb (PathPrefix options) []) &&
            negb (HasPrefix pointPath (PathPrefix options)) then None
    else if (0 <? Z.of_nat (length (Tags options))) &&
            negb (tag_matched (Tags options)
                              (fst (GetPayloadStringSlice p (lit "tags"))))
    then None
    else
      Some {| res_Path := pointPath;
              res_Section := fst (GetPayloadString p (lit "section"));
              res_Title := fst (GetPayloadString p (lit "title"));
              res_Content := fst (GetPayloadString p (lit "content"));
              res_Tags := fst (GetPayloadStringSlice p (lit "tags"));
              res_Score := sp_Score point;
              res_Metadata := [];
              res_ChunkIndex := fst (GetPayloadInt p (lit "chunk_index")) |}.

Fixpoint filter_similar (path : str) (options : SearchOptions score)
    (points : list (ScoredPoint score)) : list (SearchResult score) :=
  match points with
  | [] => []
  | point :: rest =>
      match to_similar path options point with
      | Some r => r :: filter_similar path options rest
      | None => filter_similar path options rest
      end
  end.

(** The vectors of the points that have one. *)
Definition vectors_of (content : list RetrievedPoint) : list vector :=
  flat_map (fun point => match rp_Vector point with
                         | Some data => [data]
                         | None => []
                         end) content.

(** Service.FindSimilar, given what the store answers for the points of
    a path and for a search. *)
Definition FindSimilar
    (GetPointsByPath : str -> list RetrievedPoint + str)
    (qdrant_Search : vector -> Z -> Z -> list (ScoredPoint score) + str)
    (path : str) (options : SearchOptions score)
    : list (SearchResult score) + str :=
  match GetPointsByPath path with
  | inr err => inr (lit "failed to retrieve document: " ++ err)
  | inl [] => inr (lit "document not found in index: " ++ path)
  | inl content =>
      match vectors_of content with
      | [] => inr (lit "no vectors found for document: " ++ path)
      | first :: _ =>
          let limit :=
            if to_uint64 (Limit options) <=? 0 then 10
            else to_uint64 (Limit options) in
          let offset := to_uint64 (Offset options) in
          match qdrant_Search first limit offset with
          | inr err => inr (lit "search failed: " ++ err)
          | inl searchPoints =>
              inl (sort_Slice (by_score score_lt)
                              (filter_similar path options searchPoints))
          end
      end
  end.

End FindSimilar.

End Similar.

(* ================================================================= *)
(** ** pkg/api/service.go: search through the API                     *)
(* ================================================================= *)

Module ApiSearch.
Import Model Indexer.
Open Scope Z_scope.

(** [strings.Contains] *)
Fixpoint Contains (s substr : str) : bool :=
  HasPrefix s substr ||
  match s with
  | [] => false
  | _ :: s' => Contains s' substr
  end.

Definition backslash : ascii := ascii_of_nat 92.

(** extractExcerpt; [None] when the slice bound is negative, where Go
    panics. *)
Definition extractExcerpt (content query : str) (maxLength : Z)
    : option str :=
  if len content <=? maxLength then Some content
  else if maxLength - 3 <? 0 then None
  else Some (firstn (Z.to_nat (maxLength - 3)) content ++ lit "...").

(** The filter that Service.Search reads out of its [filter] argument:
    the path prefix and the tags. *)
Definition parse_filter (filter : str) : str * list str :=
  if negb (str_eqb filter []) && Contains filter (lit ":") then
    match Split filter (lit ":") with
    | [filterType; filterValue] =>
        let filterType := TrimSpace filterType in
        let filterValue := TrimSpace filterValue in
        if str_eqb filterType (lit "tags") then
          ([], map TrimSpace (Split filterValue (lit ",")))
        else if str_eqb filterType (lit "path") then (filterValue, [])
        else ([], [])
    | _ => ([], [])
    end
  else if negb (str_eqb filter []) &&
          (Contains filter (lit "/") || Contains filter [backslash])
  then (filter, [])
  else ([], []).

(** The filter string that handleSearchQuery builds from the path prefix
    and the tags of a POST request. *)
Definition build_filter (pathPrefix : str) (tags : list str) : str :=
  if negb (str_eqb pathPrefix []) then lit "path:" ++ pathPrefix
  else if (0 <? Z.of_nat (length tags)) then lit "tags:" ++ Join tags (lit ",")
  else [].

(** The filter string that ParseSearchParameters builds from the
    parameters of a GET request: the path prefix, the tags and the generic
    filter. *)
Definition query_filter (pathPrefix : str) (tags : list str) (filter : str)
    : str :=
  if negb (str_eqb pathPrefix []) then lit "path:" ++ pathPrefix
  else if (0 <? Z.of_nat (length tags)) then lit "tags:" ++ Join tags (lit ",")
  else filter.

Section Search.
Variable score : Type.
(** The constant 0.6 of the minimum score. *)
Variable score_min : score.

Record ApiResult := {
  api_ID : str;
  api_Path : str;
  api_Title : str;
  api_Excerpt : str;
  api_Content : str;
  api_Score : score;
  api_Tags : list str;
  api_Section : str;
  api_Metadata : payload
}.

(** The loop that converts the results of the indexer; [None] when an
    excerpt panics. *)
Fixpoint convert_results (query : str) (results : list (SearchResult score))
    (i : Z) : option (list ApiResult) :=
  match results with
  | [] => Some []
  | r :: rest =>
      match extractExcerpt (res_Content r) query 150,
            convert_results query rest (i + 1) with
      | Some excerpt, Some rest' =>
          Some ({| api_ID := lit "result-" ++ Itoa i;
                   api_Path := res_Path r;
                   api_Title := res_Title r;
                   api_Excerpt := excerpt;
                   api_Content := res_Content r;
                   api_Score := res_Score r;
                   api_Tags := res_Tags r;
                   api_Section := res_Section r;
                   api_Metadata := res_Metadata r |} :: rest')
      | _, _ => None
      end
  end.

(** Service.Search of the API, given the embedder and the search of the
    indexer. *)
Definition Search (embed : list str -> list vector + str)
    (indexer_Search : str -> SearchOptions score ->
                      list (SearchResult score) + str)
    (query : str) (limit : Z) (filter : str) : result (list ApiResult) :=
  let limit := if limit <=? 0 then 10 else limit in
  let '(pathPrefix, tags) := parse_filter filter in
  match embed [query] with
  | inr _ =>
      Err (lit "unable to process search query: embedding service unavailable - please check if Ollama is running")
  | inl [] => Err (lit "search processing error: empty embedding generated")
  | inl (_ :: _) =>
      let searchOptions :=
        {| Limit := limit; Offset := 0; MinScore := score_min;
           Tags := tags; PathPrefix := pathPrefix |} in
      match indexer_Search query searchOptions with
      | inr err => Err (lit "search failed: " ++ err)
      | inl indexerResults =>
          match convert_results query indexerResults 0 with
          | Some results => Ok results
          | None => NoReturn
          end
      end
  end.

End Search.

End ApiSearch.

(* ================================================================= *)
(** ** pkg/model/util.go: payloads from Go values                     *)
(* ================================================================= *)

Module Payloads.
Import Model Markdown Indexer.
Open Scope Z_scope.

(** A Go value as toValue tells it apart by its kind: nil; a string; a
    signed or an unsigned integer, with its value; a float, as the bits of
    its value as [float64]; a bool; a slice or array; a map, each key a
    string or of another kind; any other value, with the text that the
    verb v prints for it. *)
#[warnings="-register-all"]
Inductive GoValue :=
| GNil
| GString (s : str)
| GInt (i : Z)
| GUint (u : Z)
| GFloat (bits : Z)
| GBool (b : bool)
| GSlice (elements : list GoValue)
| GMap (entries : list (option str * GoValue))
| GOther (printed : str).

(** toValue *)
Fixpoint toValue (v : GoValue) : Value :=
  match v with
  | GNil => NullValue
  | GString s => StringValue s
  | GInt i => IntegerValue i
  | GUint u => IntegerValue (wrap64 u)
  | GFloat bits => DoubleValue bits
  | GBool b => BoolValue b
  | GSlice elements => ListValue (map toValue elements)
  | GMap entries =>
      StructValue
        (fold_left
           (fun fields kv =>
              match fst kv with
              | Some k => payload_set fields k (toValue (snd kv))
              | None => fields
              end)
           entries [])
  | GOther printed => StringValue (TrimSpace printed)
  end.

(** StructToPayload on a [map[string]interface{}], the one input the
    indexer gives it. *)
Definition StructToPayload (m : list (str * GoValue)) : payload :=
  fold_left (fun p kv => payload_set p (fst kv) (toValue (snd kv))) m [].

(** [payload[k] = v] on the Go map. *)
Fixpoint go_set (m : list (str * GoValue)) (k : str) (v : GoValue)
    : list (str * GoValue) :=
  match m with
  | [] => [(k, v)]
  | (k', v') :: m' =>
      if str_eqb k' k then (k, v) :: m' else (k', v') :: go_set m' k v
  end.

Definition go_fm_value (v : FmValue) : GoValue :=
  match v with
  | FmString s => GString s
  | FmList l => GSlice (map GString l)
  end.

(** The map that indexFile builds for chunk [i], before StructToPayload. *)
Definition go_payload (doc : Document) (path basePath relPath vaultName : str)
    (chunk : Chunk) (i total : Z) : list (str * GoValue) :=
  fold_left (fun m kv => go_set m (lit "fm_" ++ fst kv) (go_fm_value (snd kv)))
            (match doc_Frontmatter doc with Some fm => fm | None => [] end)
            [ (lit "path", GString relPath);
              (lit "full_path", GString path);
              (lit "vault_path", GString basePath);
              (lit "vault_name", GString vaultName);
              (lit "text", GString (ch_Content chunk));
              (lit "content", GString (ch_ContentOnly chunk));
              (lit "title", GString (doc_Title doc));
              (lit "section", GString (ch_Section chunk));
              (lit "tags", GSlice (map GString (doc_Tags doc)));
              (lit "chunk_index", GInt i);
              (lit "total_chunks", GInt total) ].

End Payloads.

(* ================================================================= *)
(** * Properties                                                      *)
(* ================================================================= *)

(** Closes a goal whose premise equates two different constructors. *)
Ltac absurd_eq := let H := fresh in intros H; discriminate H.

(** ** Strings *)

Lemma byte_eqb_eq a b : byte_eqb a b = true <-> a = b.
Proof. apply Ascii.eqb_eq. Qed.

Lemma str_eqb_eq a : forall b, str_eqb a b = true <-> a = b.
Proof.
  induction a as [|x a IH]; intros [|y b]; simpl; split; intro H;
    try reflexivity; try discriminate.
  - apply andb_true_iff in H as [Hx Ha].
    apply byte_eqb_eq in Hx. apply IH in Ha. congruence.
  - inversion H; subst. apply andb_true_iff. split.
    + now apply byte_eqb_eq.
    + now apply IH.
Qed.

Lemma str_eqb_refl a : str_eqb a a = true.
Proof. now apply str_eqb_eq. Qed.

Lemma HasPrefix_app s : forall p, HasPrefix s p = true <-> exists t, s = p ++ t.
Proof.
  induction s as [|c s IH]; intros [|x p]; simpl.
  - split; [exists []; reflexivity | reflexivity].
  - split; [discriminate | intros [t Ht]; discriminate].
  - split; [intros _; eexists; reflexivity | reflexivity].
  - rewrite andb_true_iff, byte_eqb_eq, IH. split.
    + intros [-> [t ->]]. now exists t.
    + intros [t Ht]. inversion Ht; subst. split; [reflexivity | now exists t].
Qed.

(** The fuel of [TrimSpace] is enough: each step removes a byte or more,
    so more fuel than the length trims the same. *)
Lemma trim_left_fuel fuel : forall fuel' s,
  length s <= fuel -> length s <= fuel' ->
  trim_left fuel s = trim_left fuel' s.
Proof.
  induction fuel as [|fuel IH]; intros fuel' s H H'.
  - destruct s; [| simpl in H; lia]. destruct fuel'; reflexivity.
  - destruct fuel' as [|fuel'].
    + destruct s; [reflexivity | simpl in H'; lia].
    + cbn [trim_left]. destruct (space_width s) as [|w]; [reflexivity |].
      apply IH; rewrite length_skipn; lia.
Qed.

Lemma trim_right_rev_fuel fuel : forall fuel' r,
  length r <= fuel -> length r <= fuel' ->
  trim_right_rev fuel r = trim_right_rev fuel' r.
Proof.
  induction fuel as [|fuel IH]; intros fuel' r H H'.
  - destruct r; [| simpl in H; lia]. destruct fuel'; reflexivity.
  - destruct fuel' as [|fuel'].
    + destruct r; [reflexivity | simpl in H'; lia].
    + cbn [trim_right_rev]. destruct (space_width_rev r) as [|w];
        [reflexivity |].
      apply IH; rewrite length_skipn; lia.
Qed.

Lemma TrimSpace_examples :
  TrimSpace (lit "  a b " ++ [nl]) = lit "a b" /\
  TrimSpace ([nl; cr] ++ lit "   ") = [] /\
  TrimSpace (map ascii_of_nat [194; 160; 120; 226; 128; 131]) = lit "x".
Proof. vm_compute. repeat split. Qed.

(* ================================================================= *)
(** ** Vault attribution (findBaseVaultPath)                          *)
(* ================================================================= *)

Section VaultAttribution.
Import Indexer.
Open Scope Z_scope.

Lemma best_match_no_prefix path vaultPaths b n :
  Forall (fun v => HasPrefix path v = false) vaultPaths ->
  best_match path vaultPaths b n = b.
Proof.
  intros H. revert b n. induction H as [|v vs Hv _ IH]; intros b n; simpl.
  - reflexivity.
  - rewrite Hv. simpl. apply IH.
Qed.

(** C10. findBaseVaultPath returns a vault for every path: with exactly
    one vault configured it returns that vault, whatever the path; with
    two or more configured and none of them a prefix of the path it
    returns the first one. *)
Theorem C10_vault_attribution_never_fails (c : Config) (path : str) :
  (forall only, GetVaultPaths c = [only] -> findBaseVaultPath c path = only) /\
  (forall first second rest,
      GetVaultPaths c = first :: second :: rest ->
      Forall (fun v => HasPrefix path v = false) (first :: second :: rest) ->
      findBaseVaultPath c path = first).
Proof.
  split.
  - intros only H. unfold findBaseVaultPath. now rewrite H.
  - intros first second rest H Hno. unfold findBaseVaultPath. rewrite H.
    rewrite best_match_no_prefix by exact Hno. reflexivity.
Qed.

Definition two_vaults : Config :=
  {| Paths_VaultPaths := [lit "/home/u/notes"; lit "/home/u/work"];
     Paths_VaultPath := [];
     Indexing_ChunkStrategy := lit "hybrid";
     Indexing_MaxChunkSize := 1000;
     Indexing_WindowOverlap := 100;
     Qdrant_Collection := lit "obsidian" |}.

Lemma C10_witness :
  findBaseVaultPath two_vaults (lit "/tmp/elsewhere/a.md") = lit "/home/u/notes".
Proof.
  apply (proj2 (C10_vault_attribution_never_fails two_vaults
                  (lit "/tmp/elsewhere/a.md"))
               (lit "/home/u/notes") (lit "/home/u/work") []).
  - reflexivity.
  - repeat constructor.
Defined.

End VaultAttribution.

(* ================================================================= *)
(** ** The Ollama embedder: request timeouts and batch results        *)
(* ================================================================= *)

Section Embedder.
Import Model.
Open Scope Z_scope.

(** [l'] extends the log [l] by requests that all carry the timeout [tmo]. *)
Definition extends_with (tmo : Z) (l l' : log) : Prop :=
  exists new, l' = l ++ new /\ Forall (fun q => q_timeout q = tmo) new.

Lemma extends_refl tmo l : extends_with tmo l l.
Proof. exists []. now rewrite app_nil_r. Qed.

Lemma extends_trans tmo l1 l2 l3 :
  extends_with tmo l1 l2 -> extends_with tmo l2 l3 -> extends_with tmo l1 l3.
Proof.
  intros [n1 [-> H1]] [n2 [-> H2]]. exists (n1 ++ n2).
  rewrite app_assoc. split; [reflexivity | now apply Forall_app].
Qed.

Lemma extends_one tmo l batch :
  extends_with tmo l (l ++ [{| q_timeout := tmo; q_texts := batch |}]).
Proof. eexists. split; [reflexivity | now repeat constructor]. Qed.

Lemma extends_new tmo l l' :
  extends_with tmo l l' ->
  Forall (fun q => q_timeout q = tmo) (skipn (length l) l').
Proof.
  intros [new [-> H]]. rewrite skipn_app, skipn_all, Nat.sub_diag. exact H.
Qed.

Lemma retry_log p accept n tmo batch : forall last l,
  extends_with tmo l (snd (retry p accept n tmo batch last l)).
Proof.
  induction n as [|n IH]; intros last l; simpl.
  - apply extends_refl.
  - destruct (r_err _); [| destruct (accept _)]; try destruct (r_ctx_err _);
      simpl; try apply extends_one;
      (eapply extends_trans; [apply extends_one | apply IH]).
Qed.

Lemma Embed_log e p text l :
  extends_with (dynamicTimeout (timeout e) (len text)) l (snd (Embed e p text l)).
Proof.
  unfold Embed. destruct (str_eqb text []).
  - destruct (dimensions e <? 0); apply extends_refl.
  - match goal with |- context [retry ?p ?a ?n ?t ?b ?la ?l] =>
      pose proof (retry_log p a n t b la l) as H;
      destruct (retry p a n t b la l) as [[embs err | ce] l'] end;
      simpl in H; [| exact H].
    destruct err; [exact H |]. destruct embs as [| v ?]; [exact H |].
    destruct (length v =? 0)%nat; exact H.
Qed.

Lemma embed_batches_log e p tmo fuel : forall texts acc l,
  extends_with tmo l (snd (embed_batches e p tmo fuel texts acc l)).
Proof.
  induction fuel as [|fuel IH]; intros texts acc l; simpl.
  - apply extends_refl.
  - destruct texts as [|t texts]; [apply extends_refl |].
    match goal with |- context [retry ?p ?a ?n ?t ?b ?la ?l] =>
      pose proof (retry_log p a n t b la l) as H;
      destruct (retry p a n t b la l) as [[embs err | ce] l'] end;
      simpl in H; [| exact H].
    destruct err; [exact H |].
    eapply extends_trans; [exact H | apply IH].
Qed.

Lemma EmbedBatch_log e p texts l :
  extends_with (dynamicTimeout (timeout e) (longest texts)) l
               (snd (EmbedBatch e p texts l)).
Proof.
  unfold EmbedBatch. destruct texts as [|t texts]; [apply extends_refl |].
  destruct (batchSize e <? 1); [apply extends_refl |].
  apply embed_batches_log.
Qed.

(** [longest] is the greatest byte length among the texts. *)
Lemma longest_fold texts : forall m,
  0 <= m ->
  let r := fold_left (fun longestText text =>
                        if len text >? longestText then len text
                        else longestText) texts m in
  m <= r /\ Forall (fun t => len t <= r) texts /\
  (r = m \/ exists t, In t texts /\ len t = r).
Proof.
  induction texts as [|t texts IH]; intros m Hm; simpl.
  - repeat split; [lia | constructor | now left].
  - destruct (Z.gtb_spec (len t) m) as [Hgt | Hle].
    + destruct (IH (len t)) as [H1 [H2 H3]]; [lia |]. repeat split.
      * lia.
      * constructor; [exact H1 | exact H2].
      * right. destruct H3 as [-> | [t' [Hin Ht']]].
        -- exists t. now split; [left |].
        -- exists t'. now split; [right |].
    + destruct (IH m Hm) as [H1 [H2 H3]]. repeat split.
      * exact H1.
      * constructor; [lia | exact H2].
      * destruct H3 as [H3 | [t' [Hin Ht']]]; [now left |].
        right. exists t'. now split; [right |].
Qed.

Lemma longest_is_max texts :
  Forall (fun t => len t <= longest texts) texts /\
  (texts <> [] -> exists t, In t texts /\ len t = longest texts).
Proof.
  assert (H : 0 <= longest texts /\
              Forall (fun t => len t <= longest texts) texts /\
              (longest texts = 0 \/
               exists t, In t texts /\ len t = longest texts))
    by (apply (longest_fold texts (m := 0)); lia).
  destruct H as [H1 [H2 H3]]. split; [exact H2 |]. intros Hne.
  destruct H3 as [H3 | H3]; [| exact H3].
  destruct texts as [|t texts]; [contradiction |].
  exists t. split; [now left |].
  inversion H2 as [| ? ? Ht _]; subst.
  pose proof (Nat2Z.is_nonneg (length t)) as Hpos. fold (len t) in Hpos. lia.
Qed.

Lemma wrap64_small x : - 2 ^ 63 <= x < 2 ^ 63 -> wrap64 x = x.
Proof. intros H. unfold wrap64. rewrite Z.mod_small; lia. Qed.

(** The timeout the code computes, without the wrap-around. *)
Definition code_timeout (base L : Z) : Z :=
  if L >? 5000 then base + (L / 5000) * Second else base.

(** The timeout the specification states:
    base + ceiling (L / 5000) seconds. *)
Definition stated_timeout (base L : Z) : Z :=
  base + ((L + 4999) / 5000) * Second.

Lemma dynamicTimeout_code base L :
  0 <= base -> 0 <= L -> base + (L / 5000) * Second < 2 ^ 63 ->
  dynamicTimeout base L = code_timeout base L.
Proof.
  intros Hb HL Hbound. unfold dynamicTimeout, code_timeout, Second in *.
  destruct (Z.gtb_spec L 5000) as [Hgt | Hle]; [| reflexivity].
  assert (Hq : (L - 5000) / 5000 + 1 = L / 5000).
  { replace L with ((L - 5000) + 1 * 5000) at 2 by lia.
    rewrite Z.div_add by lia. reflexivity. }
  rewrite Hq.
  assert (0 <= L / 5000) by (apply Z.div_pos; lia).
  rewrite (wrap64_small (x := L / 5000)) by lia.
  rewrite (wrap64_small (x := L / 5000 * 1000000000)) by lia.
  rewrite wrap64_small by lia. reflexivity.
Qed.

(** C8 (as amended).  Every request of Embed and of EmbedBatch carries
    the configured timeout plus floor (L / 5000) seconds when the longest
    text has L > 5000 bytes, and the configured timeout alone when
    L <= 5000; the configured timeout defaults to 60 seconds. *)
Theorem C8_request_timeout (e : OllamaEmbedder) (p : provider)
    (text : str) (texts : list str) (l : log) :
  0 <= timeout e ->
  timeout e + (len text / 5000) * Second < 2 ^ 63 ->
  timeout e + (longest texts / 5000) * Second < 2 ^ 63 ->
  Forall (fun q => q_timeout q = code_timeout (timeout e) (len text))
         (skipn (length l) (snd (Embed e p text l))) /\
  Forall (fun q => q_timeout q = code_timeout (timeout e) (longest texts))
         (skipn (length l) (snd (EmbedBatch e p texts l))) /\
  timeout (NewOllamaEmbedder DefaultOllamaConfig) = 60 * Second.
Proof.
  intros Hb H1 H2. split; [| split].
  - rewrite <- dynamicTimeout_code; [apply extends_new, Embed_log | | |];
      unfold len in *; lia.
  - rewrite <- dynamicTimeout_code; [apply extends_new, EmbedBatch_log | | |];
      try lia.
    destruct (longest_fold texts (m := 0)) as [H _]; [lia | exact H].
  - reflexivity.
Qed.

(** A provider that answers every request with one vector per text. *)
Definition unit_provider : provider :=
  fun _ _ batch =>
    {| r_embeddings := map (fun _ => [1]) batch; r_err := None;
       r_ctx_err := None |}.

Definition default_embedder : OllamaEmbedder :=
  NewOllamaEmbedder DefaultOllamaConfig.

(** A text of 5001 bytes. *)
Definition text_5001 : str := repeat "a"%char (Z.to_nat 5001).

Lemma C8_witness :
  Forall (fun q => q_timeout q = 61 * Second)
         (snd (Embed default_embedder unit_provider text_5001 [])) /\
  Forall (fun q => q_timeout q = 60 * Second)
         (snd (EmbedBatch default_embedder unit_provider
                          [lit "alpha"; lit "beta"] [])).
Proof.
  pose proof (@C8_request_timeout default_embedder unit_provider text_5001
                [lit "alpha"; lit "beta"] []) as H.
  destruct H as [H1 [H2 _]].
  - vm_compute. discriminate.
  - vm_compute. reflexivity.
  - vm_compute. reflexivity.
  - split; [exact H1 | exact H2].
Defined.

(** C8, as stated, fails: for a text of 5001 bytes the specification's
    formula gives 60 s + 2 s, and the request carries 61 s. *)
Lemma C8_counterexample :
  ~ (forall (e : OllamaEmbedder) (p : provider) (text : str) (l : log),
        Forall (fun q => q_timeout q = stated_timeout (timeout e) (len text))
               (skipn (length l) (snd (Embed e p text l)))).
Proof.
  intros H. specialize (H default_embedder unit_provider text_5001 []).
  vm_compute in H. inversion H as [| ? ? Hq _]. discriminate Hq.
Qed.

(** *** Batch results *)

(** A provider is honest for [emb] when every reply without error holds
    the embeddings of the texts of its request, in order. *)
Definition honest (emb : str -> vector) (p : provider) : Prop :=
  forall n tmo batch,
    r_err (p n tmo batch) = None ->
    r_embeddings (p n tmo batch) = map emb batch.

Lemma retry_honest emb p n tmo batch :
  honest emb p ->
  forall last l embs l',
    (snd last = None -> fst last = map emb batch) ->
    retry p (fun e => (length e =? length batch)%nat) n tmo batch last l
      = (Looped embs None, l') ->
    embs = map emb batch.
Proof.
  intros Hp. induction n as [|n IH]; intros last l embs l' Hlast; simpl.
  - intros H. inversion H; subst. destruct last as [x [e|]]; simpl in *;
      [discriminate | now apply Hlast].
  - destruct (r_err (p (length l) tmo batch)) as [e|] eqn:He.
    + destruct (r_ctx_err _); [absurd_eq |]. intros H.
      eapply IH; [| exact H]. simpl. absurd_eq.
    + rewrite (Hp _ _ _ He), length_map, Nat.eqb_refl.
      intros H. now inversion H.
Qed.

Lemma retry_honest_first emb p n tmo batch last l embs l' :
  honest emb p ->
  retry p (fun e => (length e =? length batch)%nat) (S n) tmo batch last l
    = (Looped embs None, l') ->
  embs = map emb batch.
Proof.
  intros Hp. simpl.
  destruct (r_err (p (length l) tmo batch)) as [e|] eqn:He.
  - destruct (r_ctx_err _); [absurd_eq |]. intros H.
    eapply retry_honest; [exact Hp | | exact H]. simpl. absurd_eq.
  - rewrite (Hp _ _ _ He), length_map, Nat.eqb_refl.
    intros H. now inversion H.
Qed.

Lemma embed_batches_honest emb e p tmo :
  honest emb p -> 1 <= maxAttempts e -> 1 <= batchSize e ->
  forall fuel texts acc l vs l',
    (length texts <= fuel)%nat ->
    embed_batches e p tmo fuel texts acc l = (Ok vs, l') ->
    vs = acc ++ map emb texts.
Proof.
  intros Hp Hm Hb. induction fuel as [|fuel IH]; intros texts acc l vs l' Hlen;
    simpl.
  - destruct texts; [| simpl in Hlen; lia]. intros H. inversion H.
    now rewrite app_nil_r.
  - destruct texts as [|t texts]; [intros H; inversion H; now rewrite app_nil_r |].
    destruct (Z.to_nat (maxAttempts e)) as [|n] eqn:Hn; [lia |].
    destruct (Z.to_nat (batchSize e)) as [|k] eqn:Hk; [lia |].
    destruct (retry _ _ _ _ _ _ _) as [[embs err | ce] l1] eqn:Hr;
      [| absurd_eq].
    destruct err; [absurd_eq |].
    apply retry_honest_first with (emb := emb) in Hr; [| exact Hp].
    subst embs. intros H. apply IH in H.
    + now rewrite H, <- app_assoc, <- map_app, firstn_skipn.
    + simpl in Hlen. rewrite length_skipn. simpl. lia.
Qed.

(** With an honest provider and at least one attempt, a batch that
    returns without error returns the embedding of each text, in order. *)
Lemma EmbedBatch_honest emb e p texts l vs :
  honest emb p -> 1 <= maxAttempts e ->
  fst (EmbedBatch e p texts l) = Ok vs ->
  vs = map emb texts.
Proof.
  intros Hp Hm. unfold EmbedBatch. destruct texts as [|t texts].
  - simpl. intros H. now inversion H.
  - destruct (Z.ltb_spec (batchSize e) 1) as [Hb | Hb]; [absurd_eq |].
    destruct (embed_batches _ _ _ _ _ _ _) as [r l'] eqn:Hr. simpl.
    intros ->. now apply embed_batches_honest with (emb := emb) in Hr.
Qed.

(** The fuel of the loop over the batches is enough: with a batch size
    of 1 or more, more fuel than texts gives the same result. *)
Lemma embed_batches_fuel e p tmo fuel : forall fuel' texts acc l,
  1 <= batchSize e ->
  (length texts <= fuel)%nat -> (length texts <= fuel')%nat ->
  embed_batches e p tmo fuel texts acc l =
  embed_batches e p tmo fuel' texts acc l.
Proof.
  induction fuel as [|fuel IH]; intros fuel' texts acc l Hb H H'.
  - destruct texts; [| simpl in H; lia]. destruct fuel'; reflexivity.
  - destruct fuel' as [|fuel'].
    + destruct texts; [reflexivity | simpl in H'; lia].
    + cbn [embed_batches]. destruct texts as [|t texts]; [reflexivity |].
      destruct (retry _ _ _ _ _ _ _) as [[embs [err|] | ce] l1];
        try reflexivity.
      cbn [length] in H, H'.
      apply IH; [exact Hb | |]; rewrite length_skipn; cbn [length]; lia.
Qed.

(** With no attempt configured the loop over the attempts does not run,
    and the batch returns no vector and no error without any request. *)
Lemma zero_attempts_no_vectors p :
  EmbedBatch
    {| modelName := lit "nomic-embed-text"; dimensions := 768;
       batchSize := 8; maxAttempts := 0; timeout := 60 * Second |}
    p [lit "a"] [] = (Ok [], []).
Proof. reflexivity. Qed.

(** A provider that answers every request with no vector and no error. *)
Definition short_provider : provider :=
  fun _ _ _ => {| r_embeddings := []; r_err := None; r_ctx_err := None |}.

(** C5 (the code departs from it).  With the default configuration and a
    provider whose replies are short, EmbedBatch on one text makes its
    five attempts and then returns no vector and no error; through the
    cache the result has one entry, which is nil. *)
Theorem C5_short_reply_returned_without_error :
  fst (EmbedBatch default_embedder short_provider [lit "a"] []) = Ok [] /\
  length (snd (EmbedBatch default_embedder short_provider [lit "a"] []))
    = 5%nat /\
  fst (Cached_EmbedBatch (modelName default_embedder)
         (dimensions default_embedder)
         (EmbedBatch default_embedder short_provider) [lit "a"] ([], []))
    = Ok [[]] /\
  fst (Embed default_embedder short_provider (lit "a") [])
    = Err (lit "ollama returned empty embedding").
Proof. vm_compute. repeat split. Qed.

End Embedder.

(* ================================================================= *)
(** ** The reindex endpoint                                           *)
(* ================================================================= *)

Section ReindexEndpoint.
Import Api.
Open Scope Z_scope.

(** C3 (as amended).  A POST to /index/all with a well-formed body, on a
    daemon with an indexer: while the indexer's flag says a run is in
    progress the answer is status 500 with the error "Reindexing failed:
    indexing is already in progress" and nothing is started; while the
    flag is clear the answer is status 200 with "reindexing_started" and
    one background run is started. *)
Theorem C3_reindex_while_busy (d : Daemon) (r : Request) (force : bool) :
  Method r = lit "POST" -> Decoded r = inl force -> has_indexer d = true ->
  (indexer_isIndexing d = true ->
   handleIndexAll d r =
     (WriteError (lit "Reindexing failed: indexing is already in progress")
                 StatusInternalServerError, d)) /\
  (indexer_isIndexing d = false ->
   fst (handleIndexAll d r) =
     WriteJSON [(lit "status", lit "reindexing_started")] StatusOK /\
   pending (snd (handleIndexAll d r)) = pending d ++ [force]).
Proof.
  intros Hm Hd Hi. unfold handleIndexAll, ReindexAll.
  rewrite Hm, Hd, Hi. simpl. split; intros ->; simpl; auto.
Qed.

Definition busy_daemon : Daemon :=
  {| has_indexer := true; indexer_isIndexing := true;
     status_IsIndexing := true; pending := [] |}.

Definition idle_daemon : Daemon :=
  {| has_indexer := true; indexer_isIndexing := false;
     status_IsIndexing := false; pending := [] |}.

Definition post_index_all : Request :=
  {| Method := lit "POST"; Decoded := inl false |}.

Lemma C3_witness :
  StatusCode (fst (handleIndexAll busy_daemon post_index_all)) = 500.
Proof.
  rewrite (proj1 (@C3_reindex_while_busy busy_daemon post_index_all false
                    eq_refl eq_refl eq_refl) eq_refl).
  reflexivity.
Defined.

(** C3, as stated, fails: the answer to a reindex request during a run
    does not have status 409. *)
Lemma C3_counterexample :
  ~ (forall (d : Daemon) (r : Request) (force : bool),
        Method r = lit "POST" -> Decoded r = inl force ->
        has_indexer d = true -> indexer_isIndexing d = true ->
        StatusCode (fst (handleIndexAll d r)) = 409).
Proof.
  intros H.
  specialize (H busy_daemon post_index_all false eq_refl eq_refl eq_refl eq_refl).
  vm_compute in H. discriminate H.
Qed.

(** Two requests that arrive before the first background run has reached
    IndexVault are both told that reindexing started. *)
Lemma two_requests_both_started :
  let '(r1, d1) := handleIndexAll idle_daemon post_index_all in
  let '(r2, d2) := handleIndexAll d1 post_index_all in
  StatusCode r1 = 200 /\ StatusCode r2 = 200 /\ length (pending d2) = 2%nat.
Proof. vm_compute. repeat split. Qed.

End ReindexEndpoint.

(* ================================================================= *)
(** ** The sliding window                                             *)
(* ================================================================= *)

Section SlidingWindow.
Import Markdown.
Open Scope Z_scope.

(** A paragraph that is blank after trimming leaves the state of the loop
    as it is, also when it is the last one. *)
Lemma window_step_blank mk maxSize minSize count st i paragraph :
  TrimSpace paragraph = [] ->
  window_step mk maxSize minSize count st i paragraph = st.
Proof. intros H. unfold window_step. now rewrite H. Qed.

Lemma window_loop_app mk maxSize minSize count ps : forall qs i st,
  window_loop mk maxSize minSize count (ps ++ qs) i st =
  window_loop mk maxSize minSize count qs (i + Z.of_nat (length ps))
              (window_loop mk maxSize minSize count ps i st).
Proof.
  induction ps as [|p ps IH]; intros qs i st; simpl.
  - now rewrite Z.add_0_r.
  - rewrite IH. f_equal. lia.
Qed.

(** When the last paragraph is blank, the loop ends in the state reached
    before it: what the buffer holds then is in no chunk. *)
Lemma window_loop_blank_last mk maxSize minSize count ps q i st :
  TrimSpace q = [] ->
  window_loop mk maxSize minSize count (ps ++ [q]) i st =
  window_loop mk maxSize minSize count ps i st.
Proof.
  intros H. rewrite window_loop_app. simpl. now apply window_step_blank.
Qed.

(** A document whose only paragraph is followed by a blank line. *)
Definition trailing_blank_doc : Document :=
  {| doc_Title := []; doc_Path := lit "n.md";
     doc_Content := lit "hello" ++ [nl; nl];
     doc_Frontmatter := None; doc_Sections := []; doc_Tags := [] |}.

(** The options of NewSlidingWindowChunkStrategy. *)
Definition sliding_window_options : ChunkOptions :=
  {| Strategy := []; MaxChunkSize := 500; MinChunkSize := 100;
     ChunkOverlap := 100; IncludeSectionTitle := false;
     IncludeDocTitle := true |}.

(** C4 (the code departs from it).  For the content "hello" followed by
    two newlines, the loop of ChunkBySlidingWindow ends with "hello" in
    its buffer and no chunk: the last paragraph is empty, the loop skips
    it, and the test for the last paragraph is never reached.  The same
    holds for slidingWindowChunking. *)
Theorem C4_trailing_buffer_dropped :
  let w := window_run (window_chunk trailing_blank_doc) 500 (500 - 100)
                      (doc_Content trailing_blank_doc) in
  w_currentChunk w = lit "hello" /\
  w_chunks w = [] /\
  ChunkBySlidingWindow trailing_blank_doc 500 100 = [] /\
  slidingWindowChunking trailing_blank_doc sliding_window_options = ([], None).
Proof. vm_compute. repeat split. Qed.

(** Without the trailing blank line the same paragraph is emitted. *)
Lemma no_trailing_blank_emitted :
  map ch_Content
      (ChunkBySlidingWindow
         {| doc_Title := []; doc_Path := lit "n.md";
            doc_Content := lit "hello";
            doc_Frontmatter := None; doc_Sections := []; doc_Tags := [] |}
         500 100) = [lit "hello"].
Proof. vm_compute. reflexivity. Qed.

End SlidingWindow.

(* ================================================================= *)
(** ** The statistics of a full reindex                               *)
(* ================================================================= *)

Section ReindexStats.
Import Indexer.
Open Scope Z_scope.

Definition counted (st : Stats) : Prop :=
  IndexedDocuments st + FailedDocuments st <= TotalDocuments st.

Definition settled (st : Stats) : Prop :=
  IndexedDocuments st + FailedDocuments st = TotalDocuments st.

Lemma settled_counted st : settled st -> counted st.
Proof. unfold settled, counted. lia. Qed.

Lemma walk_fn_settled st v :
  settled st ->
  settled (fst (fst (walk_fn st v))) /\
  Forall counted (snd (fst (walk_fn st v))).
Proof.
  intros H. unfold walk_fn.
  destruct (v_walkErr v); [now split |].
  destruct (v_ctxErr v); [now split |].
  destruct (v_isDir v || _); [now split |].
  unfold settled, counted in *.
  destruct (v_indexErr v); simpl; split; try lia;
    repeat constructor; simpl; lia.
Qed.

Lemma walk_dir_settled visits : forall st,
  settled st ->
  settled (fst (walk_dir st visits)) /\ Forall counted (snd (walk_dir st visits)).
Proof.
  induction visits as [|v visits IH]; intros st H; simpl.
  - now split.
  - pose proof (walk_fn_settled v H) as [H1 H2].
    destruct (walk_fn st v) as [[st' snaps] [err|]]; simpl in *.
    + now split.
    + specialize (IH st' H1). destruct (walk_dir st' visits) as [st'' snaps'].
      simpl in *. split; [apply IH | apply Forall_app; split; [exact H2 | apply IH]].
Qed.

Lemma walk_vaults_settled vaults : forall st,
  settled st ->
  settled (fst (walk_vaults st vaults)) /\
  Forall counted (snd (walk_vaults st vaults)).
Proof.
  induction vaults as [|visits vaults IH]; intros st H; simpl.
  - now split.
  - pose proof (walk_dir_settled visits H) as [H1 H2].
    destruct (walk_dir st visits) as [st' snaps]. simpl in *.
    specialize (IH st' H1). destruct (walk_vaults st' vaults) as [st'' snaps'].
    simpl in *. split; [apply IH | apply Forall_app; split; [exact H2 | apply IH]].
Qed.

Lemma IndexVault_settled s vaults :
  settled (stats s) ->
  settled (stats (snd (fst (IndexVault s vaults)))) /\
  Forall counted (snd (IndexVault s vaults)).
Proof.
  intros H. unfold IndexVault. destruct (isIndexing s); [now split |].
  match goal with |- context [walk_vaults ?st0 vaults] =>
    assert (H0 : settled st0) by exact H;
    pose proof (walk_vaults_settled vaults H0) as [H1 H2];
    destruct (walk_vaults st0 vaults) as [st1 snaps] end.
  simpl in *. split; [exact H1 |].
  constructor; [apply settled_counted; exact H | exact H2].
Qed.

Lemma run_all_settled runs : forall s,
  settled (stats s) ->
  Forall (fun run => Forall counted (fst run) /\ settled (snd run))
         (run_all s runs).
Proof.
  induction runs as [|vaults runs IH]; intros s H; simpl.
  - constructor.
  - pose proof (IndexVault_settled s vaults H) as [H1 H2].
    destruct (IndexVault s vaults) as [[err s'] snaps]. simpl in *.
    constructor; [now split | now apply IH].
Qed.

(** C7.  In every full reindex run of a service (the first one or a
    later one), whatever the walk meets, indexed + failed <= total holds
    after each update of the statistics, and indexed + failed = total
    holds when the run is over. *)
Theorem C7_stats_invariant (runs : list (list (list visit))) :
  Forall (fun run => Forall counted (fst run) /\ settled (snd run))
         (run_all NewService runs).
Proof. apply run_all_settled. reflexivity. Qed.

End ReindexStats.

(* ================================================================= *)
(** ** Chunk identifiers                                              *)
(* ================================================================= *)

Section ChunkIds.
Import Model Markdown Indexer.
Open Scope Z_scope.

(** The identifier as the specification words it: the name-based
    (SHA-1, version 5) UUID of the fixed name space
    6ba7b810-9dad-11d1-80b4-00c04fd430c8 and of the string
    vaultName ":" relativePath "#" chunkIndex, in its text form. *)
Definition stated_chunk_id (vaultName relativePath : str) (chunkIndex : Z)
    : str :=
  UUID.String
    (UUID.NewSHA1
       [0x6b; 0xa7; 0xb8; 0x10; 0x9d; 0xad; 0x11; 0xd1;
        0x80; 0xb4; 0x00; 0xc0; 0x4f; 0xd4; 0x30; 0xc8]
       (vaultName ++ lit ":" ++ relativePath ++ lit "#" ++
        lit (NilEmpty.string_of_int (Z.to_int chunkIndex)))).

Lemma namespace_bytes :
  namespaceUUID =
  [0x6b; 0xa7; 0xb8; 0x10; 0x9d; 0xad; 0x11; 0xd1;
   0x80; 0xb4; 0x00; 0xc0; 0x4f; 0xd4; 0x30; 0xc8].
Proof. vm_compute. reflexivity. Qed.

Lemma HashString_stated vaultName relPath i :
  HashString (chunk_name vaultName relPath i) =
  stated_chunk_id vaultName relPath i.
Proof.
  unfold HashString, stated_chunk_id, chunk_name, Itoa.
  now rewrite namespace_bytes.
Qed.

(** The model of SHA-1 and of the UUID text form agrees with the
    published value of the version-5 UUID of "python.org" in the DNS
    name space. *)
Lemma HashString_known_value :
  HashString (lit "python.org") = lit "886313e1-3b8a-5372-9b90-0c9aee199e5d".
Proof. vm_compute. reflexivity. Qed.

Lemma build_points_ids doc path basePath relPath vaultName total chunks :
  forall embeddings i,
    map pt_Id (build_points doc path basePath relPath vaultName total
                            chunks embeddings i) =
    map (fun k => stated_chunk_id vaultName relPath (i + Z.of_nat k))
        (seq 0 (length (build_points doc path basePath relPath vaultName
                                     total chunks embeddings i))).
Proof.
  induction chunks as [|chunk chunks IH]; intros embeddings i; simpl.
  - reflexivity.
  - destruct embeddings as [|v embeddings]; simpl; [reflexivity |].
    rewrite HashString_stated, Z.add_0_r. f_equal.
    rewrite IH, <- seq_shift, map_map.
    apply map_ext. intros k. f_equal. lia.
Qed.

(** The points built for the chunks: as many as chunks, and the point
    of chunk [k] carries the identifier stated for its index, the vector
    [k] and the payload of chunk [k]. *)
Lemma build_points_nth doc path basePath relPath vaultName total chunks :
  forall embeddings i,
    length embeddings = length chunks ->
    length (build_points doc path basePath relPath vaultName total
                         chunks embeddings i) = length chunks /\
    forall k chunk,
      nth_error chunks k = Some chunk ->
      exists point,
        nth_error (build_points doc path basePath relPath vaultName total
                                chunks embeddings i) k = Some point /\
        pt_Id point = stated_chunk_id vaultName relPath (i + Z.of_nat k) /\
        nth_error embeddings k = Some (pt_Vector point) /\
        pt_Payload point =
          point_payload doc path basePath relPath vaultName chunk
                        (i + Z.of_nat k) total.
Proof.
  induction chunks as [|chunk0 chunks IH]; intros embeddings i Hlen.
  - split; [reflexivity |]. intros [|k] chunk H; discriminate H.
  - destruct embeddings as [|v embeddings]; [discriminate Hlen |].
    cbn [length] in Hlen.
    destruct (IH embeddings (i + 1) ltac:(lia)) as [IHl IHn].
    cbn [build_points]. split; [cbn [length]; now rewrite IHl |].
    intros [|k] chunk Hk; cbn [nth_error] in *.
    + inversion Hk; subst. eexists. split; [reflexivity |].
      cbn [pt_Id pt_Vector pt_Payload].
      rewrite HashString_stated, Z.add_0_r. repeat split.
    + destruct (IHn k chunk Hk) as [point [Hp [Hid [Hv Hpay]]]].
      exists point. split; [exact Hp |].
      replace (i + Z.of_nat (S k)) with (i + 1 + Z.of_nat k) by lia.
      repeat split; assumption.
Qed.

(** C1.  When indexFile reads and parses a file whose document has chunks
    and the embedder returns one vector for each, it sends one point for
    each chunk to the store, in the order of the chunks, and the point of
    chunk i carries the version-5 UUID of the fixed name space and of
    vaultName ":" relPath "#" i as its identifier, with the vector and the
    payload of chunk i.  The identifier is a function of these three
    values alone: nothing of the chunk, of the clock or of a random state
    enters it. *)
Theorem C1_chunk_id_deterministic (c : Config) (env : file_env)
    (path basePath content : str) (doc : Document)
    (embeddings : list vector) :
  env_read env = inl content ->
  Parse DefaultParseOptions content = (Some doc, None) ->
  chunks_for c doc <> [] ->
  env_embed env (map ch_Content (chunks_for c doc)) = inl embeddings ->
  length embeddings = length (chunks_for c doc) ->
  let bp := if str_eqb basePath [] then findBaseVaultPath c path
            else basePath in
  let vaultName := env_base env bp in
  let relPath := env_rel env bp path in
  let points := snd (indexFile c env path basePath) in
  length points = length (chunks_for c doc) /\
  (forall i chunk,
     nth_error (chunks_for c doc) i = Some chunk ->
     exists point,
       nth_error points i = Some point /\
       pt_Id point = stated_chunk_id vaultName relPath (Z.of_nat i) /\
       nth_error embeddings i = Some (pt_Vector point) /\
       pt_Payload point =
         point_payload doc path bp relPath vaultName chunk (Z.of_nat i)
                       (Z.of_nat (length (chunks_for c doc)))) /\
  map pt_Id points =
    map (fun i => stated_chunk_id vaultName relPath (Z.of_nat i))
        (seq 0 (length (chunks_for c doc))) /\
  fst (indexFile c env path basePath) =
    match env_upsert env points with
    | Some err => Some (lit "failed to store embeddings: " ++ err)
    | None => None
    end.
Proof.
  intros Hread Hparse Hchunks Hembed Hlen bp vaultName relPath points.
  subst points. unfold indexFile.
  rewrite Hread, Hparse.
  destruct (chunks_for c doc) as [|chunk chunks] eqn:Hc; [contradiction |].
  rewrite Hembed, Hlen, Nat.eqb_refl. cbn [negb].
  fold bp. fold vaultName. fold relPath.
  destruct (@build_points_nth doc path bp relPath vaultName
              (Z.of_nat (length (chunk :: chunks))) (chunk :: chunks)
              embeddings 0 Hlen) as [Hl Hn].
  pose proof (build_points_ids doc path bp relPath vaultName
                (Z.of_nat (length (chunk :: chunks))) (chunk :: chunks)
                embeddings 0) as Hids.
  rewrite Hl in Hids.
  set (built := build_points doc path bp relPath vaultName
                  (Z.of_nat (length (chunk :: chunks))) (chunk :: chunks)
                  embeddings 0) in *.
  assert (Hnth : forall i chunk0,
             nth_error (chunk :: chunks) i = Some chunk0 ->
             exists point,
               nth_error built i = Some point /\
               pt_Id point = stated_chunk_id vaultName relPath (Z.of_nat i) /\
               nth_error embeddings i = Some (pt_Vector point) /\
               pt_Payload point =
                 point_payload doc path bp relPath vaultName chunk0
                               (Z.of_nat i)
                               (Z.of_nat (length (chunk :: chunks)))).
  { intros i chunk0 Hi. destruct (Hn i chunk0 Hi) as [point H].
    exists point. exact H. }
  destruct (env_upsert env built) as [err|] eqn:Hup; cbn [fst snd];
    rewrite Hup; repeat split; assumption.
Qed.

(** A file with two sections, indexed with the header strategy in the
    vault "V" as "n.md": two points, with the version-5 UUIDs of
    "V:n.md#0" and "V:n.md#1". *)
Definition two_sections : str :=
  lit "# One" ++ [nl; nl] ++ lit "alpha" ++ [nl] ++
  lit "# Two" ++ [nl; nl] ++ lit "beta".

Definition header_config : Config :=
  {| Paths_VaultPaths := [lit "/V"]; Paths_VaultPath := [];
     Indexing_ChunkStrategy := lit "header";
     Indexing_MaxChunkSize := 1000; Indexing_WindowOverlap := 100;
     Qdrant_Collection := lit "obsidian" |}.

Definition plain_env : file_env :=
  {| env_read := inl two_sections;
     env_rel := fun _ _ => lit "n.md";
     env_base := fun _ => lit "V";
     env_embed := fun texts => inl (map (fun _ => [1]) texts);
     env_upsert := fun _ => None |}.

Lemma indexFile_two_sections :
  fst (indexFile header_config plain_env (lit "/V/n.md") (lit "/V")) = None /\
  map pt_Id (snd (indexFile header_config plain_env (lit "/V/n.md") (lit "/V")))
  = [lit "f274524c-3445-5bb5-a42c-0525e792ff41";
     lit "705c7fef-ecac-5826-84d8-ae4b335456e1"].
Proof. vm_compute. split; reflexivity. Qed.

(** The document of that file, as Parse returns it. *)
Definition two_sections_doc : Document :=
  Eval vm_compute in
    match Parse DefaultParseOptions two_sections with
    | (Some doc, _) => doc
    | (None, _) =>
        {| doc_Title := []; doc_Path := []; doc_Content := [];
           doc_Frontmatter := None; doc_Sections := []; doc_Tags := [] |}
    end.

Lemma two_sections_parsed :
  Parse DefaultParseOptions two_sections = (Some two_sections_doc, None).
Proof. vm_compute. reflexivity. Qed.

Lemma C1_witness :
  length (snd (indexFile header_config plain_env (lit "/V/n.md") (lit "/V")))
  = 2%nat /\
  map pt_Id (snd (indexFile header_config plain_env (lit "/V/n.md") (lit "/V")))
  = [stated_chunk_id (lit "V") (lit "n.md") 0;
     stated_chunk_id (lit "V") (lit "n.md") 1].
Proof.
  assert (Hchunks : length (chunks_for header_config two_sections_doc) = 2%nat)
    by (vm_compute; reflexivity).
  assert (Hne : chunks_for header_config two_sections_doc <> []).
  { intros E. rewrite E in Hchunks. discriminate Hchunks. }
  destruct (@C1_chunk_id_deterministic header_config plain_env
              (lit "/V/n.md") (lit "/V") two_sections two_sections_doc
              (map (fun _ => [1])
                   (map ch_Content (chunks_for header_config two_sections_doc)))
              eq_refl two_sections_parsed Hne eq_refl
              ltac:(now rewrite !length_map))
    as [Hlen [_ [Hids _]]].
  rewrite Hchunks in Hlen, Hids. split; [exact Hlen | exact Hids].
Defined.

End ChunkIds.

(* ================================================================= *)
(** ** Text search: filters and order                                 *)
(* ================================================================= *)

Section SearchFilter.
Import Model Indexer.
Open Scope Z_scope.

Variable score : Type.
Variable score_lt : score -> score -> bool.
Variable score_zero : score.

(** The order of the scores is a strict weak order, as the order of
    floating-point numbers is on the numbers that are not NaN. *)
Hypothesis score_lt_asym :
  forall a b, score_lt a b = true -> score_lt b a = false.
Hypothesis score_lt_negtrans :
  forall a b c, score_lt a b = false -> score_lt b c = false ->
                score_lt a c = false.

Let result := SearchResult score.

(** [a] may stand before [b]: its score is not below the score of [b]. *)
Definition not_below (a b : result) : Prop :=
  score_lt (res_Score a) (res_Score b) = false.

(** What the filters leave: the path begins with the prefix, and when
    tags are asked for, one of them is a tag of the result. *)
Definition passes (options : SearchOptions score) (r : result) : Prop :=
  (exists rest, res_Path r = PathPrefix options ++ rest) /\
  (Tags options <> [] ->
   exists t, In t (Tags options) /\ In t (res_Tags r)).

Lemma tag_matched_In wanted tags :
  tag_matched wanted tags = true ->
  exists t, In t wanted /\ In t tags.
Proof.
  unfold tag_matched. intros H.
  apply existsb_exists in H as [t [Ht H]].
  apply existsb_exists in H as [t' [Ht' H]].
  apply str_eqb_eq in H. subst t'. now exists t.
Qed.

Lemma to_result_passes options point r :
  to_result score_lt score_zero options point = Some r -> passes options r.
Proof.
  unfold to_result.
  destruct (score_lt score_zero (MinScore options) && _); [absurd_eq |].
  destruct (negb (str_eqb (PathPrefix options) []) && _) eqn:Hp; [absurd_eq |].
  destruct ((0 <? Z.of_nat (length (Tags options))) && _) eqn:Ht; [absurd_eq |].
  intros H. inversion H; subst; clear H. split; simpl.
  - apply andb_false_iff in Hp as [Hp | Hp].
    + apply negb_false_iff, str_eqb_eq in Hp. rewrite Hp.
      eexists. reflexivity.
    + apply negb_false_iff in Hp. now apply HasPrefix_app.
  - intros Hne. apply andb_false_iff in Ht as [Ht | Ht].
    + destruct (Tags options); [contradiction | discriminate Ht].
    + apply negb_false_iff in Ht. now apply tag_matched_In.
Qed.

Lemma filter_results_passes options points :
  Forall (passes options)
         (filter_results score_lt score_zero options points).
Proof.
  induction points as [|point points IH]; simpl; [constructor |].
  destruct (to_result _ _ _ _) as [r|] eqn:Hr; [| exact IH].
  constructor; [eapply to_result_passes; exact Hr | exact IH].
Qed.

Lemma insert_by_Forall (P : result -> Prop) less x l :
  P x -> Forall P l -> Forall P (insert_by less x l).
Proof.
  intros Hx H. induction H as [|y l Hy H IH]; simpl.
  - now constructor.
  - destruct (less y x); repeat constructor; assumption.
Qed.

Lemma sort_Slice_Forall (P : result -> Prop) less l :
  Forall P l -> Forall P (sort_Slice less l).
Proof.
  induction 1 as [|x l Hx H IH]; simpl; [constructor |].
  now apply insert_by_Forall.
Qed.

Lemma insert_by_sorted x l :
  StronglySorted not_below l ->
  StronglySorted not_below (insert_by (by_score score_lt) x l).
Proof.
  induction 1 as [|y l Hs IH Hy]; simpl.
  - repeat constructor.
  - unfold by_score at 1. destruct (score_lt (res_Score x) (res_Score y)) eqn:Hxy.
    + constructor; [exact IH |].
      apply insert_by_Forall; [| exact Hy].
      unfold not_below. now apply score_lt_asym.
    + constructor; [now constructor |].
      constructor; [exact Hxy |].
      eapply Forall_impl; [| exact Hy].
      intros z Hz. unfold not_below in *.
      now apply score_lt_negtrans with (b := res_Score y).
Qed.

Lemma sort_Slice_sorted l :
  StronglySorted not_below (sort_Slice (by_score score_lt) l).
Proof.
  induction l as [|x l IH]; simpl; [constructor | now apply insert_by_sorted].
Qed.

(** The sort keeps the results: it returns a permutation of them. *)
Lemma insert_by_perm (less : result -> result -> bool) x l :
  Permutation (x :: l) (insert_by less x l).
Proof.
  induction l as [|y l IH]; simpl; [reflexivity |].
  destruct (less y x); [| reflexivity].
  rewrite perm_swap. now constructor.
Qed.

Lemma sort_Slice_perm (less : result -> result -> bool) l :
  Permutation l (sort_Slice less l).
Proof.
  induction l as [|x l IH]; simpl; [constructor |].
  rewrite <- insert_by_perm. now constructor.
Qed.

(** C6.  Every result that Search returns has a path that begins with
    the path prefix asked for and, when tags are asked for, has one of
    them among its tags; and the results come with the highest score
    first: no result has a score below that of a later one. *)
Theorem C6_search_filter_and_order
    (embed : list str -> list vector + str)
    (qdrant_Search : vector -> Z -> Z -> list (ScoredPoint score) + str)
    (query : str) (options : SearchOptions score) (results : list result) :
  Search score_lt score_zero embed qdrant_Search query options = inl results ->
  Forall (passes options) results /\ StronglySorted not_below results.
Proof.
  unfold Search.
  destruct (embed [query]) as [[|queryVector ?] | err]; try absurd_eq.
  destruct (qdrant_Search _ _ _) as [searchPoints | err]; [| absurd_eq].
  intros H. inversion H; subst; clear H. split.
  - apply sort_Slice_Forall, filter_results_passes.
  - apply sort_Slice_sorted.
Qed.

End SearchFilter.

Section SearchExample.
Import Model Indexer.
Open Scope Z_scope.

(** Three stored points, with scores in thousandths. *)
Definition point (path : string) (tags : list str) (s : Z)
    : ScoredPoint Z :=
  {| sp_Score := s;
     sp_Payload :=
       [(lit "path", StringValue (lit path));
        (lit "tags", ListValue (map StringValue tags))] |}.

Definition stored : list (ScoredPoint Z) :=
  [point "work/a.md" [lit "x"; lit "y"] 700;
   point "home/b.md" [lit "y"] 950;
   point "work/c.md" [lit "y"] 900;
   point "work/d.md" [lit "z"] 990].

Definition asked : SearchOptions Z :=
  {| Limit := 10; Offset := 0; MinScore := 600;
     Tags := [lit "y"]; PathPrefix := lit "work/" |}.

Definition answer : list (SearchResult Z) + str :=
  Search Z.ltb 0 (fun _ => inl [[1]]) (fun _ _ _ => inl stored)
         (lit "query") asked.

Lemma C6_witness :
  exists results,
    answer = inl results /\
    map (fun r => res_Score r) results = [900; 700] /\
    Forall (passes asked) results /\
    StronglySorted (not_below Z.ltb) results.
Proof.
  eexists. split; [vm_compute; reflexivity |]. split; [reflexivity |].
  apply (@C6_search_filter_and_order Z Z.ltb 0) with
    (embed := fun _ => inl [[1]]) (qdrant_Search := fun _ _ _ => inl stored)
    (query := lit "query").
  - intros a b H. apply Z.ltb_lt in H. apply Z.ltb_ge. lia.
  - intros a b c H1 H2. apply Z.ltb_ge in H1, H2. apply Z.ltb_ge. lia.
  - vm_compute. reflexivity.
Defined.

End SearchExample.

(* ================================================================= *)
(** ** The matcher moves forward                                      *)
(* ================================================================= *)

Section RegexpFacts.
Import Regexp.

(** [c'] is reached from [c] by reading the bytes [w]. *)
Definition advances (c c' : cursor) : Prop :=
  exists w, rest c = w ++ rest c' /\ pos c' = pos c + length w.

Lemma advances_refl c : advances c c.
Proof. exists []. split; [reflexivity | simpl; lia]. Qed.

Lemma advances_trans c1 c2 c3 :
  advances c1 c2 -> advances c2 c3 -> advances c1 c3.
Proof.
  intros [w1 [H1 P1]] [w2 [H2 P2]]. exists (w1 ++ w2). split.
  - now rewrite H1, H2, app_assoc.
  - rewrite length_app. lia.
Qed.

Lemma advances_step pv c rs ps :
  advances (Cursor pv (c :: rs) ps) (Cursor (Some c) rs (S ps)).
Proof. exists [c]. split; [reflexivity | simpl; lia]. Qed.

Lemma advances_pos c c' : advances c c' -> pos c <= pos c'.
Proof. intros [w [_ H]]. lia. Qed.

Lemma rep_advances (A : Type) g p (k : cursor -> option A) a :
  forall rs lo hi pv ps,
    rep g p lo hi pv rs ps k = Some a ->
    exists c', k c' = Some a /\ advances (Cursor pv rs ps) c'.
Proof.
  assert (Hstop : forall lo pv rs ps,
             match lo with O => k (Cursor pv rs ps) | S _ => None end = Some a ->
             exists c', k c' = Some a /\ advances (Cursor pv rs ps) c').
  { intros [|lo] pv rs ps H; [| discriminate H].
    eexists. split; [exact H | apply advances_refl]. }
  induction rs as [|c rs IH]; intros lo hi pv ps H.
  - destruct g; simpl in H; [now apply Hstop in H |].
    destruct (match lo with O => _ | S _ => None end) eqn:E; [| discriminate H].
    inversion H; subst. now apply Hstop in E.
  - assert (Hmore :
        (if p c && room hi
         then rep g p (pred lo) (dec hi) (Some c) rs (S ps) k else None)
        = Some a ->
        exists c', k c' = Some a /\ advances (Cursor pv (c :: rs) ps) c').
    { destruct (p c && room hi); [| absurd_eq]. intros H'.
      apply IH in H' as [c' [Hk Ha]]. exists c'. split; [exact Hk |].
      eapply advances_trans; [apply advances_step | exact Ha]. }
    destruct g; simpl in H.
    + destruct (if p c && room hi then _ else None) eqn:E.
      * inversion H; subst. now apply Hmore.
      * now apply Hstop in H.
    + destruct (match lo with O => _ | S _ => None end) eqn:E.
      * inversion H; subst. now apply Hstop in E.
      * now apply Hmore.
Qed.

Lemma exec_advances (A : Type) r :
  forall cur cs (k : cursor -> caps -> option A) a,
    exec r cur cs k = Some a ->
    exists cur' cs', k cur' cs' = Some a /\ advances cur cur'.
Proof.
  induction r as [| p | | | | | r1 IH1 r2 IH2 | r1 IH1 r2 IH2
                  | g p lo hi | i r1 IH1];
    intros cur cs k a H; simpl in H.
  - exists cur, cs. split; [exact H | apply advances_refl].
  - destruct cur as [pv rs ps]. simpl in H.
    destruct rs as [|c rs]; [discriminate H |].
    destruct (p c); [| discriminate H].
    eexists _, cs. split; [exact H | apply advances_step].
  - destruct (prev cur); [discriminate H |].
    exists cur, cs. split; [exact H | apply advances_refl].
  - destruct (rest cur); [| discriminate H].
    exists cur, cs. split; [exact H | apply advances_refl].
  - exists cur, cs. split; [| apply advances_refl].
    destruct (prev cur) as [c|]; [| exact H].
    destruct (byte_eqb c nl); [exact H | discriminate H].
  - exists cur, cs. split; [| apply advances_refl].
    destruct (rest cur) as [|c ?]; [exact H |].
    destruct (byte_eqb c nl); [exact H | discriminate H].
  - apply IH1 in H as [cur1 [cs1 [H Ha1]]].
    apply IH2 in H as [cur2 [cs2 [H Ha2]]].
    exists cur2, cs2. split; [exact H | eapply advances_trans; eassumption].
  - destruct (exec r1 cur cs k) eqn:E.
    + inversion H; subst. now apply IH1 in E.
    + now apply IH2 in H.
  - apply rep_advances in H as [c' [H Ha]].
    exists c', cs. split; [exact H |].
    destruct cur; exact Ha.
  - apply IH1 in H as [cur1 [cs1 [H Ha1]]].
    eexists _, _. split; [exact H | exact Ha1].
Qed.

(** A match found from a position starts at or after it, ends at or after
    its start, and ends at a position reached from the first one. *)
Lemma search_from_advances r : forall rs pv ps m,
  search_from r pv rs ps = Some m ->
  ps <= f_start m /\ f_start m <= f_end m /\
  advances (Cursor pv rs ps) (snd (fst m)).
Proof.
  induction rs as [|c rs IH]; intros pv ps m H; simpl in H.
  - destruct (exec r _ _ _) as [[c' cs']|] eqn:E; [| discriminate H].
    inversion H; subst; clear H.
    apply exec_advances in E as [cur' [cs'' [E Ha]]]. inversion E; subst.
    unfold f_start, f_end. simpl. split; [lia |].
    split; [apply (advances_pos Ha) | exact Ha].
  - destruct (exec r _ _ _) as [[c' cs']|] eqn:E.
    + inversion H; subst; clear H.
      apply exec_advances in E as [cur' [cs'' [E Ha]]]. inversion E; subst.
      unfold f_start, f_end. simpl. split; [lia |].
      split; [apply (advances_pos Ha) | exact Ha].
    + apply IH in H as [H1 [H2 H3]]. split; [lia |]. split; [exact H2 |].
      eapply advances_trans; [apply advances_step | exact H3].
Qed.

(** The cursor [c] is a position of [text]. *)
Definition position_of (text : str) (c : cursor) : Prop :=
  rest c = skipn (pos c) text /\ pos c <= length text.

Lemma advances_position text c c' :
  advances c c' -> position_of text c -> position_of text c'.
Proof.
  intros [w [Hw Hp]] [Hr Hl]. unfold position_of.
  assert (Hlen : length w + length (rest c') = length text - pos c).
  { rewrite <- length_app, <- Hw, Hr. apply length_skipn. }
  split; [| lia].
  rewrite Hp, Nat.add_comm, <- skipn_skipn, <- Hr, Hw.
  rewrite skipn_app, skipn_all, Nat.sub_diag. reflexivity.
Qed.

(** Matches in order: each starts at or after the end of the one before
    and ends at or after its start, from [lo] up to [n]. *)
Fixpoint ordered (lo : nat) (ms : list found) (n : nat) : Prop :=
  match ms with
  | [] => lo <= n
  | m :: ms' =>
      lo <= f_start m /\ f_start m <= f_end m /\ ordered (f_end m) ms' n
  end.

Lemma ordered_weaken lo lo' ms n :
  lo' <= lo -> ordered lo ms n -> ordered lo' ms n.
Proof. destruct ms; simpl; intros; [lia | intuition lia]. Qed.

Lemma find_all_from_ordered r text fuel : forall cur pe,
  position_of text cur ->
  ordered (pos cur) (find_all_from fuel r cur pe) (length text).
Proof.
  induction fuel as [|fuel IH]; intros cur pe Hc; simpl.
  - apply Hc.
  - destruct (search_from r (prev cur) (rest cur) (pos cur)) as [m|] eqn:E;
      [| apply Hc].
    apply search_from_advances in E as [H1 [H2 H3]].
    assert (He : position_of text (snd (fst m))).
    { eapply advances_position; [exact H3 |]. destruct cur; exact Hc. }
    destruct (f_end m =? pos cur) eqn:Heq.
    + apply Nat.eqb_eq in Heq.
      assert (Ht : ordered (pos cur)
                     match rest cur with
                     | [] => []
                     | c :: rs' =>
                         find_all_from fuel r (Cursor (Some c) rs' (S (pos cur)))
                                       (Some (f_end m))
                     end (length text)).
      { destruct cur as [pv [|c rs] ps]; simpl in *; [apply Hc |].
        apply ordered_weaken with (lo := S ps); [lia |].
        apply (IH (Cursor (Some c) rs (S ps))).
        eapply advances_position; [apply advances_step | exact Hc]. }
      destruct (match pe with Some p => f_start m =? p | None => false end);
        [exact Ht |].
      simpl. split; [exact H1 |]. split; [exact H2 |].
      eapply ordered_weaken; [| exact Ht]. lia.
    + simpl. split; [exact H1 |]. split; [exact H2 |]. now apply IH.
Qed.

Lemma FindAll_ordered r text : ordered 0 (FindAll r text) (length text).
Proof.
  apply (@find_all_from_ordered r text (S (length text)) (Cursor None text 0)
           None).
  split; [reflexivity | simpl; lia].
Qed.

(** The fuel of [FindAll] is enough: more fuel finds the same matches. *)
Lemma find_all_from_fuel r fuel : forall fuel' cur pe,
  length (rest cur) < fuel -> length (rest cur) < fuel' ->
  find_all_from fuel r cur pe = find_all_from fuel' r cur pe.
Proof.
  induction fuel as [|fuel IH]; intros fuel' cur pe H H'; [lia |].
  destruct fuel' as [|fuel']; [lia |]. simpl.
  destruct (search_from r (prev cur) (rest cur) (pos cur)) as [m|] eqn:E;
    [| reflexivity].
  apply search_from_advances in E as [H1 [H2 [w [Hw Hp]]]]. simpl in Hw, Hp.
  destruct (f_end m =? pos cur) eqn:Heq.
  - destruct cur as [pv [|c rs] ps]; simpl in *; [reflexivity |].
    rewrite (IH fuel') by (simpl; lia). reflexivity.
  - apply Nat.eqb_neq in Heq. unfold f_end in Heq. f_equal.
    assert (Hl : length (rest cur) = length w + length (rest (snd (fst m))))
      by (now rewrite Hw, length_app).
    apply IH; lia.
Qed.

Lemma FindAll_fuel r text fuel :
  length text < fuel ->
  FindAll r text = find_all_from fuel r (Cursor None text 0) None.
Proof. intros H. apply find_all_from_fuel; simpl; lia. Qed.

(** The matcher on some headings: the offsets of the matches, of the
    run of hashes and of the title.  A heading of seven hashes is none;
    white space after the hashes may run over line ends. *)
Definition offsets (m : found) : nat * nat * (nat * nat) * (nat * nat) :=
  (f_start m, f_end m, group (f_caps m) 1, group (f_caps m) 2).

Lemma headers_found :
  map offsets
      (FindAll Markdown.headerRegex
         (lit "pre" ++ [nl] ++ lit "## Title here" ++ [nl] ++ lit "body" ++
          [nl] ++ lit "####### no" ++ [nl] ++ lit "#" ++ [nl] ++ lit "x"))
  = [(4, 17, (4, 6), (7, 17)); (34, 37, (34, 35), (36, 37))].
Proof. vm_compute. reflexivity. Qed.

End RegexpFacts.

(* ================================================================= *)
(** ** Parsing: sections and frontmatter                              *)
(* ================================================================= *)

Section Parsing.
Import Regexp Markdown.

Lemma firstn_firstn_skipn (l : str) : forall a b,
  firstn a l ++ firstn b (skipn a l) = firstn (a + b) l.
Proof.
  induction l as [|x l IH]; intros [|a] b; simpl;
    try reflexivity; try (now rewrite firstn_nil).
  now rewrite IH.
Qed.

Lemma slice_app (l : str) i j k :
  i <= j -> j <= k -> slice l i j ++ slice l j k = slice l i k.
Proof.
  intros Hij Hjk. unfold slice.
  replace (skipn j l) with (skipn (j - i) (skipn i l))
    by (rewrite skipn_skipn; f_equal; lia).
  rewrite firstn_firstn_skipn. f_equal. lia.
Qed.

Lemma slice_to_end (l : str) i : slice l i (length l) = skipn i l.
Proof.
  unfold slice. apply firstn_all2. rewrite length_skipn. lia.
Qed.

(** Where the first of the matches starts; the end of the content when
    there is none. *)
Definition first_start (content : str) (ms : list found) : nat :=
  match ms with
  | [] => length content
  | m :: _ => f_start m
  end.

Lemma ordered_bounds content ms lo :
  ordered lo ms (length content) ->
  lo <= first_start content ms /\ first_start content ms <= length content.
Proof.
  revert lo. induction ms as [|m ms IH]; intros lo H; simpl in *; [lia |].
  destruct H as [H1 [H2 H3]]. apply IH in H3. lia.
Qed.

(** The text of a heading followed by the content of its section. *)
Definition heading_and_content (content : str) (hs : found * MdSection)
    : str :=
  slice content (f_start (fst hs)) (f_end (fst hs)) ++ sec_Content (snd hs).

Lemma sections_of_length content ms :
  length (sections_of content ms) = length ms.
Proof.
  induction ms as [|m ms IH]; simpl; [reflexivity |].
  destruct (group (f_caps m) 1), (group (f_caps m) 2). simpl. now rewrite IH.
Qed.

Lemma sections_of_cover content : forall ms lo,
  ordered lo ms (length content) ->
  concat (map (heading_and_content content)
              (combine ms (sections_of content ms)))
  = slice content (first_start content ms) (length content).
Proof.
  induction ms as [|m ms IH]; intros lo H; simpl.
  - unfold slice. now rewrite Nat.sub_diag.
  - destruct H as [H1 [H2 H3]].
    destruct (group (f_caps m) 1) as [levelStart levelEnd].
    destruct (group (f_caps m) 2) as [titleStart titleEnd].
    simpl. rewrite (IH _ H3). unfold heading_and_content. simpl.
    apply ordered_bounds in H3 as [H4 H5].
    change (match ms with [] => length content | m' :: _ => f_start m' end)
      with (first_start content ms).
    rewrite <- app_assoc, (slice_app content H4 H5).
    apply slice_app; lia.
Qed.

(** C2 (as amended).  When the body has no heading, the content of its
    one section is the body.  When it has headings, there is one section
    for each, and the texts of the headings, each followed by the content
    of its section, add up to the body from the start of the first
    heading on: the content of a section does not hold the heading line
    itself. *)
Theorem C2_sections_cover_body (body : str) :
  match FindAll headerRegex body with
  | [] => concat (map sec_Content (parseSections body)) = body
  | m :: ms =>
      length (parseSections body) = length (m :: ms) /\
      concat (map (heading_and_content body)
                  (combine (m :: ms) (parseSections body)))
      = skipn (f_start m) body
  end.
Proof.
  pose proof (FindAll_ordered headerRegex body) as Ho.
  pose proof (sections_of_length body (FindAll headerRegex body)) as Hl.
  pose proof (@sections_of_cover body _ 0 Ho) as Hc.
  unfold parseSections.
  destruct (FindAll headerRegex body) as [|m ms].
  - simpl. apply app_nil_r.
  - destruct (sections_of body (m :: ms)) as [|s ss] eqn:Hs;
      [simpl in Hl; discriminate Hl |].
    split; [exact Hl |]. rewrite Hc. apply slice_to_end.
Qed.

(** The sections of a parsed document are those of its body: the content
    without the frontmatter block. *)
Lemma Parse_sections p content doc :
  Parse p content = (Some doc, None) ->
  doc_Sections doc =
  parseSections (if ExtractFrontmatter p
                 then snd (fst (extractFrontmatter content)) else content).
Proof.
  unfold Parse. destruct (ExtractFrontmatter p).
  - unfold extractFrontmatter.
    destruct (Find frontmatterRegex content) as [m|].
    + destruct (group (f_caps m) 1), (group (f_caps m) 2). simpl.
      intros H. inversion H. reflexivity.
    + simpl. intros H. inversion H. reflexivity.
  - intros H. inversion H. reflexivity.
Qed.

(** A body with one heading and one line. *)
Definition heading_and_line : str := lit "# A" ++ [nl] ++ lit "x".

(** C2, as stated, fails: for the body "# A", newline, "x" the one
    section has the content newline, "x", which is not the body. *)
Lemma C2_counterexample :
  ~ (forall content doc,
        Parse DefaultParseOptions content = (Some doc, None) ->
        concat (map sec_Content (doc_Sections doc))
        = snd (fst (extractFrontmatter content))).
Proof.
  intros H.
  specialize (H heading_and_line
                (match fst (Parse DefaultParseOptions heading_and_line) with
                 | Some doc => doc
                 | None =>
                     {| doc_Title := []; doc_Path := []; doc_Content := [];
                        doc_Frontmatter := None; doc_Sections := [];
                        doc_Tags := [] |}
                 end)
                eq_refl).
  vm_compute in H. discriminate H.
Qed.

(** *** Parse returns a document *)

Lemma extractFrontmatter_no_error content :
  snd (extractFrontmatter content) = None.
Proof.
  unfold extractFrontmatter. destruct (Find frontmatterRegex content) as [m|];
    [| reflexivity].
  destruct (group (f_caps m) 1), (group (f_caps m) 2). reflexivity.
Qed.

(** The frontmatter pattern begins with the beginning of the text: it
    matches nowhere after the first position. *)
Lemma search_from_begin_text r : forall rs c ps,
  search_from (Seq BeginText r) (Some c) rs ps = None.
Proof.
  induction rs as [|c' rs IH]; intros c ps; simpl; [reflexivity | apply IH].
Qed.

Lemma byte_eqb_sym a b : byte_eqb a b = byte_eqb b a.
Proof. apply Ascii.eqb_sym. Qed.

Lemma Find_frontmatter_no_fence content :
  HasPrefix content (lit "---") = false ->
  Find frontmatterRegex content = None.
Proof.
  intros H. unfold Find, frontmatterRegex.
  change (seqs (BeginText :: Lit "---" :: ?tl))
    with (Seq BeginText (Seq (Seq (Chr "-") (Seq (Chr "-") (Chr "-")))
                             (seqs tl))).
  assert (Hd : forall c, byte_eqb "-" c = byte_eqb c "-")
    by (intros; apply byte_eqb_sym).
  destruct content as [|a content]; [reflexivity |].
  cbn [search_from exec prev rest pos Chr]. rewrite Hd.
  destruct (byte_eqb a "-") eqn:Ea; [| apply search_from_begin_text].
  destruct content as [|b content]; [apply search_from_begin_text |].
  cbn [exec rest pos]. rewrite Hd.
  destruct (byte_eqb b "-") eqn:Eb; [| apply search_from_begin_text].
  destruct content as [|c content]; [apply search_from_begin_text |].
  cbn [exec rest pos]. rewrite Hd.
  destruct (byte_eqb c "-") eqn:Ec; [| apply search_from_begin_text].
  simpl in H. rewrite Ea, Eb, Ec in H. destruct content; discriminate H.
Qed.

(** C9.  Parse returns a document and no error for every content and
    every choice of options; extractFrontmatter returns no error for
    every content; and content that does not begin with the fence
    comes back unchanged, with no frontmatter. *)
Theorem C9_parse_total (p : ParseOptions) (content : str) :
  (exists doc, Parse p content = (Some doc, None)) /\
  snd (extractFrontmatter content) = None /\
  (HasPrefix content (lit "---") = false ->
   extractFrontmatter content = (None, content, None)).
Proof.
  split; [| split].
  - pose proof (extractFrontmatter_no_error content) as He.
    unfold Parse. destruct (ExtractFrontmatter p); [| eexists; reflexivity].
    destruct (extractFrontmatter content) as [[[fm|] body] err];
      simpl in He; subst err; eexists; reflexivity.
  - apply extractFrontmatter_no_error.
  - intros H. unfold extractFrontmatter.
    now rewrite Find_frontmatter_no_fence.
Qed.

Lemma C9_witness :
  extractFrontmatter heading_and_line = (None, heading_and_line, None).
Proof.
  apply (proj2 (proj2 (C9_parse_total DefaultParseOptions heading_and_line))).
  reflexivity.
Defined.

End Parsing.

(* ================================================================= *)
(** ** The vault of a file and the list of vaults                     *)
(* ================================================================= *)

Section Vaults.
Import Indexer ConfigPaths.
Open Scope Z_scope.

Lemma HasPrefix_same_length path : forall a b,
  HasPrefix path a = true -> HasPrefix path b = true ->
  length a = length b -> a = b.
Proof.
  induction path as [|c path IH]; intros [|x a] [|y b] Ha Hb Hl;
    simpl in *; try discriminate; try reflexivity.
  apply andb_true_iff in Ha as [Hx Ha]. apply andb_true_iff in Hb as [Hy Hb].
  apply byte_eqb_eq in Hx, Hy. subst x y. f_equal.
  apply IH; [exact Ha | exact Hb | now inversion Hl].
Qed.

(** The loop keeps a prefix of the path that is at least as long as every
    prefix among the vault paths seen. *)
Lemma best_match_longest path vaultPaths : forall b n,
  n = len b ->
  (b = [] \/ HasPrefix path b = true) ->
  (best_match path vaultPaths b n = b \/
   In (best_match path vaultPaths b n) vaultPaths) /\
  (best_match path vaultPaths b n = [] \/
   HasPrefix path (best_match path vaultPaths b n) = true) /\
  len b <= len (best_match path vaultPaths b n) /\
  (forall v, In v vaultPaths -> HasPrefix path v = true ->
             len v <= len (best_match path vaultPaths b n)).
Proof.
  induction vaultPaths as [|v0 rest IH]; intros b n Hn Hb; simpl.
  - repeat split; [now left | exact Hb | lia | intros v []].
  - destruct (HasPrefix path v0) eqn:Hp; simpl.
    + destruct (len v0 >? n) eqn:Hlen.
      * destruct (IH v0 (len v0) eq_refl (or_intror Hp))
          as [Hin [Hpre [Hle Hmax]]].
        apply Z.gtb_lt in Hlen.
        repeat split.
        -- right. destruct Hin as [-> | Hin]; [now left | now right].
        -- exact Hpre.
        -- lia.
        -- intros v [<- | Hv] Hv'; [exact Hle | now apply Hmax].
      * destruct (IH b n Hn Hb) as [Hin [Hpre [Hle Hmax]]].
        assert (len v0 <= n) by (destruct (Z.gtb_spec (len v0) n); [discriminate | lia]).
        repeat split.
        -- destruct Hin as [-> | Hin]; [now left | right; now right].
        -- exact Hpre.
        -- exact Hle.
        -- intros v [<- | Hv] Hv'; [lia | now apply Hmax].
    + destruct (IH b n Hn Hb) as [Hin [Hpre [Hle Hmax]]].
      repeat split.
      * destruct Hin as [-> | Hin]; [now left | right; now right].
      * exact Hpre.
      * exact Hle.
      * intros v [<- | Hv] Hv'; [congruence | now apply Hmax].
Qed.

(** X1: when some configured vault path, not the empty one, is a prefix
    of the file path, findBaseVaultPath returns a configured vault path
    that is a prefix of the file path and the longest such one; every
    configured prefix of that length is the one returned, so the order of
    the vault paths does not matter. *)
Theorem findBaseVaultPath_most_specific (c : Config) (path v : str) :
  In v (GetVaultPaths c) -> v <> [] -> HasPrefix path v = true ->
  In (findBaseVaultPath c path) (GetVaultPaths c) /\
  HasPrefix path (findBaseVaultPath c path) = true /\
  (forall v', In v' (GetVaultPaths c) -> HasPrefix path v' = true ->
              len v' <= len (findBaseVaultPath c path) /\
              (len v' = len (findBaseVaultPath c path) ->
               v' = findBaseVaultPath c path)).
Proof.
  intros Hin Hne Hpre.
  assert (Hgoal :
    In (findBaseVaultPath c path) (GetVaultPaths c) /\
    HasPrefix path (findBaseVaultPath c path) = true /\
    (forall v', In v' (GetVaultPaths c) -> HasPrefix path v' = true ->
                len v' <= len (findBaseVaultPath c path))).
  { unfold findBaseVaultPath.
    destruct (best_match_longest path (GetVaultPaths c) (b := []) eq_refl
                                 (or_introl eq_refl))
      as [Hb [Hp [_ Hmax]]].
    assert (Hlen : len v <= len (best_match path (GetVaultPaths c) [] 0))
      by now apply Hmax.
    assert (Hnonempty : best_match path (GetVaultPaths c) [] 0 <> []).
    { intros E. rewrite E in Hlen. destruct v; [congruence |].
      unfold len in Hlen. simpl in Hlen. lia. }
    assert (Heqb : str_eqb (best_match path (GetVaultPaths c) [] 0) [] = false).
    { destruct (str_eqb _ []) eqn:E; [| reflexivity].
      apply str_eqb_eq in E. contradiction. }
    destruct (GetVaultPaths c) as [|only [|second rest]] eqn:Hv.
    - destruct Hin.
    - destruct Hin as [<- | []]. repeat split.
      + now left.
      + exact Hpre.
      + intros v' [<- | []] _. lia.
    - rewrite Heqb. simpl negb. cbv iota. repeat split.
      + destruct Hb as [E | Hb]; [contradiction | exact Hb].
      + destruct Hp as [E | Hp]; [contradiction | exact Hp].
      + exact Hmax. }
  destruct Hgoal as [H1 [H2 H3]]. repeat split; try assumption.
  - now apply H3.
  - intros Hl. apply (HasPrefix_same_length path); try assumption.
    unfold len in Hl. lia.
Qed.

Definition nested_vaults : Config :=
  {| Paths_VaultPaths := [lit "/notes"; lit "/notes/work"];
     Paths_VaultPath := lit "/notes";
     Indexing_ChunkStrategy := lit "hybrid";
     Indexing_MaxChunkSize := 1000;
     Indexing_WindowOverlap := 100;
     Qdrant_Collection := lit "obsfind" |}.

Lemma findBaseVaultPath_most_specific_witness :
  findBaseVaultPath nested_vaults (lit "/notes/work/a.md") = lit "/notes/work" /\
  In (findBaseVaultPath nested_vaults (lit "/notes/work/a.md"))
     (GetVaultPaths nested_vaults).
Proof.
  split; [reflexivity |].
  apply (@findBaseVaultPath_most_specific nested_vaults
           (lit "/notes/work/a.md") (lit "/notes")).
  - simpl. left. reflexivity.
  - discriminate.
  - reflexivity.
Defined.

Lemma existsb_str_eqb_In (p : str) (l : list str) :
  existsb (fun existingPath => str_eqb existingPath p) l = true <-> In p l.
Proof.
  rewrite existsb_exists. split.
  - intros [x [Hx E]]. apply str_eqb_eq in E. now subst.
  - intros H. exists p. split; [exact H | apply str_eqb_refl].
Qed.

Lemma AddVaultPath_in_list (c : Config) (absPath q : str) :
  In q (Paths_VaultPaths c) -> In q (Paths_VaultPaths (AddVaultPath c absPath)).
Proof.
  intros Hq. unfold AddVaultPath.
  destruct (existsb _ (Paths_VaultPaths c)); [exact Hq |].
  simpl. apply in_or_app. now left.
Qed.

(** X2: after AddVaultPath the path is among the vault paths, every
    path of the list is still in it, a list without duplicates stays
    without duplicates, and adding the same path again changes nothing. *)
Theorem AddVaultPath_adds_once (c : Config) (absPath : str) :
  In absPath (GetVaultPaths (AddVaultPath c absPath)) /\
  (forall q, In q (Paths_VaultPaths c) ->
             In q (Paths_VaultPaths (AddVaultPath c absPath))) /\
  (NoDup (Paths_VaultPaths c) ->
   NoDup (Paths_VaultPaths (AddVaultPath c absPath))) /\
  AddVaultPath (AddVaultPath c absPath) absPath = AddVaultPath c absPath.
Proof.
  unfold AddVaultPath.
  destruct (existsb _ (Paths_VaultPaths c)) eqn:E.
  - rewrite E. apply existsb_str_eqb_In in E.
    repeat split; try tauto.
    unfold GetVaultPaths. destruct (Paths_VaultPaths c); [destruct E | exact E].
  - assert (Hnot : ~ In absPath (Paths_VaultPaths c)).
    { intros H. apply existsb_str_eqb_In in H. congruence. }
    repeat split.
    + unfold GetVaultPaths. simpl.
      destruct (Paths_VaultPaths c ++ [absPath]) eqn:A.
      * now destruct (Paths_VaultPaths c).
      * rewrite <- A. apply in_or_app. right. now left.
    + intros q Hq. simpl. apply in_or_app. now left.
    + intros Hnd. simpl. apply NoDup_app.
      * exact Hnd.
      * constructor; [intros [] | constructor].
      * intros x Hx [<- | []]. contradiction.
    + simpl.
      assert (E' : existsb (fun existingPath => str_eqb existingPath absPath)
                     (Paths_VaultPaths c ++ [absPath]) = true).
      { apply existsb_str_eqb_In. apply in_or_app. right. now left. }
      now rewrite E'.
Qed.

(** X3: a vault path of the configuration is still one after
    migrateConfiguration and AddVaultPath.  Without the migration a
    configuration that only holds the single path of older versions loses
    it: the path added becomes the only vault path. *)
Theorem AddVaultPath_keeps_paths_after_migration (c : Config) (absPath : str) :
  (forall q, In q (GetVaultPaths c) ->
     In q (GetVaultPaths (AddVaultPath (migrateConfiguration c) absPath))) /\
  (Paths_VaultPaths c = [] ->
   GetVaultPaths (AddVaultPath c absPath) = [absPath]).
Proof.
  split.
  - intros q Hq.
    assert (Hm : In q (Paths_VaultPaths (migrateConfiguration c))).
    { unfold migrateConfiguration, GetVaultPaths in *.
      destruct c as [vps vp strategy maxSize overlap collection].
      simpl in *.
      destruct vps as [|p0 ps]; destruct (str_eqb vp []) eqn:Hv;
        simpl in *; rewrite ?Hv; simpl; try exact Hq; try (now destruct Hq).
      }
    pose proof (@AddVaultPath_in_list (migrateConfiguration c) absPath q Hm) as H.
    unfold GetVaultPaths.
    destruct (Paths_VaultPaths (AddVaultPath (migrateConfiguration c) absPath));
      [destruct H | exact H].
  - intros Hp. unfold AddVaultPath. rewrite Hp. reflexivity.
Qed.

(** X4: migrateConfiguration does not change the vault paths that
    GetVaultPaths reports; afterwards the list of vault paths is empty only
    when the single path of older versions is empty too, and a second
    migration changes nothing. *)
Theorem migrateConfiguration_keeps_vaults (c : Config) :
  GetVaultPaths (migrateConfiguration c) = GetVaultPaths c /\
  (Paths_VaultPaths (migrateConfiguration c) = [] ->
   Paths_VaultPath (migrateConfiguration c) = []) /\
  migrateConfiguration (migrateConfiguration c) = migrateConfiguration c.
Proof.
  unfold migrateConfiguration, GetVaultPaths.
  destruct c as [vps vp strategy maxSize overlap collection]. simpl.
  destruct vps as [|p0 ps]; destruct (str_eqb vp []) eqn:Hv; simpl;
    rewrite ?Hv; simpl; rewrite ?Hv; simpl.
  - apply str_eqb_eq in Hv. subst vp. repeat split; intros; reflexivity.
  - repeat split; try absurd_eq. now rewrite Hv.
  - apply str_eqb_eq in Hv. subst vp.
    destruct (str_eqb p0 []) eqn:Hp; simpl; rewrite ?Hp; repeat split;
      try absurd_eq.
  - repeat split; try absurd_eq. now rewrite Hv.
Qed.

Lemma filter_two_distinct (path a b : str) (l : list str) :
  a <> b ->
  filter (fun dir => negb (str_eqb dir path)) (a :: b :: l) <> [].
Proof.
  intros Hab. simpl.
  destruct (str_eqb a path) eqn:Ha; simpl; [| discriminate].
  destruct (str_eqb b path) eqn:Hb; simpl; [| discriminate].
  apply str_eqb_eq in Ha, Hb. congruence.
Qed.

(** X5: on a configuration whose vault paths are distinct,
    RemoveWatchedDirectory either refuses (there is at most one vault path)
    and leaves the configuration as it is, or removes the path and keeps
    every other vault path in order; at least one vault path is left, and
    the single path of older versions is the first one left. *)
Theorem RemoveWatchedDirectory_keeps_one (c : Config) (path : str) :
  NoDup (GetVaultPaths c) ->
  match RemoveWatchedDirectory c path with
  | (Some _, c') => c' = c /\ (length (GetVaultPaths c) <= 1)%nat
  | (None, c') =>
      GetVaultPaths c' =
        filter (fun dir => negb (str_eqb dir path)) (GetVaultPaths c) /\
      ~ In path (GetVaultPaths c') /\
      (exists first rest,
          GetVaultPaths c' = first :: rest /\ Paths_VaultPath c' = first)
  end.
Proof.
  intros Hnd. unfold RemoveWatchedDirectory.
  destruct (length (GetVaultPaths c) <=? 1)%nat eqn:Hlen.
  - split; [reflexivity | now apply Nat.leb_le].
  - apply Nat.leb_gt in Hlen.
    destruct (GetVaultPaths c) as [|a [|b l]] eqn:Hv;
      [simpl in Hlen; lia | simpl in Hlen; lia |].
    assert (Hab : a <> b).
    { inversion Hnd as [|? ? Hna _]; subst. intros E. apply Hna. now left. }
    pose proof (@filter_two_distinct path a b l Hab) as Hne.
    destruct (filter (fun dir => negb (str_eqb dir path)) (a :: b :: l))
      as [|first rest] eqn:Hf; [congruence |].
    unfold GetVaultPaths at 1 2 3. simpl Paths_VaultPaths. simpl Paths_VaultPath.
    repeat split.
    + intros Hin. rewrite <- Hf in Hin. apply filter_In in Hin as [_ Hin].
      rewrite str_eqb_refl in Hin. discriminate Hin.
    + now exists first, rest.
Qed.

Definition two_watched : Config :=
  {| Paths_VaultPaths := [lit "/notes"; lit "/work"];
     Paths_VaultPath := lit "/notes";
     Indexing_ChunkStrategy := lit "hybrid";
     Indexing_MaxChunkSize := 1000;
     Indexing_WindowOverlap := 100;
     Qdrant_Collection := lit "obsfind" |}.

Lemma RemoveWatchedDirectory_keeps_one_witness :
  NoDup (GetVaultPaths two_watched) /\
  GetVaultPaths (snd (RemoveWatchedDirectory two_watched (lit "/notes")))
  = [lit "/work"].
Proof.
  assert (Hnd : NoDup (GetVaultPaths two_watched)).
  { simpl. constructor.
    - intros [H | []]. discriminate H.
    - constructor; [intros [] | constructor]. }
  split; [exact Hnd |].
  pose proof (@RemoveWatchedDirectory_keeps_one two_watched (lit "/notes") Hnd)
    as H.
  destruct (RemoveWatchedDirectory two_watched (lit "/notes")) as [[msg|] c'] eqn:E.
  - vm_compute in E. discriminate E.
  - destruct H as [H _]. simpl. rewrite H. reflexivity.
Defined.

(** A list with a repeated path can lose all its paths. *)
Lemma RemoveWatchedDirectory_repeated_path :
  let c := {| Paths_VaultPaths := [lit "/notes"; lit "/notes"];
              Paths_VaultPath := [];
              Indexing_ChunkStrategy := lit "hybrid";
              Indexing_MaxChunkSize := 1000;
              Indexing_WindowOverlap := 100;
              Qdrant_Collection := lit "obsfind" |} in
  exists c', RemoveWatchedDirectory c (lit "/notes") = (None, c') /\
             GetVaultPaths c' = [].
Proof. eexists. split; reflexivity. Qed.

End Vaults.

(* ================================================================= *)
(** ** The statistics across reindex runs                             *)
(* ================================================================= *)

Section StatsAcrossRuns.
Import Indexer.
Open Scope Z_scope.

(** The documents of a list that were indexed, and those that failed. *)
Definition indexed_in (docs : list DocumentStatus) : Z :=
  Z.of_nat (length (filter ds_Indexed docs)).

Definition failed_in (docs : list DocumentStatus) : Z :=
  Z.of_nat (length (filter (fun d => negb (ds_Indexed d)) docs)).

(** From [st] to [st'] documents were appended, and each counter grew by
    the number of the documents appended that it counts. *)
Definition accounts (st st' : Stats) : Prop :=
  exists new,
    Documents st' = Documents st ++ new /\
    TotalDocuments st' = TotalDocuments st + Z.of_nat (length new) /\
    IndexedDocuments st' = IndexedDocuments st + indexed_in new /\
    FailedDocuments st' = FailedDocuments st + failed_in new.

Lemma accounts_refl st : accounts st st.
Proof.
  exists []. unfold indexed_in, failed_in. simpl.
  rewrite app_nil_r. repeat split; lia.
Qed.

Lemma accounts_trans st1 st2 st3 :
  accounts st1 st2 -> accounts st2 st3 -> accounts st1 st3.
Proof.
  intros [n1 [D1 [T1 [I1 F1]]]] [n2 [D2 [T2 [I2 F2]]]].
  exists (n1 ++ n2). unfold indexed_in, failed_in in *.
  rewrite !filter_app, !length_app, D2, D1, app_assoc.
  repeat split; lia.
Qed.

Lemma walk_fn_accounts st v : accounts st (fst (fst (walk_fn st v))).
Proof.
  unfold walk_fn.
  destruct (v_walkErr v); [apply accounts_refl |].
  destruct (v_ctxErr v); [apply accounts_refl |].
  destruct (v_isDir v || _); [apply accounts_refl |].
  unfold accounts, indexed_in, failed_in.
  destruct (v_indexErr v); simpl;
    (eexists; split; [reflexivity | simpl; repeat split; lia]).
Qed.

Lemma walk_dir_accounts visits : forall st,
  accounts st (fst (walk_dir st visits)).
Proof.
  induction visits as [|v visits IH]; intros st; simpl.
  - apply accounts_refl.
  - pose proof (walk_fn_accounts st v) as H.
    destruct (walk_fn st v) as [[st' snaps] [err|]]; simpl in *; [exact H |].
    specialize (IH st'). destruct (walk_dir st' visits) as [st'' snaps'].
    simpl in *. eapply accounts_trans; eassumption.
Qed.

Lemma walk_vaults_accounts vaults : forall st,
  accounts st (fst (walk_vaults st vaults)).
Proof.
  induction vaults as [|visits vaults IH]; intros st; simpl.
  - apply accounts_refl.
  - pose proof (walk_dir_accounts visits st) as H.
    destruct (walk_dir st visits) as [st' snaps]. simpl in *.
    specialize (IH st'). destruct (walk_vaults st' vaults) as [st'' snaps'].
    simpl in *. eapply accounts_trans; eassumption.
Qed.

(** What a run that starts leaves behind. *)
Definition run_outcome (s s' : Service) : Prop :=
  isIndexing s' = false /\
  TotalDocuments (stats s') =
    TotalDocuments (stats s) + Z.of_nat (length (Documents (stats s'))) /\
  IndexedDocuments (stats s') =
    IndexedDocuments (stats s) + indexed_in (Documents (stats s')) /\
  FailedDocuments (stats s') =
    FailedDocuments (stats s) + failed_in (Documents (stats s')) /\
  Status (stats s') =
    (if FailedDocuments (stats s') >? 0 then lit "error" else lit "idle").

Lemma IndexVault_outcome s vaults :
  isIndexing s = false ->
  run_outcome s (snd (fst (IndexVault s vaults))).
Proof.
  intros Hs. unfold IndexVault. rewrite Hs.
  match goal with |- context [walk_vaults ?st0 vaults] =>
    pose proof (walk_vaults_accounts vaults st0) as [new [D [T [I F]]]];
    destruct (walk_vaults st0 vaults) as [st1 snaps] end.
  simpl in *. unfold run_outcome. simpl. rewrite D.
  repeat split; assumption.
Qed.

(** X6: a run of IndexVault that starts empties the list of documents
    and then lists the documents it counts: at its end each counter has
    grown by the number of listed documents it counts (all, the indexed,
    the failed ones), and the status is error exactly when the counter of
    failed documents, with those of earlier runs, is positive.  A run that
    is refused changes nothing. *)
Theorem IndexVault_counts_its_documents (s : Service)
    (vaults : list (list visit)) :
  match IndexVault s vaults with
  | (Some err, s', snaps) =>
      err = ErrIndexingInProgress /\ s' = s /\ snaps = [] /\
      isIndexing s = true
  | (None, s', _) => isIndexing s = false /\ run_outcome s s'
  end.
Proof.
  destruct (isIndexing s) eqn:Hs.
  - unfold IndexVault. rewrite Hs. repeat split.
  - pose proof (IndexVault_outcome s vaults Hs) as H.
    unfold IndexVault in *. rewrite Hs in *.
    destruct (walk_vaults _ vaults) as [st1 snaps]. simpl in *.
    split; [reflexivity | exact H].
Qed.

Lemma failed_in_nonneg docs : 0 <= failed_in docs.
Proof. unfold failed_in. lia. Qed.

Lemma failed_in_positive docs :
  Exists (fun d => ds_Indexed d = false) docs -> 0 < failed_in docs.
Proof.
  unfold failed_in. induction 1 as [d docs Hd | d docs _ IH]; simpl.
  - rewrite Hd. simpl. lia.
  - destruct (ds_Indexed d); simpl; lia.
Qed.

Lemma run_all_failed_grows runs : forall s j rj,
  isIndexing s = false ->
  nth_error (run_all s runs) j = Some rj ->
  FailedDocuments (stats s) <= FailedDocuments (snd rj) /\
  Status (snd rj) =
    (if FailedDocuments (snd rj) >? 0 then lit "error" else lit "idle").
Proof.
  induction runs as [|vaults runs IH]; intros s j rj Hs Hj; simpl in Hj.
  - destruct j; discriminate Hj.
  - pose proof (IndexVault_outcome s vaults Hs) as [Hi [_ [_ [Hf Hst]]]].
    destruct (IndexVault s vaults) as [[err s'] snaps]. simpl in *.
    pose proof (failed_in_nonneg (Documents (stats s'))) as Hn.
    destruct j as [|j]; simpl in Hj.
    + inversion Hj; subst; clear Hj. simpl. split; [lia | exact Hst].
    + destruct (IH s' j rj Hi Hj) as [H1 H2]. split; [lia | exact H2].
Qed.

Lemma run_all_sticky runs : forall s i j ri rj,
  isIndexing s = false ->
  0 <= FailedDocuments (stats s) ->
  (i <= j)%nat ->
  nth_error (run_all s runs) i = Some ri ->
  nth_error (run_all s runs) j = Some rj ->
  Exists (fun d => ds_Indexed d = false) (Documents (snd ri)) ->
  Status (snd rj) = lit "error".
Proof.
  induction runs as [|vaults runs IH]; intros s i j ri rj Hs H0 Hij Hi Hj Hex.
  - destruct i; discriminate Hi.
  - pose proof (@run_all_failed_grows (vaults :: runs) s j rj Hs Hj)
      as [_ Hstatus].
    simpl in Hi, Hj.
    pose proof (IndexVault_outcome s vaults Hs) as [Hidle [_ [_ [Hf _]]]].
    destruct (IndexVault s vaults) as [[err s'] snaps]. simpl in *.
    pose proof (failed_in_nonneg (Documents (stats s'))) as Hn.
    destruct i as [|i]; simpl in Hi.
    + inversion Hi; subst; clear Hi. simpl in Hex.
      apply failed_in_positive in Hex.
      assert (Hpos : 0 < FailedDocuments (snd rj)).
      { destruct j as [|j]; simpl in Hj.
        - inversion Hj; subst. simpl. lia.
        - destruct (@run_all_failed_grows runs s' j rj Hidle Hj) as [H1 _].
          lia. }
      rewrite Hstatus. apply Z.gtb_lt in Hpos. now rewrite Hpos.
    + destruct j as [|j]; [lia |]. simpl in Hj.
      apply (IH s' i j ri rj); try assumption; lia.
Qed.

(** X7: the counter of failed documents is never reset.  When a document
    fails in one reindex run of a service, that run and every later run
    end with the status error, also a later run in which no document
    fails. *)
Theorem failed_document_marks_later_runs
    (runs : list (list (list visit))) (i j : nat)
    (ri rj : list Stats * Stats) :
  (i <= j)%nat ->
  nth_error (run_all NewService runs) i = Some ri ->
  nth_error (run_all NewService runs) j = Some rj ->
  Exists (fun d => ds_Indexed d = false) (Documents (snd ri)) ->
  Status (snd rj) = lit "error".
Proof.
  intros Hij Hi Hj Hex.
  apply (@run_all_sticky runs NewService i j ri rj); try assumption.
  - reflexivity.
  - simpl. lia.
Qed.

Definition note (name : string) (indexErr : option str) : visit :=
  {| v_path := lit "/notes/" ++ lit name; v_name := lit name;
     v_isDir := false; v_walkErr := None; v_ctxErr := None;
     v_indexErr := indexErr |}.

(** A run in which one of two notes fails, then a run in which both are
    indexed. *)
Definition bad_then_good : list (list (list visit)) :=
  [ [[note "a.md" None; note "b.md" (Some (lit "failed to read file"))]];
    [[note "a.md" None; note "b.md" None]] ].

Lemma failed_document_marks_later_runs_witness :
  match run_all NewService bad_then_good with
  | [ri; rj] =>
      Exists (fun d => ds_Indexed d = false) (Documents (snd ri)) /\
      Forall (fun d => ds_Indexed d = true) (Documents (snd rj)) /\
      Status (snd rj) = lit "error"
  | _ => False
  end.
Proof.
  pose proof (@failed_document_marks_later_runs bad_then_good 0 1) as H.
  destruct (run_all NewService bad_then_good) as [|ri [|rj [|extra rest]]] eqn:E;
    vm_compute in E; try discriminate E.
  inversion E; subst; clear E.
  split; [apply Exists_cons_tl, Exists_cons_hd; reflexivity |].
  split; [repeat constructor |].
  eapply H; [apply le_S, le_n | reflexivity | reflexivity |].
  apply Exists_cons_tl, Exists_cons_hd. reflexivity.
Defined.

End StatsAcrossRuns.

(* ================================================================= *)
(** ** What a search returns                                          *)
(* ================================================================= *)

Section SearchResults.
Import Model Indexer Similar.
Open Scope Z_scope.

Variable score : Type.
Variable score_lt : score -> score -> bool.
Variable score_zero : score.

(** The result [r] is read from the payload and the score of [point],
    with no metadata. *)
Definition read_from (point : ScoredPoint score) (r : SearchResult score)
    : Prop :=
  res_Path r = fst (GetPayloadString (sp_Payload point) (lit "path")) /\
  res_Section r = fst (GetPayloadString (sp_Payload point) (lit "section")) /\
  res_Title r = fst (GetPayloadString (sp_Payload point) (lit "title")) /\
  res_Content r = fst (GetPayloadString (sp_Payload point) (lit "content")) /\
  res_Tags r = fst (GetPayloadStringSlice (sp_Payload point) (lit "tags")) /\
  res_ChunkIndex r = fst (GetPayloadInt (sp_Payload point) (lit "chunk_index")) /\
  res_Score r = sp_Score point /\
  res_Metadata r = [].

(** The score of [r] is not below a minimum score that is above zero. *)
Definition above_minimum (options : SearchOptions score)
    (r : SearchResult score) : Prop :=
  score_lt score_zero (MinScore options) = true ->
  score_lt (res_Score r) (MinScore options) = false.

Lemma to_result_read options point r :
  to_result score_lt score_zero options point = Some r ->
  read_from point r /\ above_minimum options r.
Proof.
  unfold to_result, above_minimum.
  destruct (score_lt score_zero (MinScore options)) eqn:Hz; simpl.
  - destruct (score_lt (sp_Score point) (MinScore options)) eqn:Hs;
      [absurd_eq |].
    destruct (negb _ && _); [absurd_eq |].
    destruct (_ && _); [absurd_eq |].
    intros H. inversion H; subst; clear H. simpl.
    split; [repeat split | intros _; exact Hs].
  - destruct (negb _ && _); [absurd_eq |].
    destruct (_ && _); [absurd_eq |].
    intros H. inversion H; subst; clear H. simpl.
    split; [repeat split | absurd_eq].
Qed.

Lemma filter_results_read options points :
  Forall (fun r => above_minimum options r /\
                   exists point, In point points /\ read_from point r)
         (filter_results score_lt score_zero options points) /\
  (length (filter_results score_lt score_zero options points)
   <= length points)%nat.
Proof.
  induction points as [|point points [IH IHl]]; simpl.
  - split; [constructor | lia].
  - assert (IH' : Forall
        (fun r => above_minimum options r /\
                  exists p, (point = p \/ In p points) /\ read_from p r)
        (filter_results score_lt score_zero options points)).
    { eapply Forall_impl; [| exact IH].
      intros r [Hm [p [Hp Hr]]]. split; [exact Hm |].
      exists p. split; [now right | exact Hr]. }
    destruct (to_result _ _ _ _) as [r|] eqn:Hr; simpl.
    + apply to_result_read in Hr as [Hread Hmin]. split; [| lia].
      constructor; [| exact IH'].
      split; [exact Hmin |]. exists point. split; [now left | exact Hread].
    + split; [exact IH' | lia].
Qed.

(** X8: when Search returns results, the store was asked once, and every
    result is read from the payload and the score of one of the points it
    returned, with empty metadata; no result has a score below a minimum
    score above zero, and there are at most as many results as points. *)
Theorem Search_results_come_from_store
    (embed : list str -> list vector + str)
    (qdrant_Search : vector -> Z -> Z -> list (ScoredPoint score) + str)
    (query : str) (options : SearchOptions score)
    (results : list (SearchResult score)) :
  Search score_lt score_zero embed qdrant_Search query options = inl results ->
  exists queryVector limit points,
    qdrant_Search queryVector limit (to_uint64 (Offset options)) = inl points /\
    (length results <= length points)%nat /\
    Forall (fun r => above_minimum options r /\
                     exists point, In point points /\ read_from point r)
           results.
Proof.
  unfold Search.
  destruct (embed [query]) as [[|queryVector ?] | err]; try absurd_eq.
  destruct (qdrant_Search _ _ _) as [searchPoints | err] eqn:Hq; [| absurd_eq].
  intros H. inversion H; subst; clear H.
  destruct (filter_results_read options searchPoints) as [Hall Hlen].
  eexists. eexists. exists searchPoints.
  split; [exact Hq |]. split.
  - rewrite <- (Permutation_length (sort_Slice_perm _ _)). exact Hlen.
  - apply sort_Slice_Forall. exact Hall.
Qed.

(** The order of the scores is a strict weak order, as the order of
    floating-point numbers is on the numbers that are not NaN. *)
Hypothesis score_lt_asym :
  forall a b, score_lt a b = true -> score_lt b a = false.
Hypothesis score_lt_negtrans :
  forall a b c, score_lt a b = false -> score_lt b c = false ->
                score_lt a c = false.

Lemma to_similar_passes path options point r :
  to_similar score_lt score_zero path options point = Some r ->
  res_Path r <> path /\ passes options r /\ above_minimum options r.
Proof.
  unfold to_similar, above_minimum.
  remember (fst (GetPayloadString (sp_Payload point) (lit "path")))
    as pointPath eqn:Hpath.
  destruct (score_lt score_zero (MinScore options) && _) eqn:Hm; [absurd_eq |].
  destruct (str_eqb pointPath path) eqn:Hself; [absurd_eq |].
  destruct (negb (str_eqb (PathPrefix options) []) && _) eqn:Hp; [absurd_eq |].
  destruct ((0 <? Z.of_nat (length (Tags options))) && _) eqn:Ht; [absurd_eq |].
  intros H. inversion H; subst; clear H.
  unfold passes. cbn [res_Path res_Tags res_Score]. repeat split.
  - intros E. rewrite E, str_eqb_refl in Hself. discriminate Hself.
  - apply andb_false_iff in Hp as [Hp | Hp].
    + apply negb_false_iff, str_eqb_eq in Hp. rewrite Hp.
      eexists. reflexivity.
    + apply negb_false_iff in Hp. now apply HasPrefix_app.
  - intros Hne. apply andb_false_iff in Ht as [Ht | Ht].
    + destruct (Tags options); [contradiction | discriminate Ht].
    + apply negb_false_iff in Ht. now apply tag_matched_In.
  - intros Hz. rewrite Hz in Hm. exact Hm.
Qed.

Lemma filter_similar_passes path options points :
  Forall (fun r => res_Path r <> path /\ passes options r /\
                   above_minimum options r)
         (filter_similar score_lt score_zero path options points).
Proof.
  induction points as [|point points IH]; simpl; [constructor |].
  destruct (to_similar _ _ _ _ _) as [r|] eqn:Hr; [| exact IH].
  constructor; [eapply to_similar_passes; exact Hr | exact IH].
Qed.

(** X9: FindSimilar never returns a chunk of the document asked about:
    no result has its path.  Every result passes the path-prefix and tag
    filters and the minimum score, and the results come with the highest
    score first. *)
Theorem FindSimilar_excludes_the_document
    (GetPointsByPath : str -> list RetrievedPoint + str)
    (qdrant_Search : vector -> Z -> Z -> list (ScoredPoint score) + str)
    (path : str) (options : SearchOptions score)
    (results : list (SearchResult score)) :
  FindSimilar score_lt score_zero GetPointsByPath qdrant_Search path options
    = inl results ->
  Forall (fun r => res_Path r <> path /\ passes options r /\
                   above_minimum options r) results /\
  StronglySorted (not_below score_lt) results.
Proof.
  unfold FindSimilar.
  destruct (GetPointsByPath path) as [[|p content] | err]; try absurd_eq.
  destruct (vectors_of _) as [|first ?]; [absurd_eq |].
  destruct (qdrant_Search _ _ _) as [searchPoints | err]; [| absurd_eq].
  intros H. inversion H; subst; clear H. split.
  - apply sort_Slice_Forall, filter_similar_passes.
  - now apply sort_Slice_sorted.
Qed.

End SearchResults.

Section SearchResultsExample.
Import Model Indexer Similar.
Open Scope Z_scope.

Definition stored_point (path : string) (s : Z) : ScoredPoint Z :=
  {| sp_Score := s;
     sp_Payload := [(lit "path", StringValue (lit path));
                    (lit "content", StringValue (lit "text"))] |}.

Definition store_answer : list (ScoredPoint Z) :=
  [stored_point "a.md" 9; stored_point "b.md" 5; stored_point "c.md" 7].

Definition any_options : SearchOptions Z :=
  {| Limit := 0; Offset := 0; MinScore := 6; Tags := []; PathPrefix := [] |}.

Lemma Search_results_come_from_store_witness :
  exists results,
    Search Z.ltb 0 (fun _ => inl [[1]]) (fun _ _ _ => inl store_answer)
           (lit "query") any_options = inl results /\
    map (@res_Path Z) results = [lit "a.md"; lit "c.md"] /\
    (length results <= 3)%nat.
Proof.
  eexists. split; [reflexivity |]. split; [reflexivity |].
  destruct (@Search_results_come_from_store Z Z.ltb 0 (fun _ => inl [[1]])
              (fun _ _ _ => inl store_answer) (lit "query") any_options _
              eq_refl) as [v [limit [points [Hq [Hlen _]]]]].
  inversion Hq; subst. exact Hlen.
Defined.

Definition one_chunk : list RetrievedPoint :=
  [{| rp_Vector := Some [1]; rp_Payload := [] |}].

Lemma FindSimilar_excludes_the_document_witness :
  exists results,
    FindSimilar Z.ltb 0 (fun _ => inl one_chunk)
                (fun _ _ _ => inl store_answer) (lit "a.md") any_options
      = inl results /\
    map (@res_Path Z) results = [lit "c.md"] /\
    Forall (fun r => res_Path r <> lit "a.md") results.
Proof.
  eexists. split; [reflexivity |]. split; [reflexivity |].
  destruct (@FindSimilar_excludes_the_document Z Z.ltb 0
              (fun a b H => proj2 (Z.ltb_ge b a)
                              (Z.lt_le_incl _ _ (proj1 (Z.ltb_lt a b) H)))
              (fun a b c H1 H2 =>
                 proj2 (Z.ltb_ge a c)
                       (Z.le_trans _ _ _ (proj1 (Z.ltb_ge b c) H2)
                                   (proj1 (Z.ltb_ge a b) H1)))
              (fun _ => inl one_chunk) (fun _ _ _ => inl store_answer)
              (lit "a.md") any_options _ eq_refl) as [H _].
  eapply Forall_impl; [| exact H]. intros r [Hr _]. exact Hr.
Defined.

End SearchResultsExample.

(* ================================================================= *)
(** ** The requests of the Ollama embedder                            *)
(* ================================================================= *)

Section EmbedderRequests.
Import Model.
Open Scope Z_scope.

(** The retry loop sends its batch at most [n] times, and once at least
    when [n] is not zero. *)
Lemma retry_requests p accept tmo batch n : forall last l,
  exists new,
    snd (retry p accept n tmo batch last l) = l ++ new /\
    (length new <= n)%nat /\
    (1 <= n -> 1 <= length new)%nat /\
    Forall (fun q => q_texts q = batch) new.
Proof.
  induction n as [|n IH]; intros last l; simpl.
  - exists []. rewrite app_nil_r. simpl. repeat split; [lia | lia | constructor].
  - set (l1 := l ++ [{| q_timeout := tmo; q_texts := batch |}]).
    assert (Hone : exists new,
               l1 = l ++ new /\ (length new <= S n)%nat /\
               (1 <= S n -> 1 <= length new)%nat /\
               Forall (fun q => q_texts q = batch) new).
    { eexists. split; [reflexivity |]. simpl.
      repeat split; try lia. now repeat constructor. }
    assert (Hmore : forall last',
               exists new,
                 snd (retry p accept n tmo batch last' l1) = l ++ new /\
                 (length new <= S n)%nat /\
                 (1 <= S n -> 1 <= length new)%nat /\
                 Forall (fun q => q_texts q = batch) new).
    { intros last'. destruct (IH last' l1) as [new [E [Hle [_ Hall]]]].
      exists ({| q_timeout := tmo; q_texts := batch |} :: new).
      rewrite E. unfold l1. rewrite <- app_assoc. simpl.
      repeat split; try lia. now constructor. }
    destruct (r_err _); [| destruct (accept _)]; try destruct (r_ctx_err _);
      simpl; try exact Hone; apply Hmore.
Qed.

(** X10: for the empty text Embed returns the zero vector of the
    configured dimensions without any request.  For any other text it
    sends the text alone, at most maxAttempts times; a vector it returns
    is not empty and was preceded by a request, and it always returns. *)
Theorem Embed_requests_and_vector (e : OllamaEmbedder) (p : provider)
    (text : str) (l : log) :
  (text = [] -> 0 <= dimensions e ->
   Embed e p text l = (Ok (repeat 0 (Z.to_nat (dimensions e))), l)) /\
  (text <> [] ->
   exists new,
     snd (Embed e p text l) = l ++ new /\
     (length new <= Z.to_nat (maxAttempts e))%nat /\
     Forall (fun q => q_texts q = [text]) new /\
     match fst (Embed e p text l) with
     | Ok v => v <> [] /\ new <> []
     | Err _ => True
     | NoReturn => False
     end).
Proof.
  split.
  - intros -> Hd. unfold Embed. simpl.
    destruct (Z.ltb_spec (dimensions e) 0); [lia | reflexivity].
  - intros Hne. unfold Embed.
    destruct (str_eqb text []) eqn:Ht;
      [apply str_eqb_eq in Ht; contradiction |].
    match goal with |- context [retry ?p ?a ?n ?t ?b ?la ?l] =>
      destruct (retry_requests p a t b n la l) as [new [E [Hle [Hone Hall]]]];
      destruct (retry p a n t b la l) as [[embs err | ce] l'] eqn:Hr end;
      simpl in E; subst l'.
    + destruct err as [err|].
      * exists new. simpl. repeat split; assumption.
      * destruct embs as [|v rest].
        -- exists new. simpl. repeat split; assumption.
        -- destruct (length v =? 0)%nat eqn:Hv.
           ++ exists new. simpl. repeat split; assumption.
           ++ exists new. simpl. repeat split; try assumption.
              ** intros ->. discriminate Hv.
              ** intros ->. destruct (Z.to_nat (maxAttempts e)) as [|n].
                 { simpl in Hr. discriminate Hr. }
                 simpl in Hone. lia.
    + exists new. simpl. repeat split; assumption.
Qed.

(** The loop over the batches: each request carries between one text
    and a batch of them, and there are at most [maxAttempts] requests for
    each batch. *)
Lemma embed_batches_requests e p tmo :
  1 <= batchSize e ->
  forall fuel texts acc l,
  exists new,
    snd (embed_batches e p tmo fuel texts acc l) = l ++ new /\
    Forall (fun q => (1 <= length (q_texts q) <= Z.to_nat (batchSize e))%nat)
           new /\
    (texts = [] -> new = []) /\
    (length new * Z.to_nat (batchSize e) <=
     Z.to_nat (maxAttempts e) *
     (length texts + Z.to_nat (batchSize e) - 1))%nat.
Proof.
  intros Hb.
  induction fuel as [|fuel IH]; intros texts acc l; simpl.
  - exists []. rewrite app_nil_r. simpl.
    repeat split; [constructor | apply Nat.le_0_l].
  - destruct texts as [|t texts].
    + exists []. rewrite app_nil_r. simpl.
      repeat split; [constructor | apply Nat.le_0_l].
    + set (bs := Z.to_nat (batchSize e)) in *.
      assert (Hbs : (1 <= bs)%nat) by (unfold bs; lia).
      set (batch := firstn bs (t :: texts)).
      assert (Hbatch : (1 <= length batch <= bs)%nat).
      { unfold batch. rewrite length_firstn. simpl length. lia. }
      match goal with |- context [retry ?p ?a ?n ?t ?b ?la ?l] =>
        destruct (retry_requests p a t b n la l) as [new [E [Hle [_ Hall]]]];
        destruct (retry p a n t b la l) as [[embs err | ce] l'] end;
        simpl in E; subst l'.
      assert (Hall' : Forall (fun q => (1 <= length (q_texts q) <= bs)%nat) new).
      { eapply Forall_impl; [| exact Hall]. intros q ->. exact Hbatch. }
      assert (Hbound : (length new * bs <=
                        Z.to_nat (maxAttempts e) *
                        (length (t :: texts) + bs - 1))%nat).
      { simpl length. nia. }
      * destruct err as [err|].
        -- exists new. simpl. repeat split; try assumption. absurd_eq.
        -- destruct (IH (skipn bs (t :: texts)) (acc ++ embs) (l ++ new))
             as [new' [E' [Hall'' [Hnil Hle']]]].
           exists (new ++ new'). rewrite E', app_assoc.
           repeat split.
           ++ now apply Forall_app.
           ++ absurd_eq.
           ++ rewrite length_app. rewrite length_skipn in Hle'.
              simpl length in *.
              destruct (Nat.le_gt_cases (S (length texts)) bs) as [Hs | Hs].
              ** rewrite Hnil; [simpl; nia |].
                 apply length_zero_iff_nil. rewrite length_skipn.
                 simpl length. lia.
              ** nia.
      * exists new. simpl.
        assert (Hall' : Forall (fun q => (1 <= length (q_texts q) <= bs)%nat) new).
        { eapply Forall_impl; [| exact Hall]. intros q ->. exact Hbatch. }
        repeat split; try assumption; [absurd_eq |]. simpl length. nia.
Qed.

(** X11: every request that EmbedBatch sends carries at least one text
    and at most batchSize texts, and the number of requests is at most
    maxAttempts for each batch of batchSize texts: the retries are
    bounded. *)
Theorem EmbedBatch_requests_are_bounded (e : OllamaEmbedder) (p : provider)
    (texts : list str) (l : log) :
  exists new,
    snd (EmbedBatch e p texts l) = l ++ new /\
    Forall (fun q => (1 <= length (q_texts q) <= Z.to_nat (batchSize e))%nat)
           new /\
    (length new * Z.to_nat (batchSize e) <=
     Z.to_nat (maxAttempts e) *
     (length texts + Z.to_nat (batchSize e) - 1))%nat.
Proof.
  unfold EmbedBatch.
  destruct texts as [|t texts].
  - exists []. simpl. rewrite app_nil_r.
    repeat split; [constructor | apply Nat.le_0_l].
  - destruct (Z.ltb_spec (batchSize e) 1) as [Hb | Hb].
    + exists []. simpl. rewrite app_nil_r.
      repeat split; [constructor | apply Nat.le_0_l].
    + destruct (@embed_batches_requests e p
                  (dynamicTimeout (timeout e) (longest (t :: texts))) Hb
                  (length (t :: texts)) (t :: texts) [] l)
        as [new [E [Hall [_ Hle]]]].
      exists new. repeat split; assumption.
Qed.

End EmbedderRequests.

(* ================================================================= *)
(** ** The cache in front of an embedder                              *)
(* ================================================================= *)

Section CacheFacts.
Import Model Embedders.
Open Scope Z_scope.

Lemma key_eqb_eq a b : key_eqb a b = true <-> a = b.
Proof.
  unfold key_eqb. destruct a as [t1 m1 d1], b as [t2 m2 d2]. simpl.
  rewrite !andb_true_iff, !str_eqb_eq, Z.eqb_eq. split.
  - intros [[-> ->] ->]. reflexivity.
  - intros H. inversion H. auto.
Qed.

Lemma key_eqb_refl a : key_eqb a a = true.
Proof. now apply key_eqb_eq. Qed.

(** What was set is what is got. *)
Lemma cache_Get_Set_same c key embedding :
  cache_Get (cache_Set c key embedding) key = Some embedding.
Proof.
  induction c as [|[k v] c IH]; simpl.
  - now rewrite key_eqb_refl.
  - destruct (key_eqb k key) eqn:E; simpl.
    + now rewrite key_eqb_refl.
    + now rewrite E.
Qed.

(** Setting a key leaves the other keys as they are. *)
Lemma cache_Get_Set_other c key embedding key' :
  key <> key' ->
  cache_Get (cache_Set c key embedding) key' = cache_Get c key'.
Proof.
  intros Hne. induction c as [|[k v] c IH]; simpl.
  - destruct (key_eqb key key') eqn:E; [| reflexivity].
    apply key_eqb_eq in E. contradiction.
  - destruct (key_eqb k key) eqn:E; simpl.
    + apply key_eqb_eq in E. subst k.
      destruct (key_eqb key key') eqn:E'; [| reflexivity].
      apply key_eqb_eq in E'. contradiction.
    + destruct (key_eqb k key'); [reflexivity | exact IH].
Qed.


Lemma set_nth_middle (pre : list vector) x post v :
  set_nth (pre ++ x :: post) (length pre) v = Some (pre ++ v :: post).
Proof.
  induction pre as [|y pre IH]; simpl; [reflexivity |].
  now rewrite IH.
Qed.

Variable S : Type.
Variable name : str.
Variable dims : Z.




Variable inner : list str -> S -> result (list vector) * S.


(** The cache holds, for the texts it knows under the name and the
    dimensions of the embedder, the embedding [emb] gives them. *)
Definition agrees (emb : str -> vector) (c : cache) : Prop :=
  forall t v, cache_Get c (key_of name dims t) = Some v -> v = emb t.

Lemma agrees_Set emb c t :
  agrees emb c -> agrees emb (cache_Set c (key_of name dims t) (emb t)).
Proof.
  intros Hc t' v.
  destruct (key_eqb (key_of name dims t) (key_of name dims t')) eqn:E.
  - apply key_eqb_eq in E. rewrite <- E, cache_Get_Set_same.
    inversion E; subst. intros H. now inversion H.
  - rewrite cache_Get_Set_other; [apply Hc |].
    intros E'. rewrite E', key_eqb_refl in E. discriminate E.
Qed.

(** The two loops of the cached EmbedBatch, when the cache agrees with
    [emb] and the wrapped embedder returned the embeddings of the texts
    that were missing: every text gets its embedding. *)
Lemma store_all_fills emb c texts :
  agrees emb c ->
  forall pre c0,
    agrees emb c0 ->
    exists c',
      store_all name dims c0
        (pre ++ fst (fst (lookup_all name dims c texts (length pre))))
        (map emb (snd (fst (lookup_all name dims c texts (length pre)))))
        (snd (fst (lookup_all name dims c texts (length pre))))
        (snd (lookup_all name dims c texts (length pre)))
      = (Some (pre ++ map emb texts), c') /\
      agrees emb c'.
Proof.
  intros Hc. induction texts as [|t texts IH]; intros pre c0 Hc0; simpl.
  - exists c0. split; [reflexivity | exact Hc0].
  - pose proof (IH (pre ++ [emb t])) as IH'.
    rewrite length_app in IH'. simpl length in IH'.
    replace (length pre + 1)%nat with (Datatypes.S (length pre)) in IH' by lia.
    destruct (lookup_all name dims c texts (Datatypes.S (length pre)))
      as [[rs uts] uis].
    simpl in IH'.
    destruct (cache_Get c (key_of name dims t)) as [v|] eqn:Hg; simpl.
    + apply Hc in Hg. subst v.
      destruct (IH' c0 Hc0) as [c' [E Hc']].
      exists c'. rewrite <- !app_assoc in E. simpl in E.
      split; [exact E | exact Hc'].
    + rewrite set_nth_middle.
      destruct (IH' (cache_Set c0 (key_of name dims t) (emb t))
                    (agrees_Set t Hc0)) as [c' [E Hc']].
      exists c'. rewrite <- !app_assoc in E. simpl in E.
      split; [exact E | exact Hc'].
Qed.

Lemma lookup_all_misses c texts : forall i t,
  In t (snd (fst (lookup_all name dims c texts i))) ->
  In t texts /\ cache_Get c (key_of name dims t) = None.
Proof.
  induction texts as [|t0 texts IH]; intros i t; simpl; [intros [] |].
  specialize (IH (Datatypes.S i) t).
  destruct (lookup_all name dims c texts (Datatypes.S i)) as [[rs uts] uis].
  destruct (cache_Get c (key_of name dims t0)) eqn:Hg; simpl in *.
  - intros H. destruct (IH H) as [H1 H2]. split; [now right | exact H2].
  - intros [<- | H]; [split; [now left | exact Hg] |].
    destruct (IH H) as [H1 H2]. split; [now right | exact H2].
Qed.

(** X13: the cache is transparent.  When the wrapped embedder returns
    the embeddings of the texts it is given, and the cache agrees with it,
    the cached EmbedBatch returns the embedding of every text, in the
    order of the texts, whichever of them are cached, repeated or new; the
    cache still agrees afterwards, and when no text is missing from the
    cache the wrapped embedder is not called and the cache is unchanged. *)
Theorem Cached_EmbedBatch_transparent (emb : str -> vector)
    (texts : list str) (c : cache) (s : S) :
  (forall ts s0, fst (inner ts s0) = Ok (map emb ts)) ->
  agrees emb c ->
  exists c' s',
    Cached_EmbedBatch name dims inner texts (c, s)
      = (Ok (map emb texts), (c', s')) /\
    agrees emb c' /\
    ((forall t, In t texts -> cache_Get c (key_of name dims t) <> None) ->
     c' = c /\ s' = s).
Proof.
  intros Hinner Hc. unfold Cached_EmbedBatch.
  destruct (@store_all_fills emb c texts Hc [] c Hc) as [c' [E Hc']].
  pose proof (lookup_all_misses c texts 0) as Hmiss.
  change (length (@nil vector)) with 0%nat in E.
  destruct (lookup_all name dims c texts 0) as [[results uts] uis].
  cbn [fst snd app] in E, Hmiss. destruct uts as [|t uts].
  - simpl in E. inversion E; subst.
    exists c', s. split; [reflexivity |]. split; [exact Hc' |].
    intros _. split; reflexivity.
  - specialize (Hinner (t :: uts) s).
    destruct (inner (t :: uts) s) as [r s']. cbn [fst] in Hinner. subst r.
    rewrite E. exists c', s'. split; [reflexivity |]. split; [exact Hc' |].
    intros Hall.
    destruct (Hmiss t (or_introl eq_refl)) as [Hin Hnone].
    exfalso. apply (Hall t Hin Hnone).
Qed.

Variable inner1 : str -> S -> result vector * S.

(** X14: a vector that the cached Embed returns is kept: asked again
    for the same text, in whatever state the wrapped embedder is, Embed
    and EmbedBatch return that vector from the cache, without calling the
    wrapped embedder and without changing the cache. *)
Theorem Cached_Embed_is_remembered (text : str) (c c' : cache) (s s' : S)
    (v : vector) :
  Cached_Embed name dims inner1 text (c, s) = (Ok v, (c', s')) ->
  forall s2,
    Cached_Embed name dims inner1 text (c', s2) = (Ok v, (c', s2)) /\
    Cached_EmbedBatch name dims inner [text] (c', s2) = (Ok [v], (c', s2)).
Proof.
  intros H s2.
  assert (Hg : cache_Get c' (key_of name dims text) = Some v).
  { unfold Cached_Embed in H.
    destruct (cache_Get c (key_of name dims text)) as [v0|] eqn:Hg.
    - inversion H; subst. exact Hg.
    - destruct (inner1 text s) as [[v0 | msg |] s0]; inversion H; subst.
      apply cache_Get_Set_same. }
  unfold Cached_Embed, Cached_EmbedBatch. simpl. rewrite Hg. split; reflexivity.
Qed.

End CacheFacts.

Section CacheExample.
Import Model Embedders.
Open Scope Z_scope.

(** A wrapped embedder that counts its calls and embeds a text as its
    length. *)
Definition length_embedding (text : str) : vector := [len text].

Definition counting_batch (texts : list str) (calls : nat)
    : result (list vector) * nat :=
  (Ok (map length_embedding texts), Datatypes.S calls).

Definition counting_single (text : str) (calls : nat) : result vector * nat :=
  (Ok (length_embedding text), Datatypes.S calls).

Definition warm_cache : cache :=
  [(key_of (lit "m") 1 (lit "ab"), length_embedding (lit "ab"))].

Lemma warm_cache_agrees : agrees (lit "m") 1 length_embedding warm_cache.
Proof.
  intros t v. unfold warm_cache. simpl.
  destruct (key_eqb _ _) eqn:E; [| absurd_eq].
  apply key_eqb_eq in E. inversion E; subst. intros H. now inversion H.
Qed.

Lemma Cached_EmbedBatch_transparent_witness :
  exists c' s',
    Cached_EmbedBatch (lit "m") 1 counting_batch
                      [lit "abc"; lit "ab"; lit "abc"] (warm_cache, 0%nat)
      = (Ok [[3]; [2]; [3]], (c', s')) /\
    agrees (lit "m") 1 length_embedding c'.
Proof.
  destruct (@Cached_EmbedBatch_transparent nat (lit "m") 1 counting_batch
              length_embedding [lit "abc"; lit "ab"; lit "abc"] warm_cache
              0%nat (fun _ _ => eq_refl) warm_cache_agrees)
    as [c' [s' [E [Hc _]]]].
  exists c', s'. split; [exact E | exact Hc].
Defined.

Lemma Cached_Embed_is_remembered_witness :
  exists c',
    Cached_Embed (lit "m") 1 counting_single (lit "abc") ([], 0%nat)
      = (Ok [3], (c', 1%nat)) /\
    Cached_Embed (lit "m") 1 counting_single (lit "abc") (c', 7%nat)
      = (Ok [3], (c', 7%nat)).
Proof.
  eexists. split; [reflexivity |].
  apply (@Cached_Embed_is_remembered nat (lit "m") 1 counting_batch
           counting_single (lit "abc") [] _ 0%nat 1%nat [3] eq_refl 7%nat).
Defined.

End CacheExample.

(* ================================================================= *)
(** ** The fallback between embedders                                 *)
(* ================================================================= *)

Section FallbackFacts.
Import Model Embedders.
Open Scope Z_scope.

Variable A : Type.
Variable embedders : list backend.
Variable answer : nat -> A + str.

Definition fails (i : nat) : Prop := exists err, answer i = inr err.

(** The name and the dimensions that the hybrid embedder reports are
    those of its current embedder. *)
Definition tracks (h : Hybrid) : Prop :=
  exists b, nth_error embedders (current h) = Some b /\
            h_modelName h = hybrid_name b /\
            h_dimensions h = b_Dimensions b.

(** The loop over the other embedders, started at index [i] on the
    embedders from [i] on. *)
Lemma try_others_outcome cur : forall rest i,
  (forall k b, nth_error rest k = Some b ->
               nth_error embedders (i + k) = Some b) ->
  match try_others answer cur rest i with
  | (called, Some (j, b, a)) =>
      answer j = inl a /\ nth_error embedders j = Some b /\ j <> cur /\
      (exists before, called = before ++ [j] /\ Forall fails before)
  | (called, None) =>
      Forall fails called /\
      (forall k, (i <= k < i + length rest)%nat -> k <> cur -> fails k)
  end /\
  Forall (fun k => (i <= k)%nat /\ k <> cur)
         (fst (try_others answer cur rest i)) /\
  StronglySorted lt (fst (try_others answer cur rest i)).
Proof.
  induction rest as [|b rest IH]; intros i Hrest; simpl.
  - split; [split; [constructor | intros k Hk; lia] |].
    split; constructor.
  - assert (Hrest' : forall k b0, nth_error rest k = Some b0 ->
                                  nth_error embedders (Datatypes.S i + k) = Some b0).
    { intros k b0 Hk. specialize (Hrest (Datatypes.S k) b0 Hk).
      now replace (Datatypes.S i + k)%nat with (i + Datatypes.S k)%nat by lia. }
    specialize (IH (Datatypes.S i) Hrest').
    assert (Hweak : forall called,
               Forall (fun k => (Datatypes.S i <= k)%nat /\ k <> cur) called ->
               Forall (fun k => (i <= k)%nat /\ k <> cur) called).
    { intros called H. eapply Forall_impl; [| exact H].
      intros k [Hk Hk']. split; [lia | exact Hk']. }
    assert (Hlt : forall called,
               Forall (fun k => (Datatypes.S i <= k)%nat /\ k <> cur) called ->
               Forall (lt i) called).
    { intros called H. eapply Forall_impl; [| exact H].
      intros k [Hk _]. lia. }
    destruct (Nat.eqb_spec i cur) as [Hcur | Hcur].
    + destruct (try_others answer cur rest (Datatypes.S i))
        as [called [[[j b'] a]|]]; cbn [fst] in *;
        destruct IH as [IH1 [IH2 IH3]].
      * split; [exact IH1 |]. split; [apply Hweak; exact IH2 | exact IH3].
      * destruct IH1 as [Hf Hall]. split; [split; [exact Hf |] |].
        -- intros k Hk Hne. apply Hall; [| exact Hne].
           simpl length in Hk. lia.
        -- split; [apply Hweak; exact IH2 | exact IH3].
    + destruct (answer i) as [a | err] eqn:Ha.
      * cbn [fst]. split; [| split].
        -- split; [exact Ha |]. split.
           ++ specialize (Hrest 0%nat b eq_refl).
              now rewrite Nat.add_0_r in Hrest.
           ++ split; [exact Hcur |].
              exists []. split; [reflexivity | constructor].
        -- constructor; [split; [lia | exact Hcur] | constructor].
        -- constructor; constructor.
      * assert (Hi : fails i) by (now exists err).
        destruct (try_others answer cur rest (Datatypes.S i))
          as [called [[[j b'] a]|]]; cbn [fst] in *;
          destruct IH as [IH1 [IH2 IH3]].
        -- destruct IH1 as [H1 [H2 [H3 [before [-> Hb]]]]].
           split; [| split].
           ++ split; [exact H1 |]. split; [exact H2 |]. split; [exact H3 |].
              exists (i :: before). split; [reflexivity | now constructor].
           ++ constructor; [split; [lia | exact Hcur] | apply Hweak; exact IH2].
           ++ constructor; [exact IH3 | apply Hlt; exact IH2].
        -- destruct IH1 as [Hf Hall]. split; [| split].
           ++ split; [now constructor |].
              intros k Hk Hne. simpl length in Hk.
              destruct (Nat.eq_dec k i) as [-> | Hki]; [exact Hi |].
              apply Hall; [lia | exact Hne].
           ++ constructor; [split; [lia | exact Hcur] | apply Hweak; exact IH2].
           ++ constructor; [exact IH3 | apply Hlt; exact IH2].
Qed.

Lemma StronglySorted_lt_NoDup (l : list nat) :
  StronglySorted lt l -> NoDup l.
Proof.
  induction 1 as [|x l Hs IH Hx]; constructor; [| exact IH].
  intros Hin. rewrite Forall_forall in Hx. specialize (Hx x Hin). lia.
Qed.

(** X15: a call of the hybrid embedder (Embed or EmbedBatch) whose
    current embedder exists returns an error only when every embedder
    failed on this call, and then the hybrid embedder is unchanged.
    Otherwise it returns the answer of the embedder that is current
    afterwards, whose name and dimensions it reports; that embedder was
    called last, every embedder called before it failed, and no embedder
    is called twice. *)
Theorem Hybrid_call_fails_only_when_all_fail (failure : str) (h : Hybrid) :
  tracks h ->
  match Hybrid_call embedders answer failure h with
  | (Ok a, h', called) =>
      answer (current h') = inl a /\ tracks h' /\
      (exists before, called = before ++ [current h'] /\ Forall fails before) /\
      NoDup called
  | (Err msg, h', called) =>
      msg = failure /\ h' = h /\
      (forall i, (i < length embedders)%nat -> fails i) /\
      NoDup called
  | (NoReturn, _, _) => False
  end.
Proof.
  intros [b [Hb [Hname Hdim]]]. unfold Hybrid_call. rewrite Hb.
  destruct (answer (current h)) as [a | err] eqn:Ha.
  - repeat split; try assumption.
    + exists b. repeat split; assumption.
    + exists []. split; [reflexivity | constructor].
    + repeat constructor. intros [].
  - pose proof (@try_others_outcome (current h) embedders 0%nat
                  (fun k b0 H => H)) as [H1 [H2 H3]].
    assert (Hnodup : NoDup (current h ::
                            fst (try_others answer (current h) embedders 0))).
    { constructor.
      - intros Hin. rewrite Forall_forall in H2.
        destruct (H2 _ Hin) as [_ Hne]. now apply Hne.
      - apply StronglySorted_lt_NoDup. exact H3. }
    destruct (try_others answer (current h) embedders 0)
      as [called [[[j b'] a]|]]; simpl in *.
    + destruct H1 as [Hj [Hbj [Hne [before [-> Hbefore]]]]].
      repeat split.
      * exact Hj.
      * exists b'. repeat split. exact Hbj.
      * exists (current h :: before). split; [reflexivity |].
        constructor; [now exists err | exact Hbefore].
      * exact Hnodup.
    + destruct H1 as [_ Hall]. repeat split.
      * intros i Hi.
        destruct (Nat.eq_dec i (current h)) as [-> | Hne]; [now exists err |].
        apply Hall; [lia | exact Hne].
      * exact Hnodup.
Qed.

End FallbackFacts.

Section FallbackExample.
Import Model Embedders.
Open Scope Z_scope.

Definition two_backends : list backend :=
  [{| b_Name := lit "ollama"; b_Dimensions := 768 |};
   {| b_Name := lit "local"; b_Dimensions := 384 |}].

(** The first embedder is down, the second one answers. *)
Definition first_down (i : nat) : vector + str :=
  match i with
  | O => inr (lit "connection refused")
  | _ => inl [1]
  end.

Definition fresh_hybrid : Hybrid :=
  {| current := 0; h_dimensions := 768;
     h_modelName := lit "hybrid(ollama)" |}.

Lemma fresh_hybrid_is_new :
  NewHybridEmbedder two_backends = inl fresh_hybrid.
Proof. reflexivity. Qed.

Lemma Hybrid_call_fails_only_when_all_fail_witness :
  tracks two_backends fresh_hybrid /\
  exists h' called,
    Hybrid_call two_backends first_down (lit "all embedders failed")
                fresh_hybrid = (Ok [1], h', called) /\
    h_modelName h' = lit "hybrid(local)" /\
    tracks two_backends h'.
Proof.
  assert (Ht : tracks two_backends fresh_hybrid).
  { eexists. repeat split; reflexivity. }
  split; [exact Ht |].
  pose proof (@Hybrid_call_fails_only_when_all_fail vector two_backends
                first_down (lit "all embedders failed") fresh_hybrid Ht) as H.
  destruct (Hybrid_call two_backends first_down (lit "all embedders failed")
                        fresh_hybrid) as [[r h'] called] eqn:E.
  vm_compute in E. inversion E; subst; clear E.
  exists {| current := 1; h_dimensions := 384;
            h_modelName := lit "hybrid(local)" |}.
  eexists. split; [reflexivity |]. split; [reflexivity |].
  destruct H as [_ [H _]]. exact H.
Defined.

End FallbackExample.

(* ================================================================= *)
(** ** The chunks of the sliding window                               *)
(* ================================================================= *)

Section WindowChunks.
Import Markdown.
Open Scope Z_scope.

Definition blank_line : str := [nl; nl].

(** The paragraphs the loop works on: the pieces between blank lines,
    trimmed, without those that are empty then. *)
Definition trimmed_paragraphs (text : str) : list str :=
  filter (fun p => negb (str_eqb p []))
         (map TrimSpace (Split text blank_line)).

(** The chunks built from groups of paragraphs: chunk [k] holds the
    paragraphs of group [k], joined by blank lines. *)
Fixpoint numbered (mk : Z -> str -> Chunk) (groups : list (list str))
    (k : Z) : list Chunk :=
  match groups with
  | [] => []
  | g :: rest => mk k (Join g blank_line) :: numbered mk rest (k + 1)
  end.

Lemma numbered_app mk gs : forall hs k,
  numbered mk (gs ++ hs) k =
  numbered mk gs k ++ numbered mk hs (k + Z.of_nat (length gs)).
Proof.
  induction gs as [|g gs IH]; intros hs k; simpl.
  - now rewrite Z.add_0_r.
  - rewrite IH. do 3 f_equal. lia.
Qed.

Lemma Join_snoc (g : list str) (p sep : str) :
  g <> [] -> Join (g ++ [p]) sep = Join g sep ++ sep ++ p.
Proof.
  induction g as [|x g IH]; intros Hne; [contradiction |].
  destruct g as [|y g]; [reflexivity |].
  change (Join ((x :: y :: g) ++ [p]) sep)
    with (x ++ sep ++ Join ((y :: g) ++ [p]) sep).
  rewrite IH by discriminate.
  change (Join (x :: y :: g) sep) with (x ++ sep ++ Join (y :: g) sep).
  now rewrite <- !app_assoc.
Qed.

Lemma Join_empty (g : list str) (sep : str) :
  Forall (fun p => p <> []) g -> Join g sep = [] -> g = [].
Proof.
  intros Hall. destruct Hall as [|p g Hp Hall]; [reflexivity |].
  destruct p as [|c p]; [contradiction |].
  destruct g; simpl; discriminate.
Qed.

Variable mk : Z -> str -> Chunk.
Variables maxSize minSize : Z.
Hypothesis minSize_positive : 0 < minSize.

(** The state of the loop after some paragraphs: the chunks are those of
    the groups [gs], each at least [minSize] long, and the buffer holds
    the paragraphs [g]. *)
Definition holds (st : window) (gs : list (list str)) (g : list str) : Prop :=
  w_chunks st = numbered mk gs 0 /\
  w_chunkIndex st = Z.of_nat (length gs) /\
  w_currentChunk st = Join g blank_line /\
  w_currentSize st = len (Join g blank_line) /\
  Forall (fun p => p <> []) g /\
  Forall (fun h => h <> [] /\ Forall (fun p => p <> []) h /\
                   minSize <= len (Join h blank_line)) gs.

Lemma holds_init : holds window_init [] [].
Proof. unfold holds. simpl. repeat split; constructor. Qed.

(** One paragraph that is not blank: the state before the test for the
    last paragraph. *)
Lemma window_step_holds count st gs g i paragraph :
  holds st gs g ->
  TrimSpace paragraph <> [] ->
  exists st3 gs' g',
    holds st3 gs' g' /\ g' <> [] /\
    concat gs' ++ g' = concat gs ++ g ++ [TrimSpace paragraph] /\
    window_step mk maxSize minSize count st i paragraph =
      if (i =? count - 1)
      then {| w_chunks :=
                w_chunks st3 ++ [mk (w_chunkIndex st3) (w_currentChunk st3)];
              w_currentChunk := w_currentChunk st3;
              w_currentSize := w_currentSize st3;
              w_chunkIndex := w_chunkIndex st3 |}
      else st3.
Proof.
  intros [Hc [Hi [Hb [Hs [Hg Hgs]]]]] Hp.
  set (p := TrimSpace paragraph) in *.
  assert (Hpe : str_eqb p [] = false).
  { destruct (str_eqb p []) eqn:E; [| reflexivity].
    apply str_eqb_eq in E. contradiction. }
  assert (Hplen : 0 < len p).
  { unfold len. destruct p; [contradiction | simpl; lia]. }
  unfold window_step. fold p. rewrite Hpe.
  destruct ((w_currentSize st + len p >? maxSize) &&
            (w_currentSize st >=? minSize)) eqn:Hflush.
  - (* the buffer is flushed, the paragraph starts a new one *)
    apply andb_true_iff in Hflush as [_ Hmin].
    apply Z.geb_le in Hmin.
    assert (Hgne : g <> []).
    { intros ->. rewrite Hs in Hmin. unfold len in Hmin. simpl in Hmin. lia. }
    cbn [w_currentSize w_chunks w_currentChunk w_chunkIndex].
    change (0 >? 0) with false. cbv iota.
    cbn [w_currentSize w_chunks w_currentChunk w_chunkIndex].
    exists {| w_chunks :=
                w_chunks st ++ [mk (w_chunkIndex st) (w_currentChunk st)];
              w_currentChunk := [] ++ p;
              w_currentSize := 0 + len p;
              w_chunkIndex := w_chunkIndex st + 1 |}.
    exists (gs ++ [g]), [p].
    split; [| split; [discriminate | split]].
    2: { rewrite concat_app. simpl. now rewrite app_nil_r, <- app_assoc. }
    2: { replace (0 + len p >? 0) with true
           by (symmetry; apply Z.gtb_lt; lia).
         rewrite andb_true_r. reflexivity. }
    unfold holds. cbn [w_currentSize w_chunks w_currentChunk w_chunkIndex].
    rewrite numbered_app, length_app, Hc, Hi, Hb. simpl.
    repeat split; try reflexivity.
    + lia.
    + repeat constructor. exact Hp.
    + apply Forall_app. split; [exact Hgs |].
      repeat constructor; try assumption. rewrite <- Hs. exact Hmin.
  - (* the paragraph is added to the buffer *)
    destruct (w_currentSize st >? 0) eqn:Hpos.
    + apply Z.gtb_lt in Hpos.
      assert (Hgne : g <> []).
      { intros ->. rewrite Hs in Hpos. unfold len in Hpos. simpl in Hpos. lia. }
      cbn [w_currentSize w_chunks w_currentChunk w_chunkIndex].
      exists {| w_chunks := w_chunks st;
                w_currentChunk := (w_currentChunk st ++ [nl; nl]) ++ p;
                w_currentSize := w_currentSize st + 2 + len p;
                w_chunkIndex := w_chunkIndex st |}.
      exists gs, (g ++ [p]).
      split; [| split; [now destruct g | split]].
      2: { now rewrite app_assoc. }
      2: { replace (w_currentSize st + 2 + len p >? 0) with true
             by (symmetry; apply Z.gtb_lt; lia).
           rewrite andb_true_r. reflexivity. }
      unfold holds. cbn [w_currentSize w_chunks w_currentChunk w_chunkIndex].
      rewrite (Join_snoc p blank_line Hgne), Hb, Hs.
      repeat split; try assumption.
      * now rewrite <- app_assoc.
      * unfold len, blank_line. rewrite !length_app. simpl. lia.
      * apply Forall_app. split; [exact Hg | repeat constructor; exact Hp].
    + assert (Hgnil : g = []).
      { apply (@Join_empty g blank_line Hg).
        destruct (Join g blank_line) eqn:E; [reflexivity |].
        rewrite Hs in Hpos. unfold len in Hpos. simpl in Hpos.
        destruct (Z.gtb_spec (Z.pos (Pos.of_succ_nat (length s))) 0);
          [discriminate | lia]. }
      subst g. simpl in Hb, Hs.
      cbn [w_currentSize w_chunks w_currentChunk w_chunkIndex].
      exists {| w_chunks := w_chunks st;
                w_currentChunk := w_currentChunk st ++ p;
                w_currentSize := w_currentSize st + len p;
                w_chunkIndex := w_chunkIndex st |}.
      exists gs, [p].
      split; [| split; [discriminate | split]].
      2: { reflexivity. }
      2: { replace (w_currentSize st + len p >? 0) with true
             by (symmetry; apply Z.gtb_lt; unfold len in *; simpl in *; lia).
           rewrite andb_true_r. reflexivity. }
      unfold holds. cbn [w_currentSize w_chunks w_currentChunk w_chunkIndex].
      rewrite Hb, Hs. simpl.
      repeat split; try assumption.
      repeat constructor. exact Hp.
Qed.

(** The paragraphs before the last one. *)
Lemma window_loop_holds count paragraphs : forall i st gs g,
  holds st gs g ->
  i + Z.of_nat (length paragraphs) <= count - 1 ->
  exists gs' g',
    holds (window_loop mk maxSize minSize count paragraphs i st) gs' g' /\
    concat gs' ++ g' =
      concat gs ++ g ++
      filter (fun p => negb (str_eqb p [])) (map TrimSpace paragraphs).
Proof.
  induction paragraphs as [|paragraph rest IH]; intros i st gs g Hst Hi.
  - exists gs, g. simpl. now rewrite app_nil_r.
  - cbn [window_loop map filter]. cbn [length] in Hi.
    destruct (str_eqb (TrimSpace paragraph) []) eqn:Hblank; cbn [negb].
    + apply str_eqb_eq in Hblank.
      rewrite (@window_step_blank mk maxSize minSize count st i paragraph Hblank).
      apply IH; [exact Hst | lia].
    + assert (Hp : TrimSpace paragraph <> []).
      { intros E. rewrite E in Hblank. discriminate Hblank. }
      destruct (@window_step_holds count st gs g i paragraph Hst Hp)
        as [st3 [gs1 [g1 [H1 [_ [Hcat Hstep]]]]]].
      replace (i =? count - 1) with false in Hstep
        by (symmetry; apply Z.eqb_neq; lia).
      rewrite Hstep.
      destruct (IH (i + 1) st3 gs1 g1 H1) as [gs' [g' [H' Hcat']]]; [lia |].
      exists gs', g'. split; [exact H' |].
      rewrite Hcat', app_assoc, Hcat, <- !app_assoc. reflexivity.
Qed.

(** The whole loop on a text whose last paragraph is not blank. *)
Lemma window_run_groups (text : str) :
  TrimSpace (last (Split text blank_line) []) <> [] ->
  exists groups final,
    w_chunks (window_run mk maxSize minSize text) =
      numbered mk (groups ++ [final]) 0 /\
    concat (groups ++ [final]) = trimmed_paragraphs text /\
    Forall (fun h => h <> [] /\ Forall (fun p => p <> []) h /\
                     minSize <= len (Join h blank_line)) groups /\
    final <> [] /\ Forall (fun p => p <> []) final.
Proof.
  unfold window_run, trimmed_paragraphs. fold blank_line.
  intros Hlast.
  destruct (Split text blank_line) as [|q0 qs] eqn:Hsplit.
  - simpl in Hlast. contradiction.
  - destruct (@exists_last _ (q0 :: qs)) as [ps [q' E]]; [discriminate |].
    rewrite E in *. clear E.
    rewrite last_last in Hlast.
    rewrite window_loop_app. cbn [window_loop].
    rewrite length_app. cbn [length].
    destruct (@window_loop_holds (Z.of_nat (length ps + 1)) ps 0 window_init
                [] [] holds_init)
      as [gs [g [Hst Hcat]]]; [lia |].
    destruct (@window_step_holds (Z.of_nat (length ps + 1)) _ gs g
                (0 + Z.of_nat (length ps)) q' Hst Hlast)
      as [st3 [gs1 [g1 [H1 [Hne [Hcat1 Hstep]]]]]].
    replace (0 + Z.of_nat (length ps) =? Z.of_nat (length ps + 1) - 1)
      with true in Hstep by (symmetry; apply Z.eqb_eq; lia).
    rewrite Hstep. cbn [w_chunks].
    destruct H1 as [Hc [Hi [Hb [Hs [Hg Hgs]]]]].
    exists gs1, g1. repeat split; try assumption.
    + rewrite numbered_app, Hc, Hi, Hb. simpl. reflexivity.
    + rewrite concat_app. simpl. rewrite app_nil_r, Hcat1.
      rewrite map_app, filter_app. simpl in Hcat. rewrite <- Hcat.
      simpl.
      destruct (str_eqb (TrimSpace q') []) eqn:E;
        [apply str_eqb_eq in E; contradiction |].
      simpl. now rewrite <- app_assoc.
Qed.

End WindowChunks.

Section WindowChunkers.
Import Markdown.
Open Scope Z_scope.

(** X16: with an overlap below the window size and a content whose last
    paragraph is not blank, the chunks of ChunkBySlidingWindow are the
    trimmed paragraphs of the content that are not empty, in order, cut
    into consecutive groups that are not empty: chunk [k] has the index
    [k] in its id and holds the paragraphs of group [k] joined by blank
    lines.  So no paragraph is lost, repeated or cut, two chunks share no
    text (the overlap only lowers the length from which a chunk may be
    closed), and every chunk but the last is [windowSize - overlap] bytes
    long or longer. *)
Theorem ChunkBySlidingWindow_groups_paragraphs (doc : Document)
    (windowSize overlap : Z) :
  overlap < windowSize ->
  TrimSpace (last (Split (doc_Content doc) blank_line) []) <> [] ->
  exists groups final,
    ChunkBySlidingWindow doc windowSize overlap =
      numbered (window_chunk doc) (groups ++ [final]) 0 /\
    concat (groups ++ [final]) = trimmed_paragraphs (doc_Content doc) /\
    Forall (fun h => h <> [] /\
                     windowSize - overlap <= len (Join h blank_line)) groups /\
    final <> [].
Proof.
  intros Hov Hlast.
  assert (Hmin : 0 < windowSize - overlap) by lia.
  destruct (@window_run_groups (window_chunk doc) windowSize
              (windowSize - overlap) Hmin (doc_Content doc) Hlast)
    as [groups [final [Hc [Hcat [Hgs [Hne _]]]]]].
  exists groups, final. unfold ChunkBySlidingWindow.
  repeat split; try assumption.
  eapply Forall_impl; [| exact Hgs]. intros h [H1 [_ H2]]. now split.
Qed.

(** X17: the same holds for slidingWindowChunking of the sliding_window
    strategy when the minimum chunk size is positive: its chunks are the
    trimmed, non-empty paragraphs in consecutive groups, each chunk but the
    last at least MinChunkSize bytes long, and its error is nil. *)
Theorem slidingWindowChunking_groups_paragraphs (doc : Document)
    (options : ChunkOptions) :
  0 < MinChunkSize options ->
  TrimSpace (last (Split (doc_Content doc) blank_line) []) <> [] ->
  exists groups final,
    slidingWindowChunking doc options =
      (numbered (strategy_chunk doc) (groups ++ [final]) 0, None) /\
    concat (groups ++ [final]) = trimmed_paragraphs (doc_Content doc) /\
    Forall (fun h => h <> [] /\
                     MinChunkSize options <= len (Join h blank_line)) groups /\
    final <> [].
Proof.
  intros Hmin Hlast.
  destruct (@window_run_groups (strategy_chunk doc) (MaxChunkSize options)
              (MinChunkSize options) Hmin (doc_Content doc) Hlast)
    as [groups [final [Hc [Hcat [Hgs [Hne _]]]]]].
  exists groups, final. unfold slidingWindowChunking. rewrite Hc.
  repeat split; try assumption.
  eapply Forall_impl; [| exact Hgs]. intros h [H1 [_ H2]]. now split.
Qed.

Definition two_paragraphs : Document :=
  {| doc_Title := []; doc_Path := lit "n.md";
     doc_Content := lit "one" ++ blank_line ++ lit "two";
     doc_Frontmatter := None; doc_Sections := []; doc_Tags := [] |}.

Lemma two_paragraphs_end :
  TrimSpace (last (Split (doc_Content two_paragraphs) blank_line) []) <> [].
Proof. vm_compute. discriminate. Qed.

Lemma ChunkBySlidingWindow_groups_paragraphs_witness :
  100 < 500 /\
  exists groups final,
    ChunkBySlidingWindow two_paragraphs 500 100 =
      numbered (window_chunk two_paragraphs) (groups ++ [final]) 0 /\
    concat (groups ++ [final]) = trimmed_paragraphs (doc_Content two_paragraphs).
Proof.
  split; [reflexivity |].
  destruct (@ChunkBySlidingWindow_groups_paragraphs two_paragraphs 500 100
              eq_refl two_paragraphs_end)
    as [groups [final [H1 [H2 _]]]].
  exists groups, final. split; assumption.
Defined.

Lemma slidingWindowChunking_groups_paragraphs_witness :
  0 < MinChunkSize sliding_window_options /\
  exists groups final,
    slidingWindowChunking two_paragraphs sliding_window_options =
      (numbered (strategy_chunk two_paragraphs) (groups ++ [final]) 0, None) /\
    concat (groups ++ [final]) = trimmed_paragraphs (doc_Content two_paragraphs).
Proof.
  split; [reflexivity |].
  destruct (@slidingWindowChunking_groups_paragraphs two_paragraphs
              sliding_window_options eq_refl two_paragraphs_end)
    as [groups [final [H1 [H2 _]]]].
  exists groups, final. split; assumption.
Defined.

(** With an overlap that is not below the window size the first chunk
    can be empty: the buffer is closed before it holds anything. *)
Lemma empty_chunk_without_minimum :
  map ch_Content
      (ChunkBySlidingWindow
         {| doc_Title := []; doc_Path := lit "n.md";
            doc_Content := lit "abcdefgh";
            doc_Frontmatter := None; doc_Sections := []; doc_Tags := [] |}
         5 5) = [[]; lit "abcdefgh"].
Proof. vm_compute. reflexivity. Qed.

End WindowChunkers.

(* ================================================================= *)
(** ** The payload of a point, written and read back                  *)
(* ================================================================= *)

Section PayloadFacts.
Import Model Markdown Indexer Payloads.
Open Scope Z_scope.

Lemma str_eqb_neq (a b : str) : a <> b -> str_eqb a b = false.
Proof.
  intros H. destruct (str_eqb a b) eqn:E; [| reflexivity].
  apply str_eqb_eq in E. contradiction.
Qed.

(** Setting a key leaves the other keys as they are. *)
Lemma payload_get_set_other (p : payload) (k k' : str) (v : Value) :
  k' <> k -> payload_get (payload_set p k' v) k = payload_get p k.
Proof.
  intros Hne. induction p as [|[k0 v0] p IH]; simpl.
  - now rewrite (str_eqb_neq Hne).
  - destruct (str_eqb k0 k') eqn:E; simpl.
    + apply str_eqb_eq in E. subst k0. now rewrite (str_eqb_neq Hne).
    + destruct (str_eqb k0 k); [reflexivity | exact IH].
Qed.

(** The frontmatter, stored under keys that begin with fm_, changes no
    other key. *)
Lemma payload_get_frontmatter (fm : FmMap) (key : str) : forall base,
  (forall k, lit "fm_" ++ k <> key) ->
  payload_get
    (fold_left (fun p kv => payload_set p (lit "fm_" ++ fst kv)
                                        (fm_value (snd kv))) fm base) key
  = payload_get base key.
Proof.
  intros base Hkey. revert base.
  induction fm as [|[k v] fm IH]; intros base; simpl; [reflexivity |].
  rewrite IH. apply payload_get_set_other. apply Hkey.
Qed.

Lemma strings_of_values (l : list str) :
  flat_map (fun v => match v with StringValue s => [s] | _ => [] end)
           (map StringValue l) = l.
Proof. induction l as [|s l IH]; simpl; [reflexivity | now rewrite IH]. Qed.

Ltac not_frontmatter :=
  let k := fresh in let E := fresh in
  intros k E; cbv in E; discriminate E.

Lemma point_payload_get doc path basePath relPath vaultName chunk i total :
  let p := point_payload doc path basePath relPath vaultName chunk i total in
  payload_get p (lit "path") = Some (StringValue relPath) /\
  payload_get p (lit "full_path") = Some (StringValue path) /\
  payload_get p (lit "vault_name") = Some (StringValue vaultName) /\
  payload_get p (lit "content") = Some (StringValue (ch_ContentOnly chunk)) /\
  payload_get p (lit "title") = Some (StringValue (doc_Title doc)) /\
  payload_get p (lit "section") = Some (StringValue (ch_Section chunk)) /\
  payload_get p (lit "tags") = Some (ListValue (map StringValue (doc_Tags doc))) /\
  payload_get p (lit "chunk_index") = Some (IntegerValue i) /\
  payload_get p (lit "total_chunks") = Some (IntegerValue total).
Proof.
  unfold point_payload.
  repeat split; (rewrite payload_get_frontmatter; [reflexivity | not_frontmatter]).
Qed.

(** X18: what indexFile stores for a chunk is what the search reads back.
    On the payload of the point of chunk [i], whatever the frontmatter of
    the document holds, the accessors return the relative path, the full
    path, the vault name, the content, the document title, the section
    title, the tags of the document and the index [i]; and a result that
    Search builds from a scored point with this payload carries them. *)
Theorem stored_payload_reads_back (doc : Document)
    (path basePath relPath vaultName : str) (chunk : Chunk) (i total : Z) :
  GetPayloadString
    (point_payload doc path basePath relPath vaultName chunk i total)
    (lit "path") = (relPath, true) /\
  GetPayloadString
    (point_payload doc path basePath relPath vaultName chunk i total)
    (lit "full_path") = (path, true) /\
  GetPayloadString
    (point_payload doc path basePath relPath vaultName chunk i total)
    (lit "vault_name") = (vaultName, true) /\
  GetPayloadStringSlice
    (point_payload doc path basePath relPath vaultName chunk i total)
    (lit "tags") = (doc_Tags doc, true) /\
  GetPayloadInt
    (point_payload doc path basePath relPath vaultName chunk i total)
    (lit "chunk_index") = (i, true) /\
  forall (score : Type) (score_lt : score -> score -> bool)
         (score_zero s : score) (options : SearchOptions score)
         (r : SearchResult score),
    to_result score_lt score_zero options
      {| sp_Score := s;
         sp_Payload :=
           point_payload doc path basePath relPath vaultName chunk i total |}
      = Some r ->
    res_Path r = relPath /\ res_Title r = doc_Title doc /\
    res_Section r = ch_Section chunk /\
    res_Content r = ch_ContentOnly chunk /\
    res_Tags r = doc_Tags doc /\ res_ChunkIndex r = i /\ res_Score r = s.
Proof.
  destruct (point_payload_get doc path basePath relPath vaultName chunk i total)
    as [Hpath [Hfull [Hvault [Hcontent [Htitle [Hsection [Htags [Hindex _]]]]]]]].
  unfold GetPayloadString, GetPayloadStringSlice, GetPayloadInt.
  rewrite Hpath, Hfull, Hvault, Htags, Hindex, strings_of_values.
  repeat split.
  all: apply to_result_read in H as [Hr _];
    destruct Hr as [R1 [R2 [R3 [R4 [R5 [R6 [R7 _]]]]]]];
    cbn [sp_Payload sp_Score] in *;
    unfold GetPayloadString, GetPayloadStringSlice, GetPayloadInt in *;
    rewrite ?Hpath, ?Hcontent, ?Htitle, ?Hsection, ?Htags, ?Hindex,
      ?strings_of_values in *;
    assumption.
Qed.

(** *** From the Go map to the payload *)

Definition conv (m : list (str * GoValue)) : payload :=
  map (fun kv => (fst kv, toValue (snd kv))) m.

Lemma payload_set_fresh (p : payload) (k : str) (v : Value) :
  ~ In k (map fst p) -> payload_set p k v = p ++ [(k, v)].
Proof.
  induction p as [|[k0 v0] p IH]; simpl; intros Hk; [reflexivity |].
  rewrite str_eqb_neq by (intros E; apply Hk; now left).
  rewrite IH; [reflexivity |]. intros H. apply Hk. now right.
Qed.

Lemma StructToPayload_fold (m : list (str * GoValue)) : forall acc,
  NoDup (map fst acc ++ map fst m) ->
  fold_left (fun p kv => payload_set p (fst kv) (toValue (snd kv))) m acc
  = acc ++ conv m.
Proof.
  induction m as [|[k v] m IH]; intros acc Hnd; simpl.
  - now rewrite app_nil_r.
  - simpl in Hnd.
    rewrite payload_set_fresh.
    + rewrite IH.
      * now rewrite <- app_assoc.
      * rewrite map_app. simpl. rewrite <- app_assoc. exact Hnd.
    + apply NoDup_remove_2 in Hnd. intros H. apply Hnd.
      apply in_or_app. now left.
Qed.

Lemma conv_go_set (m : list (str * GoValue)) (k : str) (v : GoValue) :
  conv (go_set m k v) = payload_set (conv m) k (toValue v).
Proof.
  induction m as [|[k0 v0] m IH]; simpl; [reflexivity |].
  destruct (str_eqb k0 k); simpl; [reflexivity | now rewrite IH].
Qed.

Lemma go_set_keys (m : list (str * GoValue)) (k : str) (v : GoValue) x :
  In x (map fst (go_set m k v)) -> In x (map fst m) \/ x = k.
Proof.
  induction m as [|[k0 v0] m IH]; simpl.
  - intros [<- | []]. now right.
  - destruct (str_eqb k0 k) eqn:E; simpl.
    + apply str_eqb_eq in E. subst k0. tauto.
    + intros [<- | H]; [tauto |]. destruct (IH H); tauto.
Qed.

Lemma go_set_NoDup (m : list (str * GoValue)) (k : str) (v : GoValue) :
  NoDup (map fst m) -> NoDup (map fst (go_set m k v)).
Proof.
  induction m as [|[k0 v0] m IH]; simpl; intros Hnd.
  - repeat constructor. intros [].
  - inversion Hnd as [|? ? Hnot Hnd']; subst.
    destruct (str_eqb k0 k) eqn:E; simpl.
    + apply str_eqb_eq in E. subst k0. now constructor.
    + constructor; [| now apply IH].
      intros H. apply go_set_keys in H as [H | ->]; [contradiction |].
      rewrite str_eqb_refl in E. discriminate E.
Qed.

Lemma toValue_strings (l : list str) :
  map toValue (map GString l) = map StringValue l.
Proof. induction l as [|s l IH]; simpl; [reflexivity | now rewrite IH]. Qed.

Lemma toValue_frontmatter (v : FmValue) : toValue (go_fm_value v) = fm_value v.
Proof.
  destruct v as [s | l]; simpl; [reflexivity |]. now rewrite toValue_strings.
Qed.

Lemma frontmatter_fold (fm : FmMap) : forall m,
  NoDup (map fst m) ->
  NoDup (map fst (fold_left
                    (fun m kv => go_set m (lit "fm_" ++ fst kv)
                                        (go_fm_value (snd kv))) fm m)) /\
  conv (fold_left (fun m kv => go_set m (lit "fm_" ++ fst kv)
                                      (go_fm_value (snd kv))) fm m)
  = fold_left (fun p kv => payload_set p (lit "fm_" ++ fst kv)
                                       (fm_value (snd kv))) fm (conv m).
Proof.
  induction fm as [|[k v] fm IH]; intros m Hnd; cbn [fold_left fst snd].
  - now split.
  - destruct (IH (go_set m (lit "fm_" ++ k) (go_fm_value v))
                 (@go_set_NoDup m (lit "fm_" ++ k) (go_fm_value v) Hnd))
      as [H1 H2].
    split; [exact H1 |].
    now rewrite H2, conv_go_set, toValue_frontmatter.
Qed.

(** X19: StructToPayload turns the map that indexFile builds for a
    chunk into the payload of its point: each string becomes a string
    value, the tags a list of string values, the two indices integer
    values, and each frontmatter entry a value under its key with the
    prefix fm_, a string or a list of strings. *)
Theorem StructToPayload_of_chunk (doc : Document)
    (path basePath relPath vaultName : str) (chunk : Chunk) (i total : Z) :
  StructToPayload (go_payload doc path basePath relPath vaultName chunk i total)
  = point_payload doc path basePath relPath vaultName chunk i total.
Proof.
  unfold StructToPayload, go_payload, point_payload.
  match goal with
  | |- context [fold_left (fun m kv => go_set m _ _) ?fm ?base] =>
      assert (Hbase : NoDup (map fst base))
  end.
  { cbn [map fst].
    repeat (constructor;
            [cbn [In]; intros H;
             repeat (destruct H as [H | H]; [cbv in H; discriminate H |]);
             exact H |]).
    constructor. }
  match goal with
  | |- context [fold_left (fun m kv => go_set m _ _) ?fm ?base] =>
      destruct (@frontmatter_fold fm base Hbase) as [Hnd Hconv]
  end.
  rewrite StructToPayload_fold by exact Hnd.
  cbn [app]. rewrite Hconv. unfold conv at 1. cbn [map fst snd toValue].
  now rewrite toValue_strings.
Qed.

End PayloadFacts.

(* ================================================================= *)
(** ** The search of the API: results and filters                     *)
(* ================================================================= *)

Section ApiResults.
Import Model Indexer ApiSearch.
Open Scope Z_scope.

Variable score : Type.
Variable score_min : score.

(** The excerpt of a content: the content when it is short, or else its
    first bytes followed by three dots. *)
Definition excerpt_of (content excerpt : str) (maxLength : Z) : Prop :=
  len excerpt <= maxLength /\
  (len content <= maxLength -> excerpt = content) /\
  (maxLength < len content ->
   excerpt = firstn (Z.to_nat (maxLength - 3)) content ++ lit "...").

Lemma extractExcerpt_fits (content query : str) (maxLength : Z) :
  3 <= maxLength ->
  exists excerpt,
    extractExcerpt content query maxLength = Some excerpt /\
    excerpt_of content excerpt maxLength.
Proof.
  intros Hmax. unfold extractExcerpt, excerpt_of.
  destruct (Z.leb_spec (len content) maxLength) as [Hle | Hgt].
  - exists content. repeat split; [exact Hle | lia].
  - destruct (Z.ltb_spec (maxLength - 3) 0) as [Hneg | _]; [lia |].
    eexists. split; [reflexivity |]. repeat split; [| lia].
    unfold len in *. rewrite length_app, length_firstn. simpl. lia.
Qed.

(** The API result [a] is the result [r] of the indexer with the
    identifier of position [k] and an excerpt of at most 150 bytes. *)
Definition converted (k : Z) (r : SearchResult score) (a : ApiResult score)
    : Prop :=
  api_ID a = lit "result-" ++ Itoa k /\
  api_Path a = res_Path r /\ api_Title a = res_Title r /\
  api_Content a = res_Content r /\ api_Score a = res_Score r /\
  api_Tags a = res_Tags r /\ api_Section a = res_Section r /\
  api_Metadata a = res_Metadata r /\
  excerpt_of (res_Content r) (api_Excerpt a) 150.

Lemma convert_results_converted query results : forall i,
  exists out,
    convert_results query results i = Some out /\
    length out = length results /\
    forall k r, nth_error results k = Some r ->
      exists a, nth_error out k = Some a /\ converted (i + Z.of_nat k) r a.
Proof.
  induction results as [|r results IH]; intros i; simpl.
  - exists []. repeat split. intros [|k] r H; discriminate H.
  - destruct (@extractExcerpt_fits (res_Content r) query 150)
      as [excerpt [He Hex]]; [lia |].
    destruct (IH (i + 1)) as [out [Ho [Hlen Hall]]].
    rewrite He, Ho. eexists. split; [reflexivity |]. split.
    + simpl. now rewrite Hlen.
    + intros [|k] r' Hk; simpl in Hk.
      * inversion Hk; subst. eexists. split; [reflexivity |].
        unfold converted. simpl. rewrite Z.add_0_r.
        repeat split; apply Hex.
      * destruct (Hall k r' Hk) as [a [Ha Hc]].
        exists a. split; [exact Ha |].
        replace (i + Z.of_nat (S k)) with (i + 1 + Z.of_nat k) by lia.
        exact Hc.
Qed.

(** X20: Service.Search of the API always returns.  When it returns
    results, the indexer was asked with the limit given, or 10 when that
    is not positive, with offset 0 and the filter parsed, and the results
    are those of the indexer in their order: result [k] has the identifier
    result-[k], the fields of the indexer's result [k], and as excerpt its
    content when that has at most 150 bytes, or else the first 147 bytes
    followed by three dots. *)
Theorem Search_converts_results
    (embed : list str -> list vector + str)
    (indexer_Search : str -> SearchOptions score ->
                      list (SearchResult score) + str)
    (query : str) (limit : Z) (filter : str) :
  match Search score_min embed indexer_Search query limit filter with
  | NoReturn => False
  | Err _ => True
  | Ok out =>
      exists options results,
        indexer_Search query options = inl results /\
        Limit options = (if limit <=? 0 then 10 else limit) /\
        Offset options = 0 /\
        (PathPrefix options, Tags options) = parse_filter filter /\
        length out = length results /\
        forall k r, nth_error results k = Some r ->
          exists a, nth_error out k = Some a /\ converted (Z.of_nat k) r a
  end.
Proof.
  unfold Search. destruct (parse_filter filter) as [pathPrefix tags].
  destruct (embed [query]) as [[|v vs] | err]; try exact I.
  destruct (indexer_Search query _) as [results | err] eqn:Hs; [| exact I].
  destruct (convert_results_converted query results 0)
    as [out [Ho [Hlen Hall]]].
  rewrite Ho. eexists. exists results.
  split; [exact Hs |]. repeat split; try assumption.
Qed.

End ApiResults.

Section ApiFilters.
Import Model Indexer ApiSearch.
Open Scope Z_scope.

(** [Split] with a separator of one byte. *)
Lemma Split_aux_without (d : ascii) (s : str) : forall cur,
  existsb (byte_eqb d) s = false ->
  Split_aux [d] s 0 cur = [rev cur ++ s].
Proof.
  induction s as [|c s IH]; intros cur H; simpl.
  - now rewrite app_nil_r.
  - simpl in H. apply orb_false_iff in H as [Hc Hs].
    rewrite byte_eqb_sym, Hc. simpl.
    rewrite IH by exact Hs. simpl. now rewrite <- app_assoc.
Qed.

Lemma Split_aux_some (sep s : str) : forall skip cur,
  (1 <= length (Split_aux sep s skip cur))%nat.
Proof.
  induction s as [|c s IH]; intros skip cur; cbn [Split_aux].
  - cbn [length]. lia.
  - destruct skip; [| apply IH].
    destruct (HasPrefix (c :: s) sep); [cbn [length]; lia | apply IH].
Qed.

Lemma Split_aux_with (d : ascii) (s : str) : forall cur,
  existsb (byte_eqb d) s = true ->
  (2 <= length (Split_aux [d] s 0 cur))%nat.
Proof.
  induction s as [|c s IH]; intros cur H; simpl in *; [discriminate H |].
  rewrite (byte_eqb_sym c d).
  destruct (byte_eqb d c); simpl.
  - replace (HasPrefix s []) with true by (destruct s; reflexivity).
    pose proof (Split_aux_some [d] s 0 []). cbn [length]. lia.
  - apply IH. exact H.
Qed.

Lemma HasPrefix_nil (s : str) : HasPrefix s [] = true.
Proof. destruct s; reflexivity. Qed.

Lemma Contains_byte (d : ascii) (s : str) :
  Contains s [d] = existsb (byte_eqb d) s.
Proof.
  induction s as [|c s IH]; simpl; [reflexivity |].
  now rewrite HasPrefix_nil, andb_true_r, IH, byte_eqb_sym.
Qed.

(** The first piece ends at the first separator. *)
Lemma Split_aux_first (d : ascii) (a b : str) : forall cur,
  existsb (byte_eqb d) a = false ->
  Split_aux [d] (a ++ d :: b) 0 cur = (rev cur ++ a) :: Split_aux [d] b 0 [].
Proof.
  induction a as [|c a IH]; intros cur H; cbn [app Split_aux].
  - cbn [HasPrefix]. rewrite HasPrefix_nil, andb_true_r.
    unfold byte_eqb. rewrite Ascii.eqb_refl. now rewrite app_nil_r.
  - cbn [existsb] in H. apply orb_false_iff in H as [Hc Ha].
    cbn [HasPrefix]. rewrite byte_eqb_sym, Hc. cbn [andb].
    rewrite IH by exact Ha. cbn [rev]. now rewrite <- app_assoc.
Qed.

Lemma Split_first (d : ascii) (a b : str) :
  existsb (byte_eqb d) a = false ->
  Split (a ++ d :: b) [d] = a :: Split b [d].
Proof. intros H. unfold Split. now rewrite Split_aux_first. Qed.

(** X21: the path prefix of a search request reaches the search only
    when it holds no colon.  The filter that handleSearchQuery builds from
    a path prefix that is not empty is parsed by Service.Search into that
    prefix, trimmed, and no tags; when the prefix holds a colon, as the
    path of a Windows drive does, it is parsed into no filter at all.  The
    tags of a request that also has a path prefix are not used, and
    ParseSearchParameters builds the same filter. *)
Theorem path_filter_round_trip (pathPrefix : str) (tags : list str) :
  pathPrefix <> [] ->
  parse_filter (build_filter pathPrefix tags) =
    (if existsb (byte_eqb ":"%char) pathPrefix then []
     else TrimSpace pathPrefix, []) /\
  query_filter pathPrefix tags [] = build_filter pathPrefix tags.
Proof.
  intros Hne. unfold build_filter, query_filter.
  rewrite (str_eqb_neq Hne). cbn [negb]. split; [| reflexivity].
  unfold parse_filter.
  change (lit "path:" ++ pathPrefix)
    with (lit "path" ++ ":"%char :: pathPrefix).
  change (lit ":") with [":"%char].
  rewrite Contains_byte, existsb_app, Split_first by reflexivity.
  cbn [existsb]. change (byte_eqb ":" ":") with true.
  rewrite orb_true_r. cbn [orb]. rewrite andb_true_r.
  change (str_eqb (lit "path" ++ ":"%char :: pathPrefix) []) with false.
  cbn [negb]. unfold Split.
  destruct (existsb (byte_eqb ":"%char) pathPrefix) eqn:Hcolon.
  - pose proof (@Split_aux_with ":"%char pathPrefix [] Hcolon) as Hlen.
    destruct (Split_aux [":"%char] pathPrefix 0 []) as [|x [|y l]];
      cbn [length] in Hlen; try lia. reflexivity.
  - rewrite Split_aux_without by exact Hcolon. reflexivity.
Qed.

Lemma path_filter_round_trip_witness :
  parse_filter (build_filter (lit "notes/work") [lit "todo"])
    = (lit "notes/work", []) /\
  parse_filter (build_filter (lit "C:/notes") []) = ([], []).
Proof.
  split.
  - exact (proj1 (@path_filter_round_trip (lit "notes/work") [lit "todo"]
                    ltac:(discriminate))).
  - exact (proj1 (@path_filter_round_trip (lit "C:/notes") []
                    ltac:(discriminate))).
Defined.

End ApiFilters.

(* ================================================================= *)
(** ** The identifiers are well-formed UUIDs                          *)
(* ================================================================= *)

Section UuidForm.
Import UUID Model.
Open Scope Z_scope.

Definition is_byte_value (b : Z) : Prop := 0 <= b < 256.

Lemma unhex_hex_digit (d : Z) :
  0 <= d < 16 -> unhex_digit (hex_digit d) = Some d.
Proof.
  intros H.
  assert (E : d = 0 \/ d = 1 \/ d = 2 \/ d = 3 \/ d = 4 \/ d = 5 \/ d = 6 \/
              d = 7 \/ d = 8 \/ d = 9 \/ d = 10 \/ d = 11 \/ d = 12 \/
              d = 13 \/ d = 14 \/ d = 15) by lia.
  repeat (destruct E as [-> | E]; [reflexivity |]). subst d. reflexivity.
Qed.

Lemma unhex_hex_byte (b : Z) (rest : str) (fuel : nat) (r : list Z) :
  is_byte_value b ->
  unhex fuel rest = Some r ->
  unhex (S fuel) (hex_byte b ++ rest) = Some (b :: r).
Proof.
  intros Hb Hr. unfold hex_byte. cbn [app unhex].
  rewrite !unhex_hex_digit, Hr.
  - do 2 f_equal. unfold is_byte_value in Hb.
    pose proof (Z.div_mod b 16). lia.
  - apply Z.mod_pos_bound. lia.
  - unfold is_byte_value in Hb. split.
    + apply Z.div_pos; lia.
    + apply Z.div_lt_upper_bound; lia.
Qed.

Lemma unhex_hex (bs : list Z) :
  Forall is_byte_value bs -> unhex (length bs) (hex bs) = Some bs.
Proof.
  induction 1 as [|b bs Hb _ IH]; [reflexivity |].
  cbn [hex flat_map length]. now apply unhex_hex_byte.
Qed.

Lemma hex_length (bs : list Z) : length (hex bs) = (2 * length bs)%nat.
Proof.
  induction bs as [|b bs IH]; [reflexivity |].
  cbn [hex flat_map length app hex_byte]. fold (hex bs). rewrite IH. lia.
Qed.

Lemma hex_app (a b : list Z) : hex (a ++ b) = hex a ++ hex b.
Proof. unfold hex. apply flat_map_app. Qed.

(** The text of a UUID is read back as the UUID. *)
Lemma Parse_String (u : uuid) :
  length u = 16%nat -> Forall is_byte_value u -> Parse (String u) = Some u.
Proof.
  intros Hlen Hall.
  do 16 (destruct u as [|? u]; [discriminate Hlen |]).
  destruct u; [| discriminate Hlen].
  pose proof (unhex_hex Hall) as Hun.
  unfold Parse, String.
  cbn [firstn skipn hex flat_map hex_byte app lit list_ascii_of_string
       length Nat.eqb forallb nth andb].
  unfold slice.
  cbn [Nat.sub firstn skipn app].
  change (byte_eqb "-" "-") with true. cbn [andb].
  cbn [hex flat_map hex_byte app length] in Hun.
  exact Hun.
Qed.

Lemma be_bytes_values (n : nat) (x : Z) : Forall is_byte_value (be_bytes n x).
Proof.
  induction n as [|n IH]; cbn [be_bytes]; constructor; [| exact IH].
  unfold is_byte_value. change 0xFF with (Z.ones 8).
  rewrite Z.land_ones by lia. apply Z.mod_pos_bound. reflexivity.
Qed.

Lemma be_bytes_length (n : nat) (x : Z) : length (be_bytes n x) = n.
Proof. induction n as [|n IH]; cbn [be_bytes length]; [| rewrite IH]; reflexivity. Qed.

Lemma sha1_values (msg : list Z) :
  length (sha1 msg) = 20%nat /\ Forall is_byte_value (sha1 msg).
Proof.
  unfold sha1. split.
  - rewrite !length_app, !be_bytes_length. reflexivity.
  - repeat (apply Forall_app; split); apply be_bytes_values.
Qed.

Lemma land_lor_value (b mask bits : Z) :
  0 <= mask < 256 -> 0 <= bits < 256 ->
  is_byte_value (Z.lor (Z.land b mask) bits).
Proof.
  intros Hm Hb. unfold is_byte_value.
  assert (E : Z.land (Z.lor (Z.land b mask) bits) (Z.ones 8)
              = Z.lor (Z.land b mask) bits).
  { rewrite Z.land_lor_distr_l, <- Z.land_assoc.
    rewrite (Z.land_ones mask), (Z.land_ones bits) by lia.
    now rewrite !Z.mod_small by (change (2 ^ 8) with 256; lia). }
  rewrite <- E, Z.land_ones by lia. apply Z.mod_pos_bound. reflexivity.
Qed.

Lemma NewSHA1_values (space : uuid) (data : str) :
  length (NewSHA1 space data) = 16%nat /\
  Forall is_byte_value (NewSHA1 space data).
Proof.
  unfold NewSHA1.
  destruct (sha1_values (space ++ map byte_val data)) as [Hlen Hall].
  remember (sha1 (space ++ map byte_val data)) as h eqn:Hh. clear Hh.
  do 20 (destruct h as [|? h]; [discriminate Hlen |]).
  destruct h; [| discriminate Hlen].
  cbn [firstn set_version length]. split; [reflexivity |].
  repeat match goal with
         | H : Forall _ (_ :: _) |- _ => inversion H; subst; clear H
         end.
  repeat first
    [ apply Forall_nil
    | apply Forall_cons;
      [ first [ assumption
              | apply land_lor_value;
                [ lia
                | first [ lia
                        | vm_compute; split; [discriminate | reflexivity] ] ] ]
      | ] ].
Qed.

(** X22: the identifier that HashString makes of any input has the text
    form of a UUID: uuid.Parse reads it back as the 16 bytes it was made
    of, it is 36 bytes long, its version digit is 5 and its variant digit
    is 8, 9, a or b. *)
Theorem HashString_is_a_version5_uuid (input : str) :
  Parse (HashString input) = Some (NewSHA1 namespaceUUID input) /\
  length (HashString input) = 36%nat /\
  nth 14 (HashString input) "0"%char = "5"%char /\
  In (nth 19 (HashString input) "0"%char)
     ["8"%char; "9"%char; "a"%char; "b"%char].
Proof.
  unfold HashString.
  destruct (NewSHA1_values namespaceUUID input) as [Hlen Hall].
  split; [now apply Parse_String |].
  unfold NewSHA1 in *.
  destruct (sha1_values (namespaceUUID ++ map byte_val input)) as [Hl _].
  remember (sha1 (namespaceUUID ++ map byte_val input)) as h eqn:Hh. clear Hh.
  do 20 (destruct h as [|? h]; [discriminate Hl |]).
  destruct h; [| discriminate Hl].
  cbn [firstn set_version String skipn hex flat_map hex_byte app lit
       list_ascii_of_string length nth].
  split; [reflexivity |].
  split.
  - set (b := Z.lor _ _).
    assert (Hb : 80 <= b < 96).
    { unfold b. clear.
      match goal with |- context [Z.land ?x 15] =>
        assert (Hx : 0 <= Z.land x 15 < 16)
          by (change 15 with (Z.ones 4); rewrite Z.land_ones by lia;
              apply Z.mod_pos_bound; reflexivity);
        remember (Z.land x 15) as v eqn:Hv; clear Hv end.
      change (Z.land (Z.shiftl (Z.land 5 15) 4) 255) with 80.
      assert (E : v = 0 \/ v = 1 \/ v = 2 \/ v = 3 \/ v = 4 \/ v = 5 \/
                  v = 6 \/ v = 7 \/ v = 8 \/ v = 9 \/ v = 10 \/ v = 11 \/
                  v = 12 \/ v = 13 \/ v = 14 \/ v = 15) by lia.
      repeat (destruct E as [-> | E]; [vm_compute; split; [discriminate | reflexivity] |]).
      subst v. vm_compute. split; [discriminate | reflexivity]. }
    replace (b / 16) with 5; [reflexivity |].
    apply Z.div_unique with (r := b - 80); lia.
  - set (b := Z.lor _ 128).
    assert (Hb : 128 <= b < 192).
    { unfold b. clear.
      match goal with |- context [Z.land ?x 63] =>
        assert (Hx : 0 <= Z.land x 63 < 64)
          by (change 63 with (Z.ones 6); rewrite Z.land_ones by lia;
              apply Z.mod_pos_bound; reflexivity);
        assert (Hd : Z.land (Z.land x 63) 128 = 0)
          by (rewrite <- Z.land_assoc; apply Z.land_0_r);
        remember (Z.land x 63) as v eqn:Hv; clear Hv end.
      rewrite <- Z.lxor_lor by exact Hd.
      rewrite <- Z.add_nocarry_lxor by exact Hd. lia. }
    assert (E : b / 16 = 8 \/ b / 16 = 9 \/ b / 16 = 10 \/ b / 16 = 11).
    { assert (8 <= b / 16) by (apply Z.div_le_lower_bound; lia).
      assert (b / 16 < 12) by (apply Z.div_lt_upper_bound; lia). lia. }
    destruct E as [-> | [-> | [-> | ->]]]; cbn [In]; auto.
Qed.

End UuidForm.

(* ================================================================= *)
(** ** The offsets and lines of the sections                          *)
(* ================================================================= *)

Section SectionOffsets.
Import Regexp Markdown.
Open Scope Z_scope.

(** A section lies within a body of [n] bytes: its offsets and lines are
    in order, and its content is no longer than the range of its
    offsets. *)
Definition within (n : Z) (s : MdSection) : Prop :=
  0 <= sec_StartOffset s /\ sec_StartOffset s <= sec_EndOffset s /\
  sec_EndOffset s <= n /\
  1 <= sec_StartLine s /\ sec_StartLine s <= sec_EndLine s /\
  len (sec_Content s) <= sec_EndOffset s - sec_StartOffset s.

(** Each section ends at the offset and on the line where the next one
    starts; the last one ends at offset [n] and on line [lastLine]. *)
Fixpoint chained (sections : list MdSection) (n lastLine : Z) : Prop :=
  match sections with
  | [] => True
  | s :: rest =>
      match rest with
      | [] => sec_EndOffset s = n /\ sec_EndLine s = lastLine
      | s' :: _ =>
          sec_EndOffset s = sec_StartOffset s' /\
          sec_EndLine s = sec_StartLine s' /\
          chained rest n lastLine
      end
  end.

Lemma count_nl_firstn (l : str) (a b : nat) :
  (a <= b)%nat -> count_nl (firstn a l) <= count_nl (firstn b l).
Proof.
  intros H. replace b with (a + (b - a))%nat by lia.
  rewrite <- firstn_firstn_skipn. unfold count_nl.
  rewrite filter_app, length_app. lia.
Qed.

Lemma slice_length (l : str) (i j : nat) :
  (length (slice l i j) <= j - i)%nat.
Proof. unfold slice. rewrite length_firstn. lia. Qed.

Lemma sections_of_first content m ms :
  exists s rest,
    sections_of content (m :: ms) = s :: rest /\
    rest = sections_of content ms /\
    sec_StartOffset s = Z.of_nat (f_start m) /\
    sec_EndOffset s = Z.of_nat (first_start content ms) /\
    sec_StartLine s = count_nl (firstn (f_start m) content) + 1 /\
    sec_EndLine s = count_nl (firstn (first_start content ms) content) + 1 /\
    sec_Content s = slice content (f_end m) (first_start content ms).
Proof.
  cbn [sections_of].
  destruct (group (f_caps m) 1) as [levelStart levelEnd].
  destruct (group (f_caps m) 2) as [titleStart titleEnd].
  eexists. eexists. split; [reflexivity |].
  repeat split.
Qed.

Lemma sections_of_contiguous content : forall ms lo,
  ordered lo ms (length content) ->
  Forall (within (len content)) (sections_of content ms) /\
  chained (sections_of content ms) (len content) (count_nl content + 1).
Proof.
  induction ms as [|m ms IH]; intros lo H.
  - split; constructor.
  - destruct H as [H1 [H2 H3]].
    destruct (IH _ H3) as [IHw IHc].
    pose proof (@ordered_bounds content ms (f_end m) H3) as [H4 H5].
    destruct (sections_of_first content m ms)
      as [s [rest [E [Hrest [Hso [Heo [Hsl [Hel Hcontent]]]]]]]].
    rewrite E. subst rest. split.
    + constructor; [| exact IHw].
      unfold within. rewrite Hso, Heo, Hsl, Hel, Hcontent.
      pose proof (@count_nl_firstn content (f_start m)
                    (first_start content ms)) as Hmono.
      pose proof (slice_length content (f_end m) (first_start content ms)).
      assert (0 <= count_nl (firstn (f_start m) content))
        by (unfold count_nl; lia).
      unfold len. repeat split; try lia; apply Hmono; lia.
    + cbn [chained].
      destruct ms as [|m' ms'].
      * cbn [sections_of]. rewrite Heo, Hel. cbn [first_start].
        rewrite firstn_all. split; reflexivity.
      * destruct (sections_of_first content m' ms')
          as [s' [rest' [E' [_ [Hso' [_ [Hsl' _]]]]]]].
        rewrite E' in *. rewrite Heo, Hel, Hso', Hsl'. cbn [first_start].
        repeat split. exact IHc.
Qed.

(** X23: the sections that parseSections returns for a body are never
    none, lie within the body with their offsets and lines in order, and
    follow each other without a gap: each section ends at the offset and
    on the line where the next one starts, and the last one ends at the
    end of the body, on its last line.  No content of a section is longer
    than the range of its offsets. *)
Theorem parseSections_contiguous (body : str) :
  parseSections body <> [] /\
  Forall (within (len body)) (parseSections body) /\
  chained (parseSections body) (len body) (count_nl body + 1).
Proof.
  unfold parseSections.
  destruct (@sections_of_contiguous body (FindAll headerRegex body) 0%nat
              (FindAll_ordered headerRegex body)) as [Hw Hc].
  destruct (sections_of body (FindAll headerRegex body)) as [|s rest] eqn:E.
  - split; [discriminate |]. split.
    + repeat constructor; cbn; unfold len, count_nl; lia.
    + cbn. split; reflexivity.
  - split; [discriminate |]. split; assumption.
Qed.

End SectionOffsets.

(* ================================================================= *)
(** ** The tags of a document                                         *)
(* ================================================================= *)

Section DocumentTags.
Import Regexp Markdown.

Lemma contains_In (tags : list str) (tag : str) :
  contains tags tag = true <-> In tag tags.
Proof.
  induction tags as [|t tags IH]; simpl.
  - split; [discriminate | intros []].
  - destruct (str_eqb t tag) eqn:E.
    + apply str_eqb_eq in E. subst. split; [now left | reflexivity].
    + rewrite IH. split; [now right |].
      intros [-> | H]; [| exact H].
      rewrite str_eqb_refl in E. discriminate E.
Qed.

(** The loop that appends the tags that are not yet there. *)
Definition add_new (tags new : list str) : list str :=
  fold_left (fun tags tag => if contains tags tag then tags else tags ++ [tag])
            new tags.

Lemma add_new_appends (new : list str) : forall tags,
  exists added,
    add_new tags new = tags ++ added /\
    NoDup added /\
    forall t, In t added <-> In t new /\ ~ In t tags.
Proof.
  unfold add_new.
  induction new as [|x new IH]; intros tags; simpl.
  - exists []. rewrite app_nil_r. split; [reflexivity |].
    split; [constructor |]. intros t. simpl. tauto.
  - destruct (contains tags x) eqn:E.
    + apply contains_In in E.
      destruct (IH tags) as [added [Ha [Hnd Hin]]].
      exists added. split; [exact Ha |]. split; [exact Hnd |].
      intros t. rewrite Hin. split; [tauto |].
      intros [[<- | H] Hn]; [contradiction | tauto].
    + assert (Hx : ~ In x tags).
      { intros H. apply contains_In in H. congruence. }
      destruct (IH (tags ++ [x])) as [added [Ha [Hnd Hin]]].
      exists (x :: added). rewrite Ha, <- app_assoc. split; [reflexivity |].
      split.
      * constructor; [| exact Hnd].
        intros H. apply Hin in H as [_ H]. apply H.
        apply in_or_app. right. now left.
      * intros t. simpl. rewrite Hin, in_app_iff. simpl.
        split.
        -- intros [<- | [H Hn]]; [tauto |]. split; [tauto |]. tauto.
        -- intros [[<- | H] Hn]; [tauto |].
           destruct (list_eq_dec ascii_dec x t) as [-> | Hne]; [tauto |].
           right. split; [exact H |]. intros [H' | [H' | []]]; tauto.
Qed.

Lemma extractInlineTags_add_new (content : str) :
  extractInlineTags content =
  add_new [] (map (fun m => slice content (fst (group (f_caps m) 1))
                                  (snd (group (f_caps m) 1)))
                  (FindAll tagRegex content)).
Proof.
  unfold extractInlineTags, add_new.
  assert (H : forall ms tags,
    fold_left
      (fun tags m =>
         let '(s, e) := group (f_caps m) 1 in
         let tag := slice content s e in
         if contains tags tag then tags else tags ++ [tag]) ms tags
    = fold_left
        (fun tags tag => if contains tags tag then tags else tags ++ [tag])
        (map (fun m => slice content (fst (group (f_caps m) 1))
                             (snd (group (f_caps m) 1))) ms) tags).
  { induction ms as [|m ms IH]; intros tags; simpl; [reflexivity |].
    destruct (group (f_caps m) 1) as [s e]. simpl. apply IH. }
  apply H.
Qed.

(** The tags of a parsed document: those of the frontmatter, when it is
    read, and the body that is searched for inline tags. *)
Definition frontmatter_tags_of (p : ParseOptions) (content : str) : list str :=
  if ExtractFrontmatter p then
    match fst (fst (extractFrontmatter content)) with
    | Some frontmatter => frontmatter_tags frontmatter
    | None => []
    end
  else [].

Definition body_of (p : ParseOptions) (content : str) : str :=
  if ExtractFrontmatter p then snd (fst (extractFrontmatter content))
  else content.

Lemma Parse_tags p content doc :
  Parse p content = (Some doc, None) ->
  doc_Tags doc =
    if ExtractTags p
    then add_new (frontmatter_tags_of p content)
                 (extractInlineTags (body_of p content))
    else [].
Proof.
  unfold Parse, frontmatter_tags_of, body_of, add_new.
  destruct (ExtractFrontmatter p).
  - unfold extractFrontmatter.
    destruct (Find frontmatterRegex content) as [m|].
    + destruct (group (f_caps m) 1), (group (f_caps m) 2). simpl.
      intros H. inversion H. destruct (ExtractTags p); reflexivity.
    + simpl. intros H. inversion H. destruct (ExtractTags p); reflexivity.
  - intros H. inversion H. simpl. destruct (ExtractTags p); reflexivity.
Qed.

(** X24: no inline tag is listed twice.  extractInlineTags returns no
    tag twice, and the tags of a parsed document are the tags of its
    frontmatter followed by the inline tags of its body that are not among
    them, each once; with tag extraction off the document has no tags. *)
Theorem Parse_tags_once (p : ParseOptions) (content : str) (doc : Document) :
  Parse p content = (Some doc, None) ->
  NoDup (extractInlineTags (body_of p content)) /\
  if ExtractTags p then
    exists inline,
      doc_Tags doc = frontmatter_tags_of p content ++ inline /\
      NoDup inline /\
      forall t, In t inline <->
                In t (extractInlineTags (body_of p content)) /\
                ~ In t (frontmatter_tags_of p content)
  else doc_Tags doc = [].
Proof.
  intros H. apply Parse_tags in H. split.
  - rewrite extractInlineTags_add_new.
    match goal with |- NoDup (add_new [] ?new) =>
      destruct (add_new_appends new []) as [added [E [Hnd _]]] end.
    rewrite E. exact Hnd.
  - destruct (ExtractTags p); [| exact H].
    destruct (add_new_appends (extractInlineTags (body_of p content))
                              (frontmatter_tags_of p content))
      as [inline [E [Hnd Hin]]].
    exists inline. rewrite H, E.
    split; [reflexivity |]. split; [exact Hnd | exact Hin].
Qed.

Definition tagged_note : str :=
  lit "# Plan" ++ [nl] ++ lit "do it #todo and #later, again #todo".

Lemma Parse_tags_once_witness :
  exists doc,
    Parse DefaultParseOptions tagged_note = (Some doc, None) /\
    doc_Tags doc = [lit "todo"; lit "later"] /\
    NoDup (extractInlineTags (body_of DefaultParseOptions tagged_note)).
Proof.
  destruct (Parse DefaultParseOptions tagged_note) as [[doc|] [err|]] eqn:E;
    pose proof E as E0; vm_compute in E; try discriminate E.
  exists doc. split; [reflexivity |].
  split; [inversion E; reflexivity |].
  apply (@Parse_tags_once DefaultParseOptions tagged_note doc E0).
Defined.

End DocumentTags.

(* ================================================================= *)
(** ** The tag filter of a search request                             *)
(* ================================================================= *)

Section TagFilter.
Import Model Indexer ApiSearch.
Open Scope nat_scope.

Definition comma : ascii := ","%char.

Lemma trim_left_length (fuel : nat) : forall s,
  length (trim_left fuel s) <= length s.
Proof.
  induction fuel as [|fuel IH]; intros s; cbn [trim_left]; [lia |].
  destruct (space_width s) as [|w]; [lia |].
  specialize (IH (skipn (S w) s)). rewrite length_skipn in IH. lia.
Qed.

Lemma trim_right_rev_length (fuel : nat) : forall r,
  length (trim_right_rev fuel r) <= length r.
Proof.
  induction fuel as [|fuel IH]; intros r; cbn [trim_right_rev]; [lia |].
  destruct (space_width_rev r) as [|w]; [lia |].
  specialize (IH (skipn (S w) r)). rewrite length_skipn in IH. lia.
Qed.

(** A string that trimming leaves as it is has no white space at
    either end. *)
Lemma trimmed_ends (t : str) :
  t <> [] -> TrimSpace t = t ->
  space_width t = 0 /\ space_width_rev (rev t) = 0.
Proof.
  intros Hne Ht.
  assert (Hlen : length t = length (TrimSpace t)) by now rewrite Ht.
  unfold TrimSpace, TrimRightSpace, TrimLeftSpace in *.
  destruct t as [|c t']; [contradiction |].
  set (t := c :: t') in *.
  assert (Hl : space_width t = 0).
  { destruct (space_width t) as [|w] eqn:E; [reflexivity | exfalso].
    rewrite length_rev in Hlen.
    pose proof (trim_right_rev_length (length (trim_left (length t) t))
                  (rev (trim_left (length t) t))) as H1.
    rewrite length_rev in H1.
    assert (H2 : length (trim_left (length t) t) < length t).
    { unfold t at 1. cbn [length trim_left]. fold t. rewrite E.
      pose proof (trim_left_length (length t') (skipn (S w) t)) as H3.
      rewrite length_skipn in H3. unfold t in *. cbn [length] in *. lia. }
    lia. }
  split; [exact Hl |].
  assert (Hleft : trim_left (length t) t = t).
  { unfold t at 1. cbn [length trim_left]. fold t. now rewrite Hl. }
  rewrite Hleft in Hlen.
  destruct (space_width_rev (rev t)) as [|w] eqn:E; [reflexivity | exfalso].
  rewrite length_rev in Hlen.
  assert (H2 : length (trim_right_rev (length t) (rev t)) < length t).
  { unfold t at 1. cbn [length trim_right_rev]. fold t. rewrite E.
    pose proof (trim_right_rev_length (length t') (skipn (S w) (rev t))) as H3.
    rewrite length_skipn, length_rev in H3. unfold t in *.
    cbn [length] in *. lia. }
  lia.
Qed.

Lemma untrimmed (s : str) :
  space_width s = 0 -> space_width_rev (rev s) = 0 -> TrimSpace s = s.
Proof.
  intros Hl Hr. unfold TrimSpace, TrimRightSpace, TrimLeftSpace.
  assert (Hleft : trim_left (length s) s = s).
  { destruct (length s); cbn [trim_left]; [reflexivity | now rewrite Hl]. }
  rewrite Hleft.
  assert (Hright : trim_right_rev (length s) (rev s) = rev s).
  { destruct (length s); cbn [trim_right_rev]; [reflexivity | now rewrite Hr]. }
  now rewrite Hright, rev_involutive.
Qed.

(** A comma completes no white-space rune. *)
Lemma space_width_before_comma (t r : str) :
  t <> [] -> space_width t = 0 -> space_width (t ++ comma :: r) = 0.
Proof.
  intros Hne H.
  destruct t as [|c [|d [|e t']]]; [contradiction | | |].
  - cbn [app]. unfold space_width in *.
    destruct (asciiSpace c); [discriminate H |].
    change (is_byte comma 133) with false. change (is_byte comma 160) with false.
    change (is_byte comma 154) with false. change (is_byte comma 128) with false.
    change (is_byte comma 129) with false.
    cbn [orb]. rewrite !andb_false_r. cbn [andb].
    destruct r; reflexivity.
  - cbn [app]. unfold space_width in *.
    destruct (asciiSpace c); [discriminate H |].
    destruct (is_byte c 194 && (is_byte d 133 || is_byte d 160));
      [discriminate H |].
    change (is_byte comma 128) with false. change (is_byte comma 159) with false.
    change (nat_of_ascii comma) with 44.
    cbn [Nat.leb Nat.eqb andb orb]. rewrite !andb_false_r. reflexivity.
  - exact H.
Qed.

Lemma space_width_rev_before_comma (u r : str) :
  u <> [] -> space_width_rev u = 0 -> space_width_rev (u ++ comma :: r) = 0.
Proof.
  intros Hne H.
  destruct u as [|c [|d [|e u']]]; [contradiction | | |].
  - cbn [app]. unfold space_width_rev in *.
    destruct (asciiSpace c); [discriminate H |].
    cbn [firstn rev app].
    assert (H2 : space_width [comma; c] = 0) by reflexivity.
    rewrite H2. cbn [Nat.eqb].
    destruct r as [|x r]; cbn [firstn rev app]; [rewrite H2; reflexivity |].
    assert (H3 : (3 =? space_width [x; comma; c]) = false).
    { unfold space_width.
      change (is_byte comma 133) with false.
      change (is_byte comma 160) with false.
      change (is_byte comma 154) with false.
      change (is_byte comma 128) with false.
      change (is_byte comma 129) with false.
      cbn [orb]. rewrite !andb_false_r. cbn [andb].
      destruct (asciiSpace x); reflexivity. }
    cbn [Nat.eqb] in H3. now rewrite H3.
  - cbn [app]. unfold space_width_rev in *.
    destruct (asciiSpace c); [discriminate H |].
    cbn [firstn rev app] in *.
    destruct (2 =? space_width [d; c]); [discriminate H |].
    assert (H3 : space_width [comma; d; c] = 0) by reflexivity.
    now rewrite H3.
  - exact H.
Qed.

Lemma Join_first (t : str) (ts : list str) (sep : str) :
  Join (t :: ts) sep =
  t ++ match ts with [] => [] | _ :: _ => sep ++ Join ts sep end.
Proof. destruct ts; simpl; [now rewrite app_nil_r | reflexivity]. Qed.

Lemma Join_last (ts : list str) (t sep : str) :
  Join (ts ++ [t]) sep =
  match ts with [] => [] | _ :: _ => Join ts sep ++ sep end ++ t.
Proof.
  destruct ts as [|x ts]; [reflexivity |].
  rewrite (@Join_snoc (x :: ts) t sep) by discriminate.
  now rewrite <- app_assoc.
Qed.

(** A tag as a search request gives it: not empty, without white space
    around it, and without colon or comma. *)
Definition plain_tag (t : str) : Prop :=
  t <> [] /\ TrimSpace t = t /\
  existsb (byte_eqb ":"%char) t = false /\
  existsb (byte_eqb comma) t = false.

Lemma Join_trimmed (tags : list str) :
  tags <> [] -> Forall plain_tag tags ->
  TrimSpace (Join tags [comma]) = Join tags [comma].
Proof.
  intros Hne Hall. apply untrimmed.
  - destruct tags as [|t ts]; [contradiction |].
    inversion Hall as [|? ? [Ht [Htrim _]] _]; subst.
    destruct (trimmed_ends Ht Htrim) as [Hl _].
    rewrite Join_first. destruct ts; [now rewrite app_nil_r |].
    cbn [app]. now apply space_width_before_comma.
  - destruct (@exists_last _ tags Hne) as [ts [t E]]. subst tags.
    apply Forall_app in Hall as [_ Hall].
    inversion Hall as [|? ? [Ht [Htrim _]] _]; subst.
    destruct (trimmed_ends Ht Htrim) as [_ Hr].
    rewrite Join_last, rev_app_distr.
    destruct ts as [|x ts]; [now rewrite app_nil_r |].
    rewrite rev_app_distr. cbn [rev app].
    apply space_width_rev_before_comma; [| exact Hr].
    intros E. apply (f_equal (@rev ascii)) in E.
    rewrite rev_involutive in E. contradiction.
Qed.

Lemma Join_without (d : ascii) (tags : list str) :
  byte_eqb d comma = false ->
  Forall (fun t => existsb (byte_eqb d) t = false) tags ->
  existsb (byte_eqb d) (Join tags [comma]) = false.
Proof.
  intros Hd. induction 1 as [|t ts Ht Hts IH]; [reflexivity |].
  rewrite Join_first, existsb_app, Ht. destruct ts; [reflexivity |].
  cbn [app existsb orb]. now rewrite Hd, IH.
Qed.

Lemma Join_with (d : ascii) (tags : list str) (t : str) :
  In t tags -> existsb (byte_eqb d) t = true ->
  existsb (byte_eqb d) (Join tags [comma]) = true.
Proof.
  intros Hin Ht. induction tags as [|x ts IH]; [destruct Hin |].
  rewrite Join_first, existsb_app.
  destruct Hin as [-> | Hin]; [now rewrite Ht |].
  destruct ts as [|y ts]; [destruct Hin |].
  cbn [app existsb]. rewrite (IH Hin). now rewrite !orb_true_r.
Qed.

Lemma Split_Join (tags : list str) :
  tags <> [] ->
  Forall (fun t => existsb (byte_eqb comma) t = false) tags ->
  Split (Join tags [comma]) [comma] = tags.
Proof.
  intros Hne Hall. induction Hall as [|t ts Ht Hts IH]; [contradiction |].
  rewrite Join_first. destruct ts as [|x ts].
  - rewrite app_nil_r. unfold Split. now rewrite Split_aux_without.
  - cbn [app]. rewrite Split_first by exact Ht.
    f_equal. apply IH. discriminate.
Qed.

(** X25: tags that are plain (not empty, trimmed, without colon or
    comma) reach the search as they were given: the filter that
    handleSearchQuery builds from them, with no path prefix, is parsed by
    Service.Search into exactly these tags.  When one of the tags holds a
    colon, the filter is parsed into no filter at all, so the search is
    not filtered. *)
Theorem tag_filter_round_trip (tags : list str) :
  tags <> [] ->
  (Forall plain_tag tags -> parse_filter (build_filter [] tags) = ([], tags)) /\
  ((exists t, In t tags /\ existsb (byte_eqb ":"%char) t = true) ->
   parse_filter (build_filter [] tags) = ([], [])).
Proof.
  intros Hne.
  assert (Hbuild : build_filter [] tags
                   = lit "tags" ++ ":"%char :: Join tags [comma]).
  { unfold build_filter. cbn [str_eqb negb].
    destruct tags; [contradiction | reflexivity]. }
  rewrite Hbuild. unfold parse_filter.
  change (lit ":") with [":"%char].
  rewrite Contains_byte, existsb_app, Split_first by reflexivity.
  cbn [existsb]. change (byte_eqb ":" ":") with true.
  rewrite orb_true_r. cbn [orb]. rewrite andb_true_r.
  change (str_eqb (lit "tags" ++ ":"%char :: Join tags [comma]) [])
    with false.
  cbn [negb]. split.
  - intros Hall.
    assert (Hcolon : existsb (byte_eqb ":"%char) (Join tags [comma]) = false).
    { apply Join_without; [reflexivity |].
      eapply Forall_impl; [| exact Hall]. intros t Ht. apply Ht. }
    unfold Split at 1. rewrite Split_aux_without by exact Hcolon.
    cbn [rev app].
    change (TrimSpace (lit "tags")) with (lit "tags").
    change (str_eqb (lit "tags") (lit "tags")) with true. cbv iota.
    rewrite Join_trimmed by assumption.
    change (lit ",") with [comma].
    rewrite Split_Join.
    + f_equal. clear - Hall. induction Hall as [|t ts Ht _ IH]; [reflexivity |].
      cbn [map]. rewrite IH. f_equal. apply Ht.
    + exact Hne.
    + eapply Forall_impl; [| exact Hall]. intros t Ht. apply Ht.
  - intros [t [Hin Ht]].
    pose proof (@Join_with ":"%char tags t Hin Ht) as Hcolon.
    pose proof (@Split_aux_with ":"%char (Join tags [comma]) [] Hcolon) as Hlen.
    unfold Split.
    destruct (Split_aux [":"%char] (Join tags [comma]) 0 []) as [|x [|y l]];
      cbn [length] in Hlen; try lia. reflexivity.
Qed.

Lemma tag_filter_round_trip_witness :
  parse_filter (build_filter [] [lit "todo"; lit "work"])
    = ([], [lit "todo"; lit "work"]) /\
  parse_filter (build_filter [] [lit "todo"; lit "area:work"]) = ([], []).
Proof.
  split.
  - apply (proj1 (@tag_filter_round_trip [lit "todo"; lit "work"]
                    ltac:(discriminate))).
    repeat constructor; discriminate.
  - apply (proj2 (@tag_filter_round_trip [lit "todo"; lit "area:work"]
                    ltac:(discriminate))).
    exists (lit "area:work"). split; [right; left; reflexivity | reflexivity].
Defined.

End TagFilter.
